(** * Lottery backend: wallet ledger, ticket purchase, lifecycle sweep, draw

    A shallow embedding of the money-bearing core of the lottery backend:
    - [updateWallet]         services/walletService.js
    - [computeLotteryFlags]  utils/computeLotteryFlags.js
    - [purchase]             POST /lottery/:id/purchase
    - [drawLottery]          services/drawLotteryService.js
    - [adminDraw]            POST /lottery/:id/draw
    - [cronTick]             cron-jobs/cronJobs.js

    Conventions.  A stored amount of money is a Decimal128 written through
    [toFixed(2)]: a whole number of minor units (1.00 = 100), kept as such
    in the documents.  The definitions below compute on these numbers
    exactly; they carry everything that does not hang on arithmetic: the
    tickets, the phases, the walk of the draw.  The source computes with
    doubles, and the module [Js] further down embeds that arithmetic and
    the functions that move money over it; what is stated about balances
    and amounts is stated there.  Dates are milliseconds since the epoch.
    A MongoDB collection addressed by [_id] is a [gmap]; a collection that
    is scanned is a [list] in insertion order.  A session with a running transaction is a working copy of the
    database: [commitTransaction] publishes it, [abortTransaction] drops it. *)

From Stdlib Require Import ZArith Lia Ascii String.
From stdpp Require Import gmap strings list pretty.

Local Open Scope Z_scope.

(** ** JavaScript numbers *)

(** A JS Number as the wallet sees it: a finite amount of minor units, or NaN.
    [Num 0] stands for both [0] and [-0].  The amounts that reach
    [updateWallet] are Numbers: the purchase passes [-totalCost], the draw
    passes [Number(ws.prizeAmount.toString())]. *)
Inductive jsnum :=
| Num (z : Z)
| NaN.

Definition isNaN (n : jsnum) : bool :=
  match n with NaN => true | Num _ => false end.

(** [!n]: a Number is falsy when it is [0], [-0] or [NaN]. *)
Definition jsNot (n : jsnum) : bool :=
  match n with
  | Num z => bool_decide (z = 0)
  | NaN => true
  end.

Definition jsNeg (n : jsnum) : jsnum :=
  match n with Num z => Num (- z) | NaN => NaN end.

Definition jsMul (a b : jsnum) : jsnum :=
  match a, b with
  | Num x, Num y => Num (x * y)
  | _, _ => NaN
  end.

(** [parseFloat(n)] of a Number goes through its decimal string and gives the
    Number back. *)
Definition parseFloat (n : jsnum) : jsnum := n.

(** ** Documents *)

Definition userId := nat.
Definition lotteryId := nat.
Bind Scope nat_scope with userId lotteryId.

Inductive role := RoleUser | RoleAdmin.

Global Instance role_eq_dec : EqDecision role.
Proof. solve_decision. Defined.

(** models/User.js.  [walletBalance] is [undefined] for an administrator. *)
Record User := mkUser {
  u_name : string;
  u_email : string;
  u_role : role;
  walletBalance : option Z;
}.

(** The schema default of [walletBalance]: 10000.00 for role [user], nothing
    otherwise. *)
Definition openingBalance : Z := 1000000.

Definition defaultWalletBalance (r : role) : option Z :=
  match r with
  | RoleUser => Some openingBalance
  | RoleAdmin => None
  end.

(** [new User({ name, email, passwordHash })]: the account as it is opened. *)
Definition newUser (name email : string) : User :=
  mkUser name email RoleUser (defaultWalletBalance RoleUser).

Inductive txType := Credit | Debit.

Global Instance txType_eq_dec : EqDecision txType.
Proof. solve_decision. Defined.

(** models/Transaction.js: one ledger entry. *)
Record Transaction := mkTransaction {
  t_user : userId;
  t_amount : Z;
  t_type : txType;
  t_description : string;
  balanceAfter : Z;
}.

Record WinnerStructure := mkWinnerStructure {
  fromRank : Z;
  toRank : Z;
  prizeAmount : Z;
}.

Record Flags := mkFlags {
  isUpcoming : bool;
  isActive : bool;
  isEnded : bool;
  resultAnnounced : bool;
}.

(** models/Lottery.js, the fields the core reads or writes. *)
Record Lottery := mkLottery {
  title : string;
  ticketPrice : Z;
  maxTickets : Z;
  maxTicketsPerUser : Z;
  winnerStructure : list WinnerStructure;
  startDatetime : Z;
  endDatetime : Z;
  drawDatetime : Z;
  ticketsSold : Z;
  flags : Flags;
  lotteryPrefix : string;
}.

(** models/TicketPurchase.js: the allocation of one user in one lottery. *)
Record TicketPurchase := mkTicketPurchase {
  p_lotteryId : lotteryId;
  p_userId : userId;
  ticketNumbers : list string;
  p_quantity : Z;
  perTicketPrice : Z;
  totalPrice : Z;
}.

(** An entry of the [winners] array that [drawLottery] builds. *)
Record Winner := mkWinner {
  rank : Z;
  rankRange : string;
  w_userId : userId;
  w_ticketNumber : string;
  w_prizeAmount : Z;
  w_name : string;
  w_email : string;
}.

Record LotteryResult := mkLotteryResult {
  r_lotteryId : lotteryId;
  winners : list Winner;
}.

(** The database. *)
Record db := mkDb {
  users : gmap userId User;
  transactions : list Transaction;
  lotteries : gmap lotteryId Lottery;
  purchases : list TicketPurchase;
  results : list LotteryResult;
}.

Definition setUsers (us : gmap userId User) (d : db) : db :=
  mkDb us (transactions d) (lotteries d) (purchases d) (results d).
Definition setTransactions (ts : list Transaction) (d : db) : db :=
  mkDb (users d) ts (lotteries d) (purchases d) (results d).
Definition setLotteries (ls : gmap lotteryId Lottery) (d : db) : db :=
  mkDb (users d) (transactions d) ls (purchases d) (results d).
Definition setPurchases (ps : list TicketPurchase) (d : db) : db :=
  mkDb (users d) (transactions d) (lotteries d) ps (results d).
Definition setResults (rs : list LotteryResult) (d : db) : db :=
  mkDb (users d) (transactions d) (lotteries d) (purchases d) rs.

(** ** Exceptions and transactions *)

(** The errors thrown in the core, named after their messages. *)
Inductive error :=
| InvalidAmount            (* "Invalid amount" *)
| UserNotFound             (* "User not found" *)
| OnlyUsersHaveWallets     (* "Only users have wallets" *)
| InsufficientFunds        (* "Insufficient funds", code INSUFFICIENT_FUNDS *)
| LotteryNotFound          (* "Lottery not found" *)
| ResultAlreadyAnnounced   (* "Result already announced" *)
| DrawTimeNotReached       (* "Lottery draw time not reached yet" *)
| LotteryNotEnded          (* "Lottery not ended yet" *)
| NoTicketsSold            (* "No tickets sold for this lottery" *)
| TypeError.               (* a property read on null or undefined *)

Global Instance error_eq_dec : EqDecision error.
Proof. solve_decision. Defined.

Inductive result (A : Type) :=
| Ok (a : A)
| Threw (e : error).
Arguments Ok {A} a.
Arguments Threw {A} e.

(** Code running inside a session: it reads and writes the working copy and
    either returns a value with the new working copy, or throws. *)
Definition Tx (A : Type) : Type := db → result (A * db).

Definition ret {A} (a : A) : Tx A := λ s, Ok (a, s).
Definition bind {A B} (m : Tx A) (k : A → Tx B) : Tx B :=
  λ s, match m s with
       | Ok (a, s') => k a s'
       | Threw e => Threw e
       end.

Notation "'let*' x := m 'in' k" := (bind m (λ x, k))
  (at level 10, x pattern, m at level 100, k at level 200).

(** [startSession(); startTransaction(); try { body; commitTransaction() }
    catch (err) { abortTransaction(); throw err }] on the committed database. *)
Definition inOwnTransaction {A} (body : Tx A) (d : db) : db * result A :=
  match body d with
  | Ok (a, working) => (working, Ok a)
  | Threw e => (d, Threw e)
  end.

(** ** services/walletService.js *)

(** The guard [if (!amount || isNaN(amount)) throw] followed by
    [parseFloat(amount)]: the change to apply, when the amount passes. *)
Definition checkedAmount (amount : jsnum) : option Z :=
  if jsNot amount || isNaN amount then None
  else match parseFloat amount with
       | Num change => Some change
       | NaN => None
       end.

(** [user.walletBalance = Decimal128.fromString(newBalance.toFixed(2))] *)
Definition withBalance (user : User) (newBalance : Z) : User :=
  mkUser (u_name user) (u_email user) (u_role user) (Some newBalance).

(** The document given to [Transaction.create]. *)
Definition ledgerEntry (uid : userId) (change : Z) (description : string)
    (newBalance : Z) : Transaction :=
  mkTransaction uid (Z.abs change)
    (if bool_decide (0 ≤ change) then Credit else Debit)
    description newBalance.

(** [updateWallet(userId, amount, description, session)] with the session of
    the caller: positive amounts credit, negative amounts debit. *)
Definition updateWallet (uid : userId) (amount : jsnum) (description : string)
  : Tx Z := λ s,
  match checkedAmount amount with
  | None => Threw InvalidAmount
  | Some change =>
    match users s !! uid with
    | None => Threw UserNotFound
    | Some user =>
      if bool_decide (u_role user ≠ RoleUser) then Threw OnlyUsersHaveWallets
      else match walletBalance user with
      | None => Threw TypeError
      | Some currentBalance =>
        let newBalance := currentBalance + change in
        if bool_decide (newBalance < 0) then Threw InsufficientFunds
        else
          Ok (newBalance,
              setTransactions
                (transactions s ++ [ledgerEntry uid change description newBalance])
                (setUsers (<[uid := withBalance user newBalance]> (users s)) s))
      end
    end
  end.

(** [updateWallet(userId, amount, description)] without a session: it opens,
    commits or aborts its own transaction. *)
Definition updateWalletOwnSession (uid : userId) (amount : jsnum)
    (description : string) (d : db) : db * result Z :=
  inOwnTransaction (updateWallet uid amount description) d.

(** The two directions of the one operation, as its callers use it: the
    purchase passes [-totalCost], the draw passes the prize. *)
Definition walletDebit (uid : userId) (amount : jsnum) (description : string)
  : db → db * result Z :=
  updateWalletOwnSession uid (jsNeg amount) description.

Definition walletCredit (uid : userId) (amount : jsnum) (description : string)
  : db → db * result Z :=
  updateWalletOwnSession uid amount description.

(** ** utils/computeLotteryFlags.js *)

(** [x || 0] on a Number. *)
Definition orZero (x : Z) : Z := if bool_decide (x = 0) then 0 else x.

(** The object that [computeLotteryFlags] returns. *)
Record ComputedFlags := mkComputedFlags {
  cf_isActive : bool;
  cf_isEnded : bool;
  cf_resultAnnounced : bool;
}.

(** [computeLotteryFlags(lottery)], with the clock read [now] made explicit. *)
Definition computeLotteryFlags (now : Z) (lottery : Lottery) : ComputedFlags :=
  let sold := orZero (ticketsSold lottery) in
  let hasStarted :=
    bool_decide (startDatetime lottery ≤ now)
    || bool_decide (maxTickets lottery ≤ sold) in
  let hasEnded :=
    bool_decide (endDatetime lottery ≤ now)
    || bool_decide (maxTickets lottery ≤ sold) in
  let resultReady := bool_decide (drawDatetime lottery ≤ now) in
  mkComputedFlags hasStarted hasEnded resultReady.

(** The phase that the purchase route reads off the computed flags: it sells
    only when [flags.isActive && !flags.isEnded]. *)
Inductive phase := UPCOMING | ACTIVE | ENDED.

Global Instance phase_eq_dec : EqDecision phase.
Proof. solve_decision. Defined.

Definition computedPhase (now : Z) (lottery : Lottery) : phase :=
  let f := computeLotteryFlags now lottery in
  if cf_isEnded f then ENDED
  else if cf_isActive f then ACTIVE
  else UPCOMING.

(** ** Ticket numbers *)

Fixpoint replicate_string (n : nat) (c : Ascii.ascii) : string :=
  match n with
  | O => EmptyString
  | S n' => String c (replicate_string n' c)
  end.

(** [s.padStart(n, "0")] *)
Definition padStart (n : nat) (c : Ascii.ascii) (s : string) : string :=
  replicate_string (n - String.length s) c +:+ s.

(** [`${lottery.lotteryPrefix}-${String(i).padStart(4, "0")}`] *)
Definition ticketNum (prefix : string) (i : nat) : string :=
  prefix +:+ "-" +:+ padStart 4 "0"%char (pretty i).

(** The loop [for (let i = 1; i <= lottery.maxTickets; i++)] that keeps the
    numbers not yet sold, in ascending order. *)
Definition availableTickets (lottery : Lottery) (soldTickets : list string)
  : list string :=
  filter (λ t, t ∉ soldTickets)
    (ticketNum (lotteryPrefix lottery) <$> seq 1 (Z.to_nat (maxTickets lottery))).

(** ** POST /lottery/:id/purchase *)

(** [req.params.id] after [isUUID]. *)
Inductive idParam :=
| MalformedId
| Uuid (id : lotteryId).

(** The early [return res.status(4xx)] replies: none of them follows a write. *)
Inductive rejection :=
| InvalidTicketQuantity       (* 400 "Invalid ticket quantity" *)
| InvalidLotteryId            (* 400 "Invalid lotteryId" *)
| LotteryNotFoundReply        (* 404 "Lottery not found" *)
| LotteryIsNotActive          (* 400 "Lottery is not active" *)
| PerUserLimitExceeded        (* 400 "Cannot purchase more than ..." *)
| ChosenTicketsInvalid (invalid : list string)
                              (* 400 "Some chosen tickets are invalid or already sold" *)
| QuantityMismatch            (* 400 "Quantity does not match chosen tickets count" *)
| NotEnoughTickets            (* 400 "Not enough tickets available" *)
| InvalidPriceOrQuantity.     (* 400 "Invalid ticket price or quantity" *)

Inductive purchaseOutcome :=
| Rejected (r : rejection)          (* early return, the session is never committed *)
| Failed (e : error)                (* exception: [catch], [abortTransaction] *)
| Purchased (tickets : list string). (* [commitTransaction], 201 *)

(** What the route has decided when it reaches the wallet. *)
Record purchasePlan := mkPurchasePlan {
  pl_id : lotteryId;
  pl_lottery : Lottery;
  pl_existing : option (nat * TicketPurchase);
  pl_ticketsToBuy : list string;
  pl_ticketPrice : Z;
  pl_qty : Z;
  pl_totalCost : Z;
}.

Definition soldTicketsOf (id : lotteryId) (s : db) : list string :=
  mjoin (ticketNumbers <$> filter (λ p, p_lotteryId p = id) (purchases s)).

(** [TicketPurchase.findOne({ lotteryId, userId })]: the first match, with its
    position in the collection. *)
Definition findPurchase (id : lotteryId) (uid : userId) (s : db)
  : option (nat * TicketPurchase) :=
  list_find (λ p, p_lotteryId p = id ∧ p_userId p = uid) (purchases s).

(** Lines 259-357 of the route: validation, availability, per-user limit,
    choice of the tickets and price.  Reads only.  [quantity] is the integer
    count of the request body. *)
Definition planPurchase (now : Z) (uid : userId) (idp : idParam)
    (quantity : Z) (chosenTickets : list string) (s : db)
  : rejection + purchasePlan :=
  if bool_decide (quantity ≤ 0) then inl InvalidTicketQuantity else
  match idp with
  | MalformedId => inl InvalidLotteryId
  | Uuid id =>
    match lotteries s !! id with
    | None => inl LotteryNotFoundReply
    | Some lottery =>
      let flags := computeLotteryFlags now lottery in
      if negb (cf_isActive flags) || cf_isEnded flags then inl LotteryIsNotActive
      else
        let soldTickets := soldTicketsOf id s in
        let available := availableTickets lottery soldTickets in
        let existingPurchase := findPurchase id uid s in
        let existingQty :=
          match existingPurchase with
          | Some (_, p) => p_quantity p
          | None => 0
          end in
        if bool_decide (maxTicketsPerUser lottery < existingQty + quantity)
        then inl PerUserLimitExceeded
        else
          let chosen : rejection + list string :=
            if bool_decide (0 < length chosenTickets)%nat then
              let expectedPrefix := lotteryPrefix lottery +:+ "-" in
              let invalid :=
                filter (λ t, ¬ (String.prefix expectedPrefix t = true
                                ∧ t ∈ available)) chosenTickets in
              if bool_decide (0 < length invalid)%nat
              then inl (ChosenTicketsInvalid invalid)
              else if bool_decide (Z.of_nat (length chosenTickets) ≠ quantity)
              then inl QuantityMismatch
              else inr chosenTickets
            else if bool_decide (Z.of_nat (length available) < quantity)
            then inl NotEnoughTickets
            else inr (take (Z.to_nat quantity) available) in
          match chosen with
          | inl r => inl r
          | inr ticketsToBuy =>
            let price := Num (ticketPrice lottery) in
            let qty := Num quantity in
            if isNaN price || isNaN qty then inl InvalidPriceOrQuantity
            else match jsMul price qty with
            | NaN => inl InvalidPriceOrQuantity
            | Num totalCost =>
              inr (mkPurchasePlan id lottery existingPurchase ticketsToBuy
                     (ticketPrice lottery) quantity totalCost)
            end
          end
    end
  end.

Definition purchaseDescription (pl : purchasePlan) : string :=
  "Purchase " +:+ pretty (pl_qty pl) +:+ " ticket(s) for "
  +:+ title (pl_lottery pl).

(** The upsert of the buyer's allocation. *)
Definition upsertPurchase (uid : userId) (pl : purchasePlan) : Tx unit := λ s,
  let ps :=
    match pl_existing pl with
    | Some (i, existingPurchase) =>
      <[i := mkTicketPurchase (p_lotteryId existingPurchase)
               (p_userId existingPurchase)
               (ticketNumbers existingPurchase ++ pl_ticketsToBuy pl)
               (p_quantity existingPurchase + pl_qty pl)
               (pl_ticketPrice pl)
               (orZero (totalPrice existingPurchase) + pl_totalCost pl)]>
        (purchases s)
    | None =>
      purchases s ++ [mkTicketPurchase (pl_id pl) uid (pl_ticketsToBuy pl)
                        (pl_qty pl) (pl_ticketPrice pl) (pl_totalCost pl)]
    end in
  Ok (tt, setPurchases ps s).

(** [lottery.ticketsSold += qty; lottery.save()] *)
Definition addTicketsSold (qty : Z) (l : Lottery) : Lottery :=
  mkLottery (title l) (ticketPrice l) (maxTickets l) (maxTicketsPerUser l)
    (winnerStructure l) (startDatetime l) (endDatetime l) (drawDatetime l)
    (ticketsSold l + qty) (flags l) (lotteryPrefix l).

Definition saveTicketsSold (pl : purchasePlan) : Tx unit := λ s,
  Ok (tt, setLotteries
            (<[pl_id pl := addTicketsSold (pl_qty pl) (pl_lottery pl)]>
               (lotteries s)) s).

(** Lines 359-389: the debit, then the writes. *)
Definition payAndAllocate (uid : userId) (pl : purchasePlan)
  : Tx (list string) :=
  let* _ := updateWallet uid (jsNeg (Num (pl_totalCost pl)))
              (purchaseDescription pl) in
  let* _ := upsertPurchase uid pl in
  let* _ := saveTicketsSold pl in
  ret (pl_ticketsToBuy pl).

(** The whole route, for the authenticated user [uid]. *)
Definition purchase (now : Z) (uid : userId) (idp : idParam) (quantity : Z)
    (chosenTickets : list string) (d : db) : db * purchaseOutcome :=
  match planPurchase now uid idp quantity chosenTickets d with
  | inl r => (d, Rejected r)
  | inr pl =>
    match payAndAllocate uid pl d with
    | Ok (tickets, working) => (working, Purchased tickets)
    | Threw e => (d, Failed e)
    end
  end.

(** ** [allTickets.sort(() => Math.random() - 0.5)] *)

(** The comparator ignores its arguments, so what a deterministic sort does on
    an array of a given length is a decision tree over the signs the
    comparator returned: at a [Call] the engine calls the comparator and goes
    on according to whether the result was negative; at an [Emit] it is done,
    having rearranged the array by the given exchanges of positions. *)
Inductive sortPlan :=
| Emit (swaps : list (nat * nat))
| Call (negative notNegative : sortPlan).

(** The sort of the runtime: one plan for each array length. *)
Definition sortEngine := nat → sortPlan.

Definition swap {A} (ij : nat * nat) (l : list A) : list A :=
  match l !! ij.1, l !! ij.2 with
  | Some x, Some y => <[ij.2 := x]> (<[ij.1 := y]> l)
  | _, _ => l
  end.

Definition applySwaps {A} (swaps : list (nat * nat)) (l : list A) : list A :=
  foldl (λ acc ij, swap ij acc) l swaps.

(** [belowHalf k] tells whether the [k]-th call of [Math.random()] returned a
    value below 0.5, that is whether the comparator returned a negative
    number.  [Math.random()] is taken uniform on the interval from 0 to 1, so
    each call is a fair coin and a result of exactly 0 has probability 0. *)
Fixpoint runPlan (p : sortPlan) (belowHalf : nat → bool) (k : nat)
  : list (nat * nat) :=
  match p with
  | Emit swaps => swaps
  | Call negative notNegative =>
    if belowHalf k then runPlan negative belowHalf (S k)
    else runPlan notNegative belowHalf (S k)
  end.

Definition arraySort {A} (engine : sortEngine) (belowHalf : nat → bool)
    (l : list A) : list A :=
  applySwaps (runPlan (engine (length l)) belowHalf 0) l.

Fixpoint planHeight (p : sortPlan) : nat :=
  match p with
  | Emit _ => 0
  | Call a b => S (planHeight a `max` planHeight b)
  end.

(** All the sequences of [d] comparator signs; each is as likely as any
    other. *)
Fixpoint signSequences (d : nat) : list (list bool) :=
  match d with
  | O => [[]]
  | S d' => (cons true <$> signSequences d') ++ (cons false <$> signSequences d')
  end.

Definition asSource (cs : list bool) : nat → bool := λ k, nth k cs false.

(** Insertion sort as a plan.  The element at position [j] is compared with
    its left neighbour: on a negative result it stays, otherwise the two are
    exchanged and the comparison moves one position to the left. *)
Fixpoint insertElement (j : nat) (done : list (nat * nat))
    (next : list (nat * nat) → sortPlan) : sortPlan :=
  match j with
  | O => next done
  | S j' => Call (next done) (insertElement j' (done ++ [(j', j)]) next)
  end.

Fixpoint insertFrom (remaining i : nat) (done : list (nat * nat)) : sortPlan :=
  match remaining with
  | O => Emit done
  | S r => insertElement i done (λ done', insertFrom r (S i) done')
  end.

Definition insertionSort : sortEngine := λ n, insertFrom (n - 1) 1 [].

(** ** services/drawLotteryService.js *)

(** An element of [allTickets]. *)
Record Ticket := mkTicket {
  tk_ticketNumber : string;
  tk_userId : userId;
  tk_name : string;
  tk_email : string;
}.

Global Instance Ticket_eq_dec : EqDecision Ticket.
Proof. solve_decision. Defined.

(** [s || dflt] on a string. *)
Definition orString (s dflt : string) : string :=
  if bool_decide (s = EmptyString) then dflt else s.

(** The inner [forEach] over one populated purchase.  A purchase whose user
    document is gone is populated with [null], and reading [p.userId._id]
    throws. *)
Definition ticketsOfPurchase (s : db) (p : TicketPurchase)
  : result (list Ticket) :=
  match ticketNumbers p with
  | [] => Ok []
  | nums =>
    match users s !! p_userId p with
    | None => Threw TypeError
    | Some u =>
      Ok ((λ num, mkTicket num (p_userId p) (orString (u_name u) "Unknown")
                    (orString (u_email u) "N/A")) <$> nums)
    end
  end.

Fixpoint collectTickets (s : db) (ps : list TicketPurchase)
  : result (list Ticket) :=
  match ps with
  | [] => Ok []
  | p :: ps' =>
    match ticketsOfPurchase s p with
    | Threw e => Threw e
    | Ok ts =>
      match collectTickets s ps' with
      | Threw e => Threw e
      | Ok rest => Ok (ts ++ rest)
      end
    end
  end.

(** The loop variables of the winner selection. *)
Record drawState := mkDrawState {
  ds_winners : list Winner;
  currentIndex : nat;
  rankCounter : Z;
}.

Definition prizeDescription (lottery : Lottery) (t : Ticket) : string :=
  "Prize for lottery " +:+ title lottery +:+ " (Ticket "
  +:+ tk_ticketNumber t +:+ ")".

Definition winnerOf (ws : WinnerStructure) (rankCounter : Z) (t : Ticket)
  : Winner :=
  mkWinner rankCounter (pretty (fromRank ws) +:+ "-" +:+ pretty (toRank ws))
    (tk_userId t) (tk_ticketNumber t) (prizeAmount ws) (tk_name t) (tk_email t).

(** [for (let i = 0; i < groupSize && currentIndex < shuffled.length; i++)],
    with [n] the iterations that [groupSize] still allows. *)
Fixpoint groupLoop (n : nat) (lottery : Lottery) (ws : WinnerStructure)
    (shuffled : list Ticket) (st : drawState) : Tx drawState :=
  match n with
  | O => ret st
  | S n' =>
    match shuffled !! currentIndex st with
    | None => ret st
    | Some winnerTicket =>
      let* _ := updateWallet (tk_userId winnerTicket) (Num (prizeAmount ws))
                  (prizeDescription lottery winnerTicket) in
      groupLoop n' lottery ws shuffled
        (mkDrawState
           (ds_winners st ++ [winnerOf ws (rankCounter st) winnerTicket])
           (S (currentIndex st)) (rankCounter st + 1))
    end
  end.

Definition groupSize (ws : WinnerStructure) : Z := toRank ws - fromRank ws + 1.

(** [for (const ws of lottery.winnerStructure)] *)
Fixpoint bandsLoop (wss : list WinnerStructure) (lottery : Lottery)
    (shuffled : list Ticket) (st : drawState) : Tx drawState :=
  match wss with
  | [] => ret st
  | ws :: rest =>
    let* st' := groupLoop (Z.to_nat (groupSize ws)) lottery ws shuffled st in
    bandsLoop rest lottery shuffled st'
  end.

Definition pickWinners (lottery : Lottery) (shuffled : list Ticket)
  : Tx (list Winner) :=
  let* st := bandsLoop (winnerStructure lottery) lottery shuffled
               (mkDrawState [] 0 1) in
  ret (ds_winners st).

Definition setResultAnnounced (l : Lottery) : Lottery :=
  mkLottery (title l) (ticketPrice l) (maxTickets l) (maxTicketsPerUser l)
    (winnerStructure l) (startDatetime l) (endDatetime l) (drawDatetime l)
    (ticketsSold l)
    (mkFlags (isUpcoming (flags l)) (isActive (flags l)) (isEnded (flags l)) true)
    (lotteryPrefix l).

Definition saveResult (id : lotteryId) (ws : list Winner) : Tx unit := λ s,
  Ok (tt, setResults (results s ++ [mkLotteryResult id ws]) s).

Definition saveAnnounced (id : lotteryId) (lottery : Lottery) : Tx unit := λ s,
  Ok (tt, setLotteries (<[id := setResultAnnounced lottery]> (lotteries s)) s).

(** The [try] block of [drawLottery(lotteryId, session, force)], inside the
    session; [now] is its clock read, [engine] and [belowHalf] are the sort
    of the runtime and the outcomes of [Math.random()]. *)
Definition drawLottery (engine : sortEngine) (belowHalf : nat → bool)
    (now : Z) (id : lotteryId) (force : bool) : Tx (list Winner) := λ s,
  match lotteries s !! id with
  | None => Threw LotteryNotFound
  | Some lottery =>
    if resultAnnounced (flags lottery) then Threw ResultAlreadyAnnounced else
    let endedByTime := bool_decide (endDatetime lottery ≤ now) in
    let endedByTickets :=
      isEnded (flags lottery)
      && bool_decide (maxTickets lottery ≤ ticketsSold lottery) in
    let reachedDrawTime := bool_decide (drawDatetime lottery ≤ now) in
    if negb force && negb reachedDrawTime then Threw DrawTimeNotReached else
    if negb endedByTime && negb endedByTickets && negb force
    then Threw LotteryNotEnded else
    match collectTickets s (filter (λ p, p_lotteryId p = id) (purchases s)) with
    | Threw e => Threw e
    | Ok allTickets =>
      if bool_decide (length allTickets = 0%nat) then Threw NoTicketsSold else
      let shuffled := arraySort engine belowHalf allTickets in
      (let* winners := pickWinners lottery shuffled in
       let* _ := saveResult id winners in
       let* _ := saveAnnounced id lottery in
       ret winners) s
    end
  end.

(** [drawLottery(lotteryId)]: no session given, the service runs its own
    transaction, unforced. *)
Definition drawLotteryOwnSession (engine : sortEngine) (belowHalf : nat → bool)
    (now : Z) (id : lotteryId) (d : db) : db * result (list Winner) :=
  inOwnTransaction (drawLottery engine belowHalf now id false) d.

(** POST /lottery/:id/draw: the route opens the transaction, calls
    [drawLottery(id, session, true)], commits, and aborts on any error. *)
Definition adminDraw (engine : sortEngine) (belowHalf : nat → bool)
    (now : Z) (id : lotteryId) (d : db) : db * result (list Winner) :=
  inOwnTransaction (drawLottery engine belowHalf now id true) d.

(** ** cron-jobs/cronJobs.js *)

Definition withFlags (f : Flags) (l : Lottery) : Lottery :=
  mkLottery (title l) (ticketPrice l) (maxTickets l) (maxTicketsPerUser l)
    (winnerStructure l) (startDatetime l) (endDatetime l) (drawDatetime l)
    (ticketsSold l) f (lotteryPrefix l).

(** Step 1: mark as upcoming. *)
Definition markUpcoming (now : Z) (l : Lottery) : Lottery :=
  let f := flags l in
  if negb (isUpcoming f) && negb (isActive f) && negb (isEnded f)
     && bool_decide (now < startDatetime l)
  then withFlags (mkFlags true (isActive f) (isEnded f) (resultAnnounced f)) l
  else l.

(** Step 2: mark as active. *)
Definition markActive (now : Z) (l : Lottery) : Lottery :=
  let f := flags l in
  if negb (isActive f) && negb (isEnded f)
     && bool_decide (startDatetime l ≤ now) && bool_decide (now < endDatetime l)
  then withFlags (mkFlags false true (isEnded f) (resultAnnounced f)) l
  else l.

(** Step 3: mark as ended, by time or by sell-out. *)
Definition markEnded (now : Z) (l : Lottery) : Lottery :=
  let f := flags l in
  if negb (isEnded f)
     && (bool_decide (endDatetime l ≤ now)
         || bool_decide (maxTickets l ≤ ticketsSold l))
  then withFlags (mkFlags false false true (resultAnnounced f)) l
  else l.

(** [Lottery.updateMany(filter, { $set })] *)
Definition updateMany (f : Lottery → Lottery) (d : db) : db :=
  setLotteries (f <$> lotteries d) d.

(** [Lottery.updateOne({ _id }, { $set: { "flags.resultAnnounced": true } })] *)
Definition announce (id : lotteryId) (d : db) : db :=
  setLotteries (alter setResultAnnounced id (lotteries d)) d.

(** Step 4, the query. *)
Definition dueForDraw (now : Z) (l : Lottery) : bool :=
  negb (resultAnnounced (flags l)) && isEnded (flags l)
  && bool_decide (drawDatetime l ≤ now).

Definition lotteriesToDraw (now : Z) (d : db) : list (lotteryId * Lottery) :=
  filter (λ e, dueForDraw now e.2 = true) (map_to_list (lotteries d)).

(** Step 4, the body of the loop for one lottery of the query result;
    [drawNow] is the clock read of the draw. *)
Definition sweepLottery (engine : sortEngine)
    (belowHalf : lotteryId → nat → bool) (drawNow : lotteryId → Z)
    (d : db) (e : lotteryId * Lottery) : db :=
  let (id, lottery) := e in
  if bool_decide (ticketsSold lottery = 0) then announce id d
  else
    match drawLotteryOwnSession engine (belowHalf id) (drawNow id) id d with
    | (d', Ok _) => announce id d'
    | (d', Threw _) => d'
    end.

(** Steps 1 to 3, one after the other. *)
Definition sweepFlags (now : Z) (d : db) : db :=
  updateMany (markEnded now)
    (updateMany (markActive now) (updateMany (markUpcoming now) d)).

(** One run of the scheduled job. *)
Definition cronTick (engine : sortEngine) (belowHalf : lotteryId → nat → bool)
    (now : Z) (drawNow : lotteryId → Z) (d : db) : db :=
  let d3 := sweepFlags now d in
  foldl (sweepLottery engine belowHalf drawNow) d3 (lotteriesToDraw now d3).

(** models/Lottery.js, the virtual [currentStatus]. *)
Inductive status := Closed | Ended | Active | Upcoming | Draft.

Global Instance status_eq_dec : EqDecision status.
Proof. solve_decision. Defined.

Definition currentStatus (now : Z) (l : Lottery) : status :=
  let f := flags l in
  if resultAnnounced f then Closed
  else if isEnded f then Ended
  else if isActive f then Active
  else if isUpcoming f || bool_decide (now < startDatetime l) then Upcoming
  else Draft.

(** ** Histories of the wallet *)

(** The amount of an entry with the sign of its direction. *)
Definition signedAmount (t : Transaction) : Z :=
  match t_type t with
  | Credit => t_amount t
  | Debit => - t_amount t
  end.

Definition entriesOf (uid : userId) (ts : list Transaction) : list Transaction :=
  filter (λ t, t_user t = uid) ts.

Definition ledgerSum (uid : userId) (ts : list Transaction) : Z :=
  foldr (λ t acc, signedAmount t + acc) 0 (entriesOf uid ts).

Definition emptyDb : db := mkDb ∅ [] ∅ [] [].

(** [new User({ name, email, passwordHash, role }).save()] under a fresh
    identifier: the schema default fills [walletBalance], and nothing is
    written to the ledger. *)
Definition openAccount (uid : userId) (name email : string) (r : role)
    (d : db) : db :=
  match users d !! uid with
  | Some _ => d
  | None =>
    setUsers (<[uid := mkUser name email r (defaultWalletBalance r)]> (users d)) d
  end.

Inductive walletEvent :=
| OpenAccount (uid : userId) (name email : string) (r : role)
| UpdateWallet (uid : userId) (amount : jsnum) (description : string).

Definition walletStep (d : db) (ev : walletEvent) : db :=
  match ev with
  | OpenAccount uid name email r => openAccount uid name email r d
  | UpdateWallet uid amount description =>
    (updateWalletOwnSession uid amount description d).1
  end.

(** The database after a history of account openings and wallet updates. *)
Definition walletHistory (evs : list walletEvent) : db :=
  foldl walletStep emptyDb evs.

(** The balance of an account, when it has one. *)
Definition balanceOf (uid : userId) (d : db) : option Z :=
  users d !! uid ≫= walletBalance.

(** ** Invariant and sample data *)

(** The invariant carried along a history: an account that does not exist has
    no entry, and a balance is the opening balance plus the signed entries. *)
Definition ledgerInvariant (d : db) : Prop :=
  (∀ uid, users d !! uid = None → ledgerSum uid (transactions d) = 0) ∧
  (∀ uid u b, users d !! uid = Some u → walletBalance u = Some b →
     0 ≤ b ∧ b = openingBalance + ledgerSum uid (transactions d)).


Definition lowBalanceDb : db :=
  mkDb {[ 1%nat := mkUser "Ada" "ada@example.org" RoleUser (Some 5000) ]}
       [] ∅ [] [].

Definition demoLottery : Lottery :=
  mkLottery "Premium Lottery" 100 3 2
    [mkWinnerStructure 1 1 10000; mkWinnerStructure 2 3 5000]
    1000 2000 2060 0 (mkFlags true false false false) "PL".

Definition demoDb : db :=
  mkDb (<[1%nat := newUser "Ada" "ada@example.org"]>
          (<[2%nat := newUser "Bob" "bob@example.org"]> ∅))
       [] {[ 7%nat := demoLottery ]} [] [].


(** ** The winner selection, as the specification words it *)

(** The prize slots in the order the bands are declared: a band
    [{fromRank, toRank, prizeAmount}] gives [toRank - fromRank + 1] slots. *)
Definition bandSlots (wss : list WinnerStructure) : list WinnerStructure :=
  wss ≫= (λ ws, replicate (Z.to_nat (groupSize ws)) ws).

(** The head of the permuted list fills the slots one by one, the ranks count
    up from 1, and the walk ends with the shorter of the two lists. *)
Definition assignedWinners (wss : list WinnerStructure) (shuffled : list Ticket)
  : list Winner :=
  imap (λ i p, winnerOf p.1 (1 + Z.of_nat i) p.2) (zip (bandSlots wss) shuffled).

(** The winners that a walk adds when it resumes at ticket [ci] with rank
    counter [rc] and the slots [slots] ahead. *)
Definition winnersFrom (slots : list WinnerStructure) (shuffled : list Ticket)
    (ci : nat) (rc : Z) : list Winner :=
  imap (λ i p, winnerOf p.1 (rc + Z.of_nat i) p.2) (zip slots (drop ci shuffled)).

(** A ledger entry that pays a winner the prize of the band. *)
Definition creditOf (entry : Transaction) (w : Winner) : Prop :=
  t_user entry = w_userId w ∧ signedAmount entry = w_prizeAmount w.

(** What the state of the database owes to a walk: the ledger grew by one
    entry per winner, and nothing else but balances moved. *)
Definition paidOut (s s' : db) (ws : list Winner) : Prop :=
  (∃ entries, transactions s' = transactions s ++ entries
              ∧ Forall2 creditOf entries ws)
  ∧ lotteries s' = lotteries s ∧ purchases s' = purchases s
  ∧ results s' = results s.

Definition sumZ (l : list Z) : Z := foldr Z.add 0 l.

(** The holder of a ticket has a wallet that a prize can be paid into. *)
Definition canReceive (s : db) (uid : userId) : Prop :=
  ∃ u b, users s !! uid = Some u ∧ u_role u = RoleUser
         ∧ walletBalance u = Some b ∧ 0 ≤ b.

(** The checks of [drawLottery] before it reads the tickets. *)
Definition drawAllowed (now : Z) (force : bool) (lottery : Lottery) : Prop :=
  resultAnnounced (flags lottery) = false
  ∧ (force = true
     ∨ (drawDatetime lottery ≤ now
        ∧ (endDatetime lottery ≤ now
           ∨ (isEnded (flags lottery) = true
              ∧ maxTickets lottery ≤ ticketsSold lottery)))).

(** A lottery with bands [{1,1,100.00}, {2,3,50.00}], five tickets sold to
    three buyers, past its end. *)
Definition soldLottery : Lottery :=
  mkLottery "Premium Lottery" 100 5 2
    [mkWinnerStructure 1 1 10000; mkWinnerStructure 2 3 5000]
    1000 2000 2060 5 (mkFlags false false true false) "PL".

Definition soldDb : db :=
  mkDb (<[1%nat := newUser "Ada" "ada@example.org"]>
          (<[2%nat := newUser "Bob" "bob@example.org"]>
             (<[3%nat := newUser "Cy" "cy@example.org"]> ∅)))
       []
       {[ 7%nat := soldLottery ]}
       [mkTicketPurchase 7 1 ["PL-0001"; "PL-0002"] 2 100 200;
        mkTicketPurchase 7 2 ["PL-0003"; "PL-0004"] 2 100 200;
        mkTicketPurchase 7 3 ["PL-0005"] 1 100 100]
       [].

(** A sample outcome of the calls of [Math.random()]. *)
Definition alternating : nat → bool := Nat.even.


(** The same database once the lottery is drawn and announced. *)
Definition drawnDb : db :=
  (adminDraw insertionSort alternating 3000 7 soldDb).1.

(** ** Counting the outcomes of the shuffle *)

(** Among the [2 ^ d] equally likely sequences of [d] comparator signs, the
    number of those on which the sort turns [l] into [target].  When [d] is
    at least the height of the plan the sort never looks past the sequence,
    and the probability that the draw works on [target] is
    [ways / 2 ^ d]. *)
Definition ways {A} `{EqDecision A} (engine : sortEngine) (d : nat)
    (l target : list A) : nat :=
  length (filter (λ cs, arraySort engine (asSource cs) l = target)
            (signSequences d)).

(** The shuffle is uniform when each of the [n!] arrangements of the [n]
    tickets has probability [1 / n!]. *)
Definition uniformShuffle (engine : sortEngine) (d : nat)
    (allTickets : list Ticket) : Prop :=
  ∀ target, target ≡ₚ allTickets →
    (ways engine d allTickets target * fact (length allTickets))%nat
    = (2 ^ d)%nat.

Definition threeTickets : list Ticket :=
  [mkTicket "PL-0001" 1 "Ada" "ada@example.org";
   mkTicket "PL-0002" 2 "Bob" "bob@example.org";
   mkTicket "PL-0003" 3 "Cy" "cy@example.org"].

(** The lottery is announced when its document says so. *)
Definition announced (id : lotteryId) (d : db) : Prop :=
  ∃ l, lotteries d !! id = Some l ∧ resultAnnounced (flags l) = true.

(** The results recorded for one lottery. *)
Definition resultsOf (id : lotteryId) (d : db) : list LotteryResult :=
  filter (λ r, r_lotteryId r = id) (results d).

(** ** Histories of the whole core *)

(** What can happen to the database: a run of the scheduled job, a draw forced
    by an administrator, a purchase, a wallet update. *)
Inductive operation :=
| Sweep (belowHalf : lotteryId → nat → bool) (now : Z) (drawNow : lotteryId → Z)
| ForcedDraw (belowHalf : nat → bool) (now : Z) (id : lotteryId)
| Purchase (now : Z) (uid : userId) (idp : idParam) (quantity : Z)
    (chosenTickets : list string)
| WalletUpdate (uid : userId) (amount : jsnum) (description : string).

Definition perform (engine : sortEngine) (d : db) (op : operation) : db :=
  match op with
  | Sweep belowHalf now drawNow => cronTick engine belowHalf now drawNow d
  | ForcedDraw belowHalf now id => (adminDraw engine belowHalf now id d).1
  | Purchase now uid idp quantity chosenTickets =>
    (purchase now uid idp quantity chosenTickets d).1
  | WalletUpdate uid amount description =>
    (updateWalletOwnSession uid amount description d).1
  end.

Definition performAll (engine : sortEngine) (ops : list operation) (d : db)
  : db :=
  foldl (perform engine) d ops.

(** * Further definitions *)

(** ** Ticket numbers, read back *)

(** The string without its leading zeros. *)
Fixpoint dropLeadingZeros (s : string) : string :=
  match s with
  | String "0" rest => dropLeadingZeros rest
  | _ => s
  end.

(** The number space of a lottery: what the loop of the purchase route
    formats, sold or not. *)
Definition ticketSpace (lottery : Lottery) : list string :=
  ticketNum (lotteryPrefix lottery) <$> seq 1 (Z.to_nat (maxTickets lottery)).

(** ** What the lifecycle leaves alone *)

(** Two versions of a lottery document that differ at most in their flags. *)
Definition sameButFlags (l l' : Lottery) : Prop := l' = withFlags (flags l') l.

(** Two states of the database with the same allocations and the same
    lotteries up to their flags. *)
Definition sameSales (d d' : db) : Prop :=
  purchases d' = purchases d
  ∧ ∀ id, option_Forall2 sameButFlags (lotteries d !! id) (lotteries d' !! id).

(** ** Invariants of the allocations *)

(** A purchase that names its tickets names no ticket twice. *)
Definition noRepeats (op : operation) : Prop :=
  match op with
  | Purchase _ _ _ _ chosenTickets => NoDup chosenTickets
  | _ => True
  end.

(** The sales of a lottery are in order: no number sold twice, every number
    sold is one of the number space, and the counter counts them. *)
Definition wellSold (id : lotteryId) (d : db) : Prop :=
  ∃ l, lotteries d !! id = Some l
       ∧ NoDup (soldTicketsOf id d)
       ∧ (∀ t, t ∈ soldTicketsOf id d → t ∈ ticketSpace l)
       ∧ ticketsSold l = Z.of_nat (length (soldTicketsOf id d)).

(** One allocation at most for a buyer in a lottery, none above the cap of
    the lottery. *)
Definition withinCaps (d : db) : Prop :=
  NoDup ((λ p, (p_lotteryId p, p_userId p)) <$> purchases d)
  ∧ ∀ p l, p ∈ purchases d → lotteries d !! p_lotteryId p = Some l →
           p_quantity p ≤ maxTicketsPerUser l.

(** The allocation of a buyer after a purchase: the numbers and the quantity
    added to what the buyer held. *)
Definition extendedPurchase (pl : purchasePlan) (p : TicketPurchase)
  : TicketPurchase :=
  mkTicketPurchase (p_lotteryId p) (p_userId p)
    (ticketNumbers p ++ pl_ticketsToBuy pl) (p_quantity p + pl_qty pl)
    (pl_ticketPrice pl) (orZero (totalPrice p) + pl_totalCost pl).

Definition firstPurchase (uid : userId) (pl : purchasePlan) : TicketPurchase :=
  mkTicketPurchase (pl_id pl) uid (pl_ticketsToBuy pl) (pl_qty pl)
    (pl_ticketPrice pl) (pl_totalCost pl).

(** Every allocation counts the numbers it holds. *)
Definition countedTickets (d : db) : Prop :=
  Forall (λ p, p_quantity p = Z.of_nat (length (ticketNumbers p))) (purchases d).

(** A lottery that costs nothing, open for sale. *)
Definition freeLottery : Lottery :=
  mkLottery "Free Lottery" 0 3 2
    [mkWinnerStructure 1 1 10000]
    1000 2000 2060 0 (mkFlags false true false false) "FL".

Definition freeDb : db :=
  setLotteries (<[8%nat := freeLottery]> (lotteries demoDb)) demoDb.

(** A history of the sample lottery: two purchases, a sweep, a forced draw,
    a late purchase and a wallet update. *)
Definition demoOps : list operation :=
  [Purchase 1500 1 (Uuid 7) 2 [];
   Purchase 1600 2 (Uuid 7) 1 ["PL-0003"];
   Sweep (λ _, alternating) 1700 (λ _, 1700);
   Purchase 1800 2 (Uuid 7) 1 [];
   ForcedDraw alternating 2100 7;
   Purchase 2200 1 (Uuid 7) 1 [];
   WalletUpdate 1 (Num 500) "Bonus"].

(** The sold-out sample lottery, drawn by an administrator. *)
Definition demoDraw : result (list Winner * db) :=
  drawLottery insertionSort alternating 3000 7 true soldDb.

Definition demoWinners : list Winner :=
  match demoDraw with Ok (ws, _) => ws | Threw _ => [] end.

Definition demoDrawn : db :=
  match demoDraw with Ok (_, s') => s' | Threw _ => soldDb end.

(** The same lottery with a second band that pays nothing. *)
Definition zeroPrizeDb : db :=
  setLotteries
    (<[7%nat := mkLottery "Premium Lottery" 100 5 2
                  [mkWinnerStructure 1 1 10000; mkWinnerStructure 2 3 0]
                  1000 2000 2060 5 (mkFlags false false true false) "PL"]>
       (lotteries soldDb)) soldDb.

(** A lottery has at most one result, and only once it is announced. *)
Definition resultsSound (d : db) : Prop :=
  ∀ id, (length (resultsOf id d) ≤ 1)%nat
        ∧ (resultsOf id d ≠ [] → announced id d).

(** Results are only ever appended, and stay sound. *)
Definition resultsGrow (d d' : db) : Prop :=
  (∃ extra, results d' = results d ++ extra)
  ∧ (resultsSound d → resultsSound d').

(** One pass of the three flag updates over a lottery. *)
Definition flagsStep (now : Z) (l : Lottery) : Lottery :=
  markEnded now (markActive now (markUpcoming now l)).

(** The flags that one pass leaves, given which of the three updates the
    clock and the sales call for. *)
Definition flagsAfter (upcomingDue activeDue endedDue : bool) (f : Flags)
  : Flags :=
  let f1 :=
    if negb (isUpcoming f) && negb (isActive f) && negb (isEnded f)
       && upcomingDue
    then mkFlags true (isActive f) (isEnded f) (resultAnnounced f) else f in
  let f2 :=
    if negb (isActive f1) && negb (isEnded f1) && activeDue
    then mkFlags false true (isEnded f1) (resultAnnounced f1) else f1 in
  if negb (isEnded f2) && endedDue
  then mkFlags false false true (resultAnnounced f2) else f2.

(** * The wallet routes: top-up and withdrawal

    [routes/user/userWallet.js] and [routes/admin/adminWallet.js], for a
    request that has passed [authMiddleware]: [uid] and [reviewer] are
    [req.user.id].  These routes run without a session and write no ledger
    entry; what they keep is the collection of [WalletTransactionRecord]
    documents, modelled as a list in insertion order in which the position of
    a document is its [_id].  The dates of a record are left out: nothing
    reads them. *)

Inductive recordType := Topup | Withdraw.
(** The [status] of a record: "pending", "approved" or "rejected". *)
Inductive recordStatus := RecPending | RecApproved | RecRejected.

Global Instance recordType_eq_dec : EqDecision recordType.
Proof. solve_decision. Defined.

Global Instance recordStatus_eq_dec : EqDecision recordStatus.
Proof. solve_decision. Defined.

(** models/WalletTransactionRecord.js *)
Record WalletTransactionRecord := mkWalletTransactionRecord {
  wr_user : userId;
  wr_type : recordType;
  wr_amount : Z;
  wr_description : string;
  wr_referenceNumber : option string;
  wr_status : recordStatus;
  wr_rejectionReason : option string;
  wr_reviewedBy : option userId;
}.

Record store := mkStore {
  st_db : db;
  records : list WalletTransactionRecord;
}.

(** What a route answers: an error status with its message, or 200 with the
    message, the new balance and the id of the record when the body has
    them. *)
Inductive walletReply :=
| Refused (status : Z) (message : string)
| Replied (message : string) (newBalance : option Z)
    (transactionId : option nat).

(** [decimalToFloat(value)]: 0 for a missing value. *)
Definition decimalToFloat (value : option Z) : Z :=
  match value with
  | None => 0
  | Some v => v
  end.

(** The guard [!amount || isNaN(parsedAmount) || parsedAmount <= 0] on
    [parsedAmount = parseFloat(amount)]: the amount, when it passes. *)
Definition positiveAmount (amount : jsnum) : option Z :=
  let parsedAmount := parseFloat amount in
  if jsNot amount || isNaN parsedAmount then None
  else match parsedAmount with
       | Num z => if bool_decide (z ≤ 0) then None else Some z
       | NaN => None
       end.

(** Whether [s.trim()] is the empty string, on a string of ASCII characters:
    [trim] strips tab, line feed, vertical tab, form feed, carriage return
    and space. *)
Fixpoint blank (s : string) : bool :=
  match s with
  | EmptyString => true
  | String c rest => Ascii.is_space c && blank rest
  end.

(** [!s], or [s.trim()] empty, on a field of the body that is a string or
    absent. *)
Definition missingOrBlank (s : option string) : bool :=
  match s with
  | None => true
  | Some s => blank s
  end.

(** [s || dflt] on a field of the body that is a string or absent. *)
Definition orDefault (s : option string) (dflt : string) : string :=
  match s with
  | None => dflt
  | Some s => orString s dflt
  end.

(** [user.walletBalance = Decimal128.fromString(b.toFixed(2)); user.save()] *)
Definition saveBalance (uid : userId) (user : User) (b : Z) (st : store)
  : store :=
  mkStore (setUsers (<[uid := withBalance user b]> (users (st_db st)))
             (st_db st))
          (records st).

(** [WalletTransactionRecord.create(doc)], with the id of the new document. *)
Definition createRecord (doc : WalletTransactionRecord) (st : store)
  : store * nat :=
  (mkStore (st_db st) (records st ++ [doc]), length (records st)).

(** [record.status = ...; record.reviewedBy = ...; record.save()] *)
Definition review (rid : nat) (record : WalletTransactionRecord)
    (status : recordStatus) (reason : option string) (reviewer : userId)
    (st : store) : store :=
  mkStore (st_db st)
    (<[rid := mkWalletTransactionRecord (wr_user record) (wr_type record)
                (wr_amount record) (wr_description record)
                (wr_referenceNumber record) status reason (Some reviewer)]>
       (records st)).

(** GET /wallet/balance *)
Definition walletBalanceRoute (uid : userId) (st : store) : walletReply :=
  match users (st_db st) !! uid with
  | None => Refused 404 "User not found"
  | Some user =>
    Replied EmptyString (Some (decimalToFloat (walletBalance user))) None
  end.

(** POST /wallet/add; [auto] is [process.env.APPROVAL_MODE === "auto"]. *)
Definition walletAdd (auto : bool) (uid : userId) (amount : jsnum)
    (description referenceNumber : option string) (st : store)
  : store * walletReply :=
  match positiveAmount amount with
  | None => (st, Refused 400 "Invalid amount")
  | Some parsedAmount =>
    if missingOrBlank referenceNumber
    then (st, Refused 400 "Reference number is required")
    else
      match users (st_db st) !! uid with
      | None => (st, Refused 404 "User not found")
      | Some user =>
        if auto then
          let currentBalance := decimalToFloat (walletBalance user) in
          let st1 := saveBalance uid user (currentBalance + parsedAmount) st in
          let (st2, rid) :=
            createRecord
              (mkWalletTransactionRecord uid Topup parsedAmount
                 (orDefault description "Wallet top-up") referenceNumber
                 RecApproved None (Some uid)) st1 in
          (st2, Replied "Wallet updated automatically"
                  (Some (currentBalance + parsedAmount)) (Some rid))
        else
          let (st1, rid) :=
            createRecord
              (mkWalletTransactionRecord uid Topup parsedAmount
                 (orDefault description "Wallet top-up") referenceNumber
                 RecPending None None) st in
          (st1, Replied "Top-up request created, pending admin approval"
                  None (Some rid))
      end
  end.

(** POST /wallet/withdraw: in both modes the amount leaves the balance at
    once; the modes differ in the status of the record. *)
Definition walletWithdraw (auto : bool) (uid : userId) (amount : jsnum)
    (description : option string) (st : store) : store * walletReply :=
  match positiveAmount amount with
  | None => (st, Refused 400 "Invalid amount")
  | Some parsedAmount =>
    match users (st_db st) !! uid with
    | None => (st, Refused 404 "User not found")
    | Some user =>
      let balance := decimalToFloat (walletBalance user) in
      if auto then
        if bool_decide (balance < parsedAmount)
        then (st, Refused 400 "Insufficient balance")
        else
          let st1 := saveBalance uid user (balance - parsedAmount) st in
          let (st2, rid) :=
            createRecord
              (mkWalletTransactionRecord uid Withdraw parsedAmount
                 (orDefault description "Wallet withdrawal") None
                 RecApproved None (Some uid)) st1 in
          (st2, Replied "Withdrawal processed automatically"
                  (Some (balance - parsedAmount)) (Some rid))
      else
        if bool_decide (balance < parsedAmount)
        then (st, Refused 400 "Insufficient balance")
        else
          let st1 := saveBalance uid user (balance - parsedAmount) st in
          let (st2, rid) :=
            createRecord
              (mkWalletTransactionRecord uid Withdraw parsedAmount
                 (orDefault description "Wallet withdrawal") None
                 RecPending None None) st1 in
          (st2,
           Replied
             "Withdrawal request created, amount reserved, pending admin approval"
             (Some (balance - parsedAmount)) (Some rid))
    end
  end.

(** POST /wallet/top-up-requests/:id/approve *)
Definition approveTopup (reviewer : userId) (rid : nat) (st : store)
  : store * walletReply :=
  match records st !! rid with
  | None => (st, Refused 404 "Record not found")
  | Some record =>
    if bool_decide (wr_type record ≠ Topup)
    then (st, Refused 400 "Not a top-up record")
    else if bool_decide (wr_status record ≠ RecPending)
    then (st, Refused 400 "Already processed")
    else
      match users (st_db st) !! wr_user record with
      | None => (st, Refused 404 "User not found")
      | Some user =>
        let balance := decimalToFloat (walletBalance user) in
        let amount := wr_amount record in
        let st1 := saveBalance (wr_user record) user (balance + amount) st in
        (review rid record RecApproved (wr_rejectionReason record) reviewer st1,
         Replied "Top-up approved and wallet updated"
           (Some (balance + amount)) None)
      end
  end.

(** POST /wallet/top-up-requests/:id/reject *)
Definition rejectTopup (reviewer : userId) (rid : nat)
    (reason : option string) (st : store) : store * walletReply :=
  match records st !! rid with
  | None => (st, Refused 404 "Record not found")
  | Some record =>
    if bool_decide (wr_type record ≠ Topup)
    then (st, Refused 400 "Not a top-up record")
    else if bool_decide (wr_status record ≠ RecPending)
    then (st, Refused 400 "Already processed")
    else
      (review rid record RecRejected
         (Some (orDefault reason "No reason provided")) reviewer st,
       Replied "Top-up request rejected" None None)
  end.

(** POST /wallet/withdraw-requests/:id/approve: the funds left the balance
    when the request was made. *)
Definition approveWithdraw (reviewer : userId) (rid : nat) (st : store)
  : store * walletReply :=
  match records st !! rid with
  | None => (st, Refused 404 "Record not found")
  | Some record =>
    if bool_decide (wr_type record ≠ Withdraw)
    then (st, Refused 400 "Not a withdrawal record")
    else if bool_decide (wr_status record ≠ RecPending)
    then (st, Refused 400 "Already processed")
    else
      (review rid record RecApproved (wr_rejectionReason record) reviewer st,
       Replied "Withdrawal approved successfully" None None)
  end.

(** POST /wallet/withdraw-requests/:id/reject *)
Definition rejectWithdraw (reviewer : userId) (rid : nat)
    (reason : option string) (st : store) : store * walletReply :=
  if missingOrBlank reason
  then (st, Refused 400 "Rejection reason is required")
  else
    match records st !! rid with
    | None => (st, Refused 404 "Record not found")
    | Some record =>
      if bool_decide (wr_type record ≠ Withdraw)
      then (st, Refused 400 "Not a withdrawal record")
      else if bool_decide (wr_status record ≠ RecPending)
      then (st, Refused 400 "Already processed")
      else
        match users (st_db st) !! wr_user record with
        | None => (st, Refused 404 "User not found")
        | Some user =>
          let balance := decimalToFloat (walletBalance user) in
          let amount := wr_amount record in
          let st1 := saveBalance (wr_user record) user (balance + amount) st in
          (review rid record RecRejected reason reviewer st1,
           Replied "Withdrawal request rejected and funds restored"
             (Some (balance + amount)) None)
        end
    end.

(** The requests of the two routers. *)
Inductive walletRequest :=
| AddFunds (auto : bool) (uid : userId) (amount : jsnum)
    (description referenceNumber : option string)
| WithdrawFunds (auto : bool) (uid : userId) (amount : jsnum)
    (description : option string)
| ApproveTopup (reviewer : userId) (rid : nat)
| RejectTopup (reviewer : userId) (rid : nat) (reason : option string)
| ApproveWithdraw (reviewer : userId) (rid : nat)
| RejectWithdraw (reviewer : userId) (rid : nat) (reason : option string).

Definition serve (req : walletRequest) (st : store) : store * walletReply :=
  match req with
  | AddFunds auto uid amount description referenceNumber =>
    walletAdd auto uid amount description referenceNumber st
  | WithdrawFunds auto uid amount description =>
    walletWithdraw auto uid amount description st
  | ApproveTopup reviewer rid => approveTopup reviewer rid st
  | RejectTopup reviewer rid reason => rejectTopup reviewer rid reason st
  | ApproveWithdraw reviewer rid => approveWithdraw reviewer rid st
  | RejectWithdraw reviewer rid reason => rejectWithdraw reviewer rid reason st
  end.

Definition serveAll (reqs : list walletRequest) (st : store) : store :=
  foldl (λ st req, (serve req st).1) st reqs.

(** The moderation requests, and the record they address. *)
Definition moderated (req : walletRequest) : option nat :=
  match req with
  | ApproveTopup _ rid | RejectTopup _ rid _
  | ApproveWithdraw _ rid | RejectWithdraw _ rid _ => Some rid
  | _ => None
  end.

(** The balance that GET /wallet/balance shows, 0 without an account. *)
Definition held (uid : userId) (st : store) : Z :=
  match users (st_db st) !! uid with
  | None => 0
  | Some user => decimalToFloat (walletBalance user)
  end.

(** What a record says about the balance of [uid]: an approved top-up has
    added its amount, a withdrawal that is not rejected has taken it. *)
Definition recordEffect (uid : userId) (r : WalletTransactionRecord) : Z :=
  if bool_decide (wr_user r = uid) then
    match wr_type r, wr_status r with
    | Topup, RecApproved => wr_amount r
    | Withdraw, (RecPending | RecApproved) => - wr_amount r
    | _, _ => 0
    end
  else 0.

Definition recordsNet (uid : userId) (rs : list WalletTransactionRecord) : Z :=
  sumZ (recordEffect uid <$> rs).

(** Balances are not negative and every record is for a positive amount. *)
Definition solvent (st : store) : Prop :=
  (∀ uid, 0 ≤ held uid st) ∧ Forall (λ r, 0 < wr_amount r) (records st).

Definition demoStore : store := mkStore demoDb [].

Definition demoRequests : list walletRequest :=
  [AddFunds false 1 (Num 5000) None (Some "REF-1");
   WithdrawFunds false 2 (Num 30000) (Some "Rent");
   ApproveTopup 9 0;
   RejectWithdraw 9 1 (Some "No documents");
   WithdrawFunds true 1 (Num 2000000) None;
   ApproveWithdraw 9 1].

(** The record exists and is no longer pending. *)
Definition decided (rid : nat) (st : store) : Prop :=
  ∃ r, records st !! rid = Some r ∧ wr_status r ≠ RecPending.

(** * Pages of tickets *)

(** In this part a Number holds a count, not an amount: [Num n] is the
    integer [n].  The [page] and [limit] that the routes work with are the
    results of [parseInt], an integer or [NaN]. *)



(** [x || dflt] on a Number. *)
Definition jsOr (x : jsnum) (dflt : Z) : jsnum :=
  if jsNot x then Num dflt else x.

(** [Math.ceil(a / n)] for integers with [n] other than 0. *)
Definition ceilDiv (a n : Z) : Z := - ((- a) / n).

(** The relative index of [Array.prototype.slice]: [NaN] counts as 0, a
    negative index counts from the end, and the result is clamped to the
    array. *)
Definition relativeIndex (len : nat) (x : jsnum) : nat :=
  match x with
  | NaN => 0%nat
  | Num n =>
    if bool_decide (n < 0) then Z.to_nat (Z.max (Z.of_nat len + n) 0)
    else Z.to_nat (Z.min n (Z.of_nat len))
  end.

(** [l.slice(start, end)] *)
Definition slice {A} (start stop : jsnum) (l : list A) : list A :=
  let k := relativeIndex (length l) start in
  let final := relativeIndex (length l) stop in
  take (final - k) (drop k l).










(** The body of the 200 reply of
    GET /purchased-lotteries/:ticketId/ticket-numbers. *)
Record ticketNumbersPage := mkTicketNumbersPage {
  tn_ticketId : nat;
  tn_quantity : Z;
  tn_ticketNumbers : list string;
  tn_totalItems : Z;
  tn_totalPages : Z;
  tn_currentPage : Z;
  tn_pageSize : Z;
}.

(** [parseInt(x) || dflt], a Number that is never [NaN] nor 0 when [dflt]
    is not. *)
Definition parsedOr (x : jsnum) (dflt : Z) : Z :=
  match jsOr x dflt with
  | Num n => n
  | NaN => dflt
  end.

(** GET /purchased-lotteries/:ticketId/ticket-numbers for the authenticated
    user [uid]; the [_id] of an allocation is its position in the
    collection, so that [findOne({ _id: ticketId, userId })] is a lookup
    followed by a test of the owner; [page] and [limit] are
    [parseInt(req.query.page)] and [parseInt(req.query.limit)]. *)
Definition ticketNumbersRoute (uid : userId) (ticketId : nat)
    (page limit : jsnum) (d : db) : Z * string + ticketNumbersPage :=
  let page := parsedOr page 1 in
  let limit := parsedOr limit 20 in
  let skip := (page - 1) * limit in
  match purchases d !! ticketId with
  | None => inl (404, "Ticket not found")
  | Some ticket =>
    if bool_decide (p_userId ticket ≠ uid) then inl (404, "Ticket not found")
    else
      let totalItems := Z.of_nat (length (ticketNumbers ticket)) in
      let totalPages := ceilDiv totalItems limit in
      let paginatedTicketNumbers :=
        slice (Num skip) (Num (skip + limit)) (ticketNumbers ticket) in
      inr (mkTicketNumbersPage ticketId (p_quantity ticket)
             paginatedTicketNumbers totalItems totalPages page limit)
  end.

(** models/Lottery.js, the virtuals [numWinners] and [estimatedPrize]. *)
Definition numWinners (l : Lottery) : Z :=
  foldl (λ total w, total + (toRank w - fromRank w + 1)) 0 (winnerStructure l).

Definition estimatedPrize (l : Lottery) : Z :=
  foldl (λ total w,
           let winnersCount := toRank w - fromRank w + 1 in
           total + winnersCount * prizeAmount w)
    0 (winnerStructure l).


(** The lottery [id] is still there with the schedule and the size of
    [lottery], and has sold no fewer tickets. *)
Definition soldAtLeast (id : lotteryId) (lottery : Lottery) (d : db) : Prop :=
  ∃ l, lotteries d !! id = Some l
       ∧ startDatetime l = startDatetime lottery
       ∧ endDatetime l = endDatetime lottery
       ∧ maxTickets l = maxTickets lottery
       ∧ ticketsSold lottery ≤ ticketsSold l.

(** * The arithmetic of the source, bit for bit

    The definitions above count money in whole minor units.  The source
    computes with JS Numbers: a stored amount is read with [parseFloat] or
    [Number], the arithmetic is that of binary64, and the result is written
    back through [toFixed(2)].  The module below embeds that arithmetic
    itself and, over it, the functions that compute with money.  Their
    arguments are the values the source can receive, not only whole amounts:
    a fraction of a minor unit, a balance too large for a double to take a
    minor unit, a string. *)
Module Js.

(** ** binary64 *)

(** Every finite double is a whole multiple of the smallest positive one,
    2^-1074: [Fin n] is the double n * 2^-1074.  [Fin 0] stands for both
    zeros, which no operation used here tells apart. *)
Inductive double :=
| Fin (n : Z)
| Infinity (negative : bool)
| NotANumber.

Global Instance double_eq_dec : EqDecision double.
Proof. solve_decision. Defined.

(** The number one, counted in multiples of 2^-1074. *)
Definition grain : Z := 2 ^ 1074.

(** 2^1024, the first magnitude that is no finite double. *)
Definition ceiling : Z := 2 ^ 2098.

(** The integer nearest to [num / den], the even one of two that are equally
    near; [0 ≤ num] and [0 < den]. *)
Definition nearestEven (num den : Z) : Z :=
  let q := num / den in
  let r := num mod den in
  if 2 * r <? den then q
  else if den <? 2 * r then q + 1
  else if Z.even q then q else q + 1.

(** The double nearest to the rational [num / den] multiples of 2^-1074, for
    [0 < den]: round to nearest, ties to even, 53 significant bits, with
    gradual underflow and overflow to infinity. *)
Definition round (num den : Z) : double :=
  let a := Z.abs num in
  let whole := a / den in
  let bits := if whole =? 0 then 0 else Z.log2 whole + 1 in
  let shift := Z.max 0 (bits - 53) in
  let n := nearestEven a (den * 2 ^ shift) * 2 ^ shift in
  if ceiling <=? n then Infinity (num <? 0) else Fin (Z.sgn num * n).

Definition zero : double := Fin 0.

(** The Number of an integer literal, and of a decimal literal
    [digits / 10^places]: [ofDecimal 5 3] is [0.005]. *)
Definition ofZ (k : Z) : double := round (k * grain) 1.
Definition ofDecimal (digits : Z) (places : nat) : double :=
  round (digits * grain) (10 ^ Z.of_nat places).

(** [parseFloat(d.toString())] and [Number(d.toString())] of a stored
    Decimal128 of [c] minor units. *)
Definition ofCents (c : Z) : double := ofDecimal c 2.

Definition neg (x : double) : double :=
  match x with
  | Fin n => Fin (- n)
  | Infinity s => Infinity (negb s)
  | NotANumber => NotANumber
  end.

(** [Math.abs] *)
Definition abs (x : double) : double :=
  match x with
  | Fin n => Fin (Z.abs n)
  | Infinity _ => Infinity false
  | NotANumber => NotANumber
  end.

(** [x + y] *)
Definition add (x y : double) : double :=
  match x, y with
  | NotANumber, _ | _, NotANumber => NotANumber
  | Infinity s, Infinity t => if Bool.eqb s t then Infinity s else NotANumber
  | Infinity s, Fin _ | Fin _, Infinity s => Infinity s
  | Fin a, Fin b => round (a + b) 1
  end.

(** [x - y] *)
Definition sub (x y : double) : double := add x (neg y).


(** [x < y], [x <= y] and [x >= y]: false as soon as one side is NaN. *)
Definition lt (x y : double) : bool :=
  match x, y with
  | NotANumber, _ | _, NotANumber => false
  | Fin a, Fin b => a <? b
  | Infinity s, Infinity t => s && negb t
  | Infinity s, Fin _ => s
  | Fin _, Infinity t => negb t
  end.

Definition le (x y : double) : bool :=
  match x, y with
  | NotANumber, _ | _, NotANumber => false
  | _, _ => negb (lt y x)
  end.

Definition ge (x y : double) : bool := le y x.

Definition isNaN (x : double) : bool :=
  match x with NotANumber => true | _ => false end.

(** [!x] on a Number: true for zero and NaN. *)
Definition not (x : double) : bool :=
  match x with
  | Fin n => n =? 0
  | Infinity _ => false
  | NotANumber => true
  end.

(** [Number.isInteger] *)
Definition isInteger (x : double) : bool :=
  match x with
  | Fin n => n mod grain =? 0
  | _ => false
  end.

(** The integer that an integral double is; [Math.trunc] otherwise. *)
Definition trunc (x : double) : Z :=
  match x with
  | Fin n => Z.quot n grain
  | _ => 0
  end.

(** [x.toFixed(2)] read as a count of minor units: the integer nearest to
    [100 x], the one of larger magnitude of two equally near.  From 10^21
    on, and for the infinities and NaN, [toFixed] gives no two-place decimal
    ([1e+21], [Infinity], [NaN]): no count of minor units. *)
Definition toFixed2 (x : double) : option Z :=
  match x with
  | Fin n =>
    let a := Z.abs n in
    if 10 ^ 21 * grain <=? a then None
    else Some (Z.sgn n * ((200 * a + grain) / (2 * grain)))
  | _ => None
  end.

(** A stored amount read back as a Number, up to the rounding of the
    arithmetic that made it: [approx k x] when [x] lies within 2^-51 of its
    size from [k] minor units.  [ofCents k] does, and so does the cost
    [price * quantity] of a purchase. *)
Definition approx (k : Z) (x : double) : Prop :=
  match x with
  | Fin n => 2 ^ 51 * Z.abs (100 * n - k * grain) ≤ Z.abs k * grain
  | _ => False
  end.

(** The size up to which the theorems below follow the arithmetic exactly:
    10^14 minor units, a million millions of the currency. *)
Definition cap : Z := 10 ^ 14.

(** ** Values and outcomes *)

(** An argument as JavaScript passes it.  A Number is a double.  Any other
    value (a string, a boolean, an array) is given by the three readings
    that the code takes of it: its truthiness, [Number(v)] (the coercion
    inside [isNaN(v)] and the comparisons) and [parseFloat(v)].  The string
    '0' is [Other true zero zero], the string ' ' is
    [Other true zero NotANumber], the string 'abc' is
    [Other true NotANumber NotANumber], and [true] is
    [Other true (ofZ 1) NotANumber]. *)
Inductive value :=
| Number (x : double)
| Other (truthy : bool) (number : double) (parsed : double).

Definition truthy (v : value) : bool :=
  match v with
  | Number x => negb (not x)
  | Other t _ _ => t
  end.

(** [Number(v)] *)
Definition toNumber (v : value) : double :=
  match v with
  | Number x => x
  | Other _ n _ => n
  end.

(** [parseFloat(v)]: a Number is printed and read back, which gives the
    Number again. *)
Definition parseFloat (v : value) : double :=
  match v with
  | Number x => x
  | Other _ _ p => p
  end.

(** What a run comes to.  [Beyond]: the run writes a balance or an amount
    for which [toFixed(2)] gives no two-place decimal ([1e+21], [Infinity],
    [NaN]); the document it stores is outside the states of this
    development, and the run is followed no further. *)
Inductive outcome (A : Type) :=
| Returned (a : A)
| Thrown (e : error)
| Beyond.
Arguments Returned {A} a.
Arguments Thrown {A} e.
Arguments Beyond {A}.

(** Code that computes with no money (a document saved, a flag set), run
    inside a session of this layer. *)
Definition lift {A} (m : Tx A) : db → outcome (A * db) :=
  λ s, match m s with
       | Ok r => Returned r
       | Threw e => Thrown e
       end.

Definition Tx (A : Type) : Type := db → outcome (A * db).

Definition ret {A} (a : A) : Tx A := λ s, Returned (a, s).
Definition bind {A B} (m : Tx A) (k : A → Tx B) : Tx B :=
  λ s, match m s with
       | Returned (a, s') => k a s'
       | Thrown e => Thrown e
       | Beyond => Beyond
       end.

Notation "'let+' x := m 'in' k" := (bind m (λ x, k))
  (at level 10, x pattern, m at level 100, k at level 200).

(** A run in a transaction of its own: committed when it returns, aborted
    when it throws. *)
Definition inOwnTransaction {A} (body : Tx A) (d : db) : option (db * result A) :=
  match body d with
  | Returned (a, working) => Some (working, Ok a)
  | Thrown e => Some (d, Threw e)
  | Beyond => None
  end.

(** ** services/walletService.js *)

(** [updateWallet(userId, amount, description, session)], statement by
    statement: the guard [!amount || isNaN(amount)], the balance read with
    [parseFloat], the sum of two doubles, the test [newBalance < 0], and the
    three [toFixed(2)] that write the balance, the amount of the ledger
    entry and its [balanceAfter]. *)
Definition updateWallet (uid : userId) (amount : value) (description : string)
  : Tx double := λ s,
  if negb (truthy amount) || isNaN (toNumber amount) then Thrown InvalidAmount
  else
    match users s !! uid with
    | None => Thrown UserNotFound
    | Some user =>
      if bool_decide (u_role user ≠ RoleUser) then Thrown OnlyUsersHaveWallets
      else match walletBalance user with
      | None => Thrown TypeError
      | Some stored =>
        let currentBalance := ofCents stored in
        let change := parseFloat amount in
        let newBalance := add currentBalance change in
        if lt newBalance zero then Thrown InsufficientFunds
        else
          match toFixed2 newBalance, toFixed2 (abs change) with
          | Some written, Some shown =>
            Returned (newBalance,
              setTransactions
                (transactions s ++
                   [mkTransaction uid shown
                      (if ge change zero then Credit else Debit)
                      description written])
                (setUsers (<[uid := withBalance user written]> (users s)) s))
          | _, _ => Beyond
          end
      end
    end.

(** [updateWallet(userId, amount, description)] without a session. *)
Definition updateWalletOwnSession (uid : userId) (amount : value)
    (description : string) : db → option (db * result double) :=
  inOwnTransaction (updateWallet uid amount description).

(** The two directions of the one operation: a debit of [amount] is
    [updateWallet(userId, -amount, ...)]. *)
Definition walletDebit (uid : userId) (amount : double) (description : string)
  : db → option (db * result double) :=
  updateWalletOwnSession uid (Number (neg amount)) description.

Definition walletCredit (uid : userId) (amount : double) (description : string)
  : db → option (db * result double) :=
  updateWalletOwnSession uid (Number amount) description.

(** ** services/drawLotteryService.js *)

(** The inner loop of the winner selection; the prize is credited as
    [Number(ws.prizeAmount.toString())]. *)
Fixpoint groupLoop (n : nat) (lottery : Lottery) (ws : WinnerStructure)
    (shuffled : list Ticket) (st : drawState) : Tx drawState :=
  match n with
  | O => ret st
  | S n' =>
    match shuffled !! currentIndex st with
    | None => ret st
    | Some winnerTicket =>
      let+ _ := updateWallet (tk_userId winnerTicket)
                  (Number (ofCents (prizeAmount ws)))
                  (prizeDescription lottery winnerTicket) in
      groupLoop n' lottery ws shuffled
        (mkDrawState
           (ds_winners st ++ [winnerOf ws (rankCounter st) winnerTicket])
           (S (currentIndex st)) (rankCounter st + 1))
    end
  end.

(** [for (const ws of lottery.winnerStructure)] *)
Fixpoint bandsLoop (wss : list WinnerStructure) (lottery : Lottery)
    (shuffled : list Ticket) (st : drawState) : Tx drawState :=
  match wss with
  | [] => ret st
  | ws :: rest =>
    let+ st' := groupLoop (Z.to_nat (groupSize ws)) lottery ws shuffled st in
    bandsLoop rest lottery shuffled st'
  end.

Definition pickWinners (lottery : Lottery) (shuffled : list Ticket)
  : Tx (list Winner) :=
  let+ st := bandsLoop (winnerStructure lottery) lottery shuffled
               (mkDrawState [] 0 1) in
  ret (ds_winners st).

(** The [try] block of [drawLottery(lotteryId, session, force)]. *)
Definition drawLottery (engine : sortEngine) (belowHalf : nat → bool)
    (now : Z) (id : lotteryId) (force : bool) : Tx (list Winner) := λ s,
  match lotteries s !! id with
  | None => Thrown LotteryNotFound
  | Some lottery =>
    if resultAnnounced (flags lottery) then Thrown ResultAlreadyAnnounced else
    let endedByTime := bool_decide (endDatetime lottery ≤ now) in
    let endedByTickets :=
      isEnded (flags lottery)
      && bool_decide (maxTickets lottery ≤ ticketsSold lottery) in
    let reachedDrawTime := bool_decide (drawDatetime lottery ≤ now) in
    if negb force && negb reachedDrawTime then Thrown DrawTimeNotReached else
    if negb endedByTime && negb endedByTickets && negb force
    then Thrown LotteryNotEnded else
    match collectTickets s (filter (λ p, p_lotteryId p = id) (purchases s)) with
    | Threw e => Thrown e
    | Ok allTickets =>
      if bool_decide (length allTickets = 0%nat) then Thrown NoTicketsSold else
      let shuffled := arraySort engine belowHalf allTickets in
      (let+ winners := pickWinners lottery shuffled in
       let+ _ := lift (saveResult id winners) in
       let+ _ := lift (saveAnnounced id lottery) in
       ret winners) s
    end
  end.

(** [drawLottery(lotteryId)] in a transaction of its own, unforced, and the
    route POST /lottery/:id/draw, forced. *)
Definition drawLotteryOwnSession (engine : sortEngine) (belowHalf : nat → bool)
    (now : Z) (id : lotteryId) : db → option (db * result (list Winner)) :=
  inOwnTransaction (drawLottery engine belowHalf now id false).

Definition adminDraw (engine : sortEngine) (belowHalf : nat → bool)
    (now : Z) (id : lotteryId) : db → option (db * result (list Winner)) :=
  inOwnTransaction (drawLottery engine belowHalf now id true).

(** ** Histories of the wallet *)

Inductive walletEvent :=
| OpenAccount (uid : userId) (name email : string) (r : role)
| UpdateWallet (uid : userId) (amount : value) (description : string).

Definition walletStep (d : db) (ev : walletEvent) : option db :=
  match ev with
  | OpenAccount uid name email r => Some (openAccount uid name email r d)
  | UpdateWallet uid amount description =>
    fst <$> updateWalletOwnSession uid amount description d
  end.

(** The database after a history of account openings and wallet updates,
    as long as what is written are counts of minor units. *)
Definition walletHistory (evs : list walletEvent) : option db :=
  foldl (λ d ev, d ≫= λ d, walletStep d ev) (Some emptyDb) evs.

End Js.

(** ** The two layers side by side *)




(** The state that [updateWallet] writes when it moves [change] minor units
    on the account [user] of balance [balance]. *)
Definition walletWritten (uid : userId) (user : User) (balance change : Z)
    (description : string) (s : db) : db :=
  setTransactions
    (transactions s ++ [ledgerEntry uid change description (balance + change)])
    (setUsers (<[uid := withBalance user (balance + change)]> (users s)) s).


(** ** The draw and the balances *)







(** * The wallet ledger *)

Lemma checkedAmount_Some amount change :
  checkedAmount amount = Some change ↔ amount = Num change ∧ change ≠ 0.
Proof.
  unfold checkedAmount, parseFloat.
  destruct amount as [z|]; simpl.
  - rewrite orb_false_r. case_bool_decide as Hz.
    + split; [done|]. intros [Heq Hne]. injection Heq as ->. done.
    + split; [intros [= ->]; done|]. intros [[= ->] _]. done.
  - split; [done|]. by intros [? _].
Qed.

Lemma checkedAmount_None amount :
  checkedAmount amount = None ↔ amount = Num 0 ∨ isNaN amount = true.
Proof.
  unfold checkedAmount, parseFloat.
  destruct amount as [z|]; simpl.
  - rewrite orb_false_r. case_bool_decide as Hz.
    + split; [intros _; left; by rewrite Hz|done].
    + split; [done|]. intros [[= ->]|?]; done.
  - split; [by right|done].
Qed.

(** What a successful update did, read off the code. *)
Lemma updateWallet_Ok uid amount description s newBalance s' :
  updateWallet uid amount description s = Ok (newBalance, s') →
  ∃ change user currentBalance,
    amount = Num change ∧ change ≠ 0 ∧
    users s !! uid = Some user ∧ u_role user = RoleUser ∧
    walletBalance user = Some currentBalance ∧
    newBalance = currentBalance + change ∧ 0 ≤ newBalance ∧
    s' = setTransactions
           (transactions s ++ [ledgerEntry uid change description newBalance])
           (setUsers (<[uid := withBalance user newBalance]> (users s)) s).
Proof.
  unfold updateWallet. intros H.
  destruct (checkedAmount amount) as [change|] eqn:Hc; [|done].
  apply checkedAmount_Some in Hc as [-> Hne].
  destruct (users s !! uid) as [user|] eqn:Hu; [|done].
  case_bool_decide as Hr; [done|].
  destruct (walletBalance user) as [cur|] eqn:Hb; [|done].
  case_bool_decide as Hn; [done|].
  injection H as <- <-.
  exists change, user, cur. repeat split; try done; try lia.
Qed.

Lemma updateWallet_run uid change description s user currentBalance :
  change ≠ 0 →
  users s !! uid = Some user → u_role user = RoleUser →
  walletBalance user = Some currentBalance →
  updateWallet uid (Num change) description s =
    if bool_decide (currentBalance + change < 0) then Threw InsufficientFunds
    else Ok (currentBalance + change,
             setTransactions
               (transactions s
                ++ [ledgerEntry uid change description (currentBalance + change)])
               (setUsers (<[uid := withBalance user (currentBalance + change)]>
                            (users s)) s)).
Proof.
  intros Hne Hu Hr Hb. unfold updateWallet.
  assert (checkedAmount (Num change) = Some change) as ->
    by by apply checkedAmount_Some.
  rewrite Hu, Hr, Hb.
  by rewrite (bool_decide_eq_false_2 (RoleUser ≠ RoleUser)) by (intros Hx; by apply Hx).
Qed.

Lemma signedAmount_ledgerEntry uid change description newBalance :
  signedAmount (ledgerEntry uid change description newBalance) = change.
Proof.
  unfold signedAmount, ledgerEntry. simpl. case_bool_decide; lia.
Qed.

Lemma ledgerSum_app uid ts1 ts2 :
  ledgerSum uid (ts1 ++ ts2) = ledgerSum uid ts1 + ledgerSum uid ts2.
Proof.
  unfold ledgerSum, entriesOf. rewrite filter_app.
  induction (filter _ ts1) as [|t l IH]; simpl; lia.
Qed.

Lemma ledgerSum_entry uid uid' change description newBalance :
  ledgerSum uid [ledgerEntry uid' change description newBalance] =
  if bool_decide (uid' = uid) then change else 0.
Proof.
  unfold ledgerSum, entriesOf. rewrite filter_cons, filter_nil. simpl.
  case_decide; case_bool_decide; try done; simpl.
  rewrite signedAmount_ledgerEntry. lia.
Qed.




Lemma ledgerInvariant_update uid amount description d :
  ledgerInvariant d →
  ledgerInvariant (updateWalletOwnSession uid amount description d).1.
Proof.
  intros Hinv. unfold updateWalletOwnSession, inOwnTransaction.
  destruct (updateWallet uid amount description d) as [[nb s']|e] eqn:Hrun;
    [|done].
  apply updateWallet_Ok in Hrun
    as (change & user & cur & -> & Hne & Hu & Hr & Hb & -> & Hpos & ->).
  destruct Hinv as [Hnone Hsome]. split; simpl.
  - intros uid' Hl.
    destruct (decide (uid = uid')) as [->|Hneq].
    + by rewrite lookup_insert_eq in Hl.
    + rewrite lookup_insert_ne in Hl by done.
      rewrite ledgerSum_app, ledgerSum_entry, (Hnone _ Hl).
      by rewrite bool_decide_eq_false_2.
  - intros uid' u b Hl Hb'.
    rewrite ledgerSum_app, ledgerSum_entry.
    destruct (decide (uid = uid')) as [->|Hneq].
    + rewrite lookup_insert_eq in Hl. injection Hl as <-.
      simpl in Hb'. injection Hb' as <-.
      rewrite bool_decide_eq_true_2 by done.
      destruct (Hsome _ _ _ Hu Hb) as [_ ->]. lia.
    + rewrite lookup_insert_ne in Hl by done.
      rewrite bool_decide_eq_false_2 by done.
      destruct (Hsome _ _ _ Hl Hb') as [? ->]. lia.
Qed.


Lemma updateWalletOwnSession_Threw uid amount description d d' e :
  updateWalletOwnSession uid amount description d = (d', Threw e) → d' = d.
Proof.
  unfold updateWalletOwnSession, inOwnTransaction.
  destruct (updateWallet uid amount description d) as [[nb s']|e']; congruence.
Qed.

Lemma updateWalletOwnSession_Ok uid amount description d d' newBalance :
  updateWalletOwnSession uid amount description d = (d', Ok newBalance) →
  updateWallet uid amount description d = Ok (newBalance, d').
Proof.
  unfold updateWalletOwnSession, inOwnTransaction.
  destruct (updateWallet uid amount description d) as [[nb s']|e']; congruence.
Qed.



(** * The ticket allocator *)

Lemma orZero_id x : orZero x = x.
Proof. unfold orZero. by case_bool_decide. Qed.

Lemma computedPhase_ACTIVE now lottery :
  computedPhase now lottery = ACTIVE ↔
  startDatetime lottery ≤ now < endDatetime lottery
  ∧ ticketsSold lottery < maxTickets lottery.
Proof.
  unfold computedPhase, computeLotteryFlags. simpl. rewrite orZero_id.
  repeat case_bool_decide; simpl; split; (done || lia).
Qed.

Lemma sells_iff_ACTIVE now lottery :
  negb (cf_isActive (computeLotteryFlags now lottery))
  || cf_isEnded (computeLotteryFlags now lottery) = false
  ↔ computedPhase now lottery = ACTIVE.
Proof.
  unfold computedPhase.
  destruct (cf_isEnded _), (cf_isActive _); simpl; split; done.
Qed.

Lemma planPurchase_inr now uid idp quantity chosen d pl :
  planPurchase now uid idp quantity chosen d = inr pl →
  0 < quantity
  ∧ idp = Uuid (pl_id pl)
  ∧ lotteries d !! pl_id pl = Some (pl_lottery pl)
  ∧ computedPhase now (pl_lottery pl) = ACTIVE
  ∧ pl_qty pl = quantity
  ∧ pl_totalCost pl = ticketPrice (pl_lottery pl) * quantity.
Proof.
  unfold planPurchase. intros H.
  case_bool_decide as Hq; [done|].
  destruct idp as [|id]; [done|].
  destruct (lotteries d !! id) as [lottery|] eqn:Hl; [|done].
  destruct (negb _ || _) eqn:Hsell; [done|].
  apply sells_iff_ACTIVE in Hsell.
  case_bool_decide; [done|].
  match type of H with
  | match ?c with _ => _ end = _ => destruct c as [r|ticketsToBuy]; [done|]
  end.
  simpl in H. injection H as <-. simpl. repeat split; (done || lia).
Qed.

(** C9: the phase computed from the clock is ACTIVE exactly when
    [startAt <= now < endAt] and [ticketsSold < maxTickets]; outside that
    phase (before the start, past the end, or sold out) a purchase is refused
    with "Lottery is not active", and a purchase that succeeds was made in
    it. *)
Theorem purchase_only_in_active_phase now uid id quantity chosen d lottery :
  lotteries d !! id = Some lottery →
  0 < quantity →
  (computedPhase now lottery = ACTIVE ↔
     startDatetime lottery ≤ now < endDatetime lottery
     ∧ ticketsSold lottery < maxTickets lottery)
  ∧ (computedPhase now lottery ≠ ACTIVE →
     purchase now uid (Uuid id) quantity chosen d
       = (d, Rejected LotteryIsNotActive))
  ∧ (∀ d' tickets,
       purchase now uid (Uuid id) quantity chosen d = (d', Purchased tickets) →
       computedPhase now lottery = ACTIVE).
Proof.
  intros Hl Hq. split; [apply computedPhase_ACTIVE|]. split.
  - intros Hna. unfold purchase, planPurchase.
    rewrite bool_decide_eq_false_2 by lia. rewrite Hl.
    destruct (negb _ || _) eqn:Hsell; [done|].
    by apply sells_iff_ACTIVE in Hsell.
  - intros d' tickets. unfold purchase.
    destruct (planPurchase _ _ _ _ _ _) as [r|pl] eqn:Hplan; [done|].
    apply planPurchase_inr in Hplan as (_ & [= ->] & Hl' & Hact & _).
    intros _. rewrite Hl in Hl'. by injection Hl' as ->.
Qed.

Lemma purchase_only_in_active_phase_witness :
  purchase 2000 1 (Uuid 7) 1 [] demoDb = (demoDb, Rejected LotteryIsNotActive)
  ∧ purchase 999 1 (Uuid 7) 1 [] demoDb = (demoDb, Rejected LotteryIsNotActive)
  ∧ (purchase 1000 1 (Uuid 7) 1 [] demoDb).2 = Purchased ["PL-0001"]
  ∧ computedPhase 1000 demoLottery = ACTIVE.
Proof.
  assert (lotteries demoDb !! 7%nat = Some demoLottery) as Hl by reflexivity.
  split; [|split; [|split]].
  - apply (purchase_only_in_active_phase 2000 1 7 1 [] demoDb demoLottery Hl);
      [lia|by vm_compute].
  - apply (purchase_only_in_active_phase 999 1 7 1 [] demoDb demoLottery Hl);
      [lia|by vm_compute].
  - by vm_compute.
  - eapply (purchase_only_in_active_phase 1000 1 7 1 [] demoDb demoLottery Hl);
      [lia|by vm_compute].
Defined.

(** What a purchase that went through has written. *)
Lemma purchase_Purchased now uid idp quantity chosen d d' tickets :
  purchase now uid idp quantity chosen d = (d', Purchased tickets) →
  ∃ pl newBalance s1,
    planPurchase now uid idp quantity chosen d = inr pl
    ∧ tickets = pl_ticketsToBuy pl
    ∧ updateWallet uid (Num (- pl_totalCost pl)) (purchaseDescription pl) d
      = Ok (newBalance, s1)
    ∧ users d' = users s1
    ∧ transactions d' = transactions s1
    ∧ lotteries d'
      = <[pl_id pl := addTicketsSold (pl_qty pl) (pl_lottery pl)]> (lotteries d)
    ∧ results d' = results d.
Proof.
  unfold purchase.
  destruct (planPurchase _ _ _ _ _ _) as [r|pl] eqn:Hplan; [done|].
  unfold payAndAllocate, bind, upsertPurchase, saveTicketsSold, ret. simpl.
  destruct (updateWallet _ _ _ _) as [[nb s1]|e] eqn:Hw; [|done].
  intros [= <- <-]. exists pl, nb, s1. split; [done|]. split; [done|].
  apply updateWallet_Ok in Hw as Hw'.
  destruct Hw' as (? & ? & ? & _ & _ & _ & _ & _ & _ & _ & ->). simpl.
  by rewrite Hw.
Qed.



(** C3, at the input that breaks it: in a lottery of 3 tickets, a purchase of
    quantity 2 that names the ticket PL-0001 twice is accepted, so one
    allocation holds the same number twice; a second buyer then takes the two
    numbers that are left and [ticketsSold] is 4. *)
Theorem duplicate_chosen_tickets_oversell :
  let first := purchase 1500 1 (Uuid 7) 2 ["PL-0001"; "PL-0001"] demoDb in
  let second := purchase 1500 2 (Uuid 7) 2 [] first.1 in
  first.2 = Purchased ["PL-0001"; "PL-0001"]
  ∧ ¬ NoDup (soldTicketsOf 7 first.1)
  ∧ second.2 = Purchased ["PL-0002"; "PL-0003"]
  ∧ (maxTickets <$> lotteries second.1 !! 7%nat) = Some 3
  ∧ (ticketsSold <$> lotteries second.1 !! 7%nat) = Some 4.
Proof.
  simpl. split; [by vm_compute|]. split; [|by vm_compute].
  assert (soldTicketsOf 7
            (purchase 1500 1 (Uuid 7) 2 ["PL-0001"; "PL-0001"] demoDb).1
          = ["PL-0001"; "PL-0001"]) as -> by (by vm_compute).
  intros Hnd. apply NoDup_cons in Hnd as [Hnotin _].
  apply Hnotin. by left.
Qed.

(** * The draw engine *)

Lemma swap_length {A} ij (l : list A) : length (swap ij l) = length l.
Proof.
  unfold swap. destruct (l !! ij.1), (l !! ij.2); by rewrite ?length_insert.
Qed.

Lemma applySwaps_length {A} swaps (l : list A) :
  length (applySwaps swaps l) = length l.
Proof.
  unfold applySwaps. revert l.
  induction swaps as [|ij swaps IH]; intros l; simpl; [done|].
  by rewrite IH, swap_length.
Qed.

Lemma arraySort_length {A} engine belowHalf (l : list A) :
  length (arraySort engine belowHalf l) = length l.
Proof. apply applySwaps_length. Qed.

(** The sort only rearranges: whatever the signs, the result is a
    permutation of the tickets sold. *)
Lemma swap_Permutation {A} ij (l : list A) : swap ij l ≡ₚ l.
Proof.
  unfold swap. destruct ij as [i j]. simpl.
  destruct (l !! i) as [x|] eqn:Hi; [|done].
  destruct (l !! j) as [y|] eqn:Hj; [|done].
  apply lookup_lt_Some in Hi as Hilt. apply lookup_lt_Some in Hj as Hjlt.
  apply Permutation_inj. split; [by rewrite !length_insert|].
  exists (λ k, if decide (k = i) then j else if decide (k = j) then i else k).
  split.
  - intros k1 k2. repeat case_decide; congruence.
  - intros k. destruct (decide (k = j)) as [->|Hkj].
    + rewrite list_lookup_insert_eq by by rewrite length_insert.
      case_decide; congruence.
    + rewrite list_lookup_insert_ne by done.
      destruct (decide (k = i)) as [->|Hki].
      * by rewrite list_lookup_insert_eq.
      * by rewrite list_lookup_insert_ne.
Qed.

Lemma arraySort_Permutation {A} engine belowHalf (l : list A) :
  arraySort engine belowHalf l ≡ₚ l.
Proof.
  unfold arraySort, applySwaps.
  generalize (runPlan (engine (length l)) belowHalf 0) as swaps.
  intros swaps. revert l. induction swaps as [|ij swaps IH]; intros l; [done|].
  simpl. by rewrite IH, swap_Permutation.
Qed.

Lemma zip_app_l {A B} (l1 l2 : list A) (k : list B) :
  zip (l1 ++ l2) k = zip l1 k ++ zip l2 (drop (length l1) k).
Proof.
  revert k. induction l1 as [|x l1 IH]; intros k; simpl; [by rewrite drop_0|].
  destruct k as [|y k]; simpl; [by destruct l2|]. by rewrite IH.
Qed.

Lemma winnersFrom_length slots shuffled ci rc :
  length (winnersFrom slots shuffled ci rc)
  = (length slots `min` (length shuffled - ci))%nat.
Proof.
  unfold winnersFrom. by rewrite length_imap, length_zip, length_drop.
Qed.

Lemma winnersFrom_cons ws slots shuffled ci rc t :
  shuffled !! ci = Some t →
  winnersFrom (ws :: slots) shuffled ci rc
  = winnerOf ws rc t :: winnersFrom slots shuffled (S ci) (rc + 1).
Proof.
  intros Ht. unfold winnersFrom.
  rewrite (drop_S _ _ _ Ht). simpl. f_equal; [f_equal; lia|].
  apply imap_ext. intros i [ws' t'] _. simpl. f_equal. lia.
Qed.

Lemma winnersFrom_out slots shuffled ci rc :
  shuffled !! ci = None → winnersFrom slots shuffled ci rc = [].
Proof.
  intros Ht. unfold winnersFrom.
  rewrite drop_ge by by apply lookup_ge_None.
  by destruct slots.
Qed.

Lemma winnersFrom_app slots1 slots2 shuffled ci rc :
  winnersFrom (slots1 ++ slots2) shuffled ci rc
  = winnersFrom slots1 shuffled ci rc
    ++ winnersFrom slots2 shuffled
         (ci + length (winnersFrom slots1 shuffled ci rc))
         (rc + Z.of_nat (length (winnersFrom slots1 shuffled ci rc))).
Proof.
  rewrite winnersFrom_length. unfold winnersFrom.
  rewrite zip_app_l, imap_app, length_zip, length_drop, drop_drop.
  f_equal.
  assert (length slots1 ≤ length shuffled - ci
          ∨ length shuffled - ci < length slots1)%nat as [Hle|Hlt] by lia.
  - rewrite Nat.min_l by done.
    apply imap_ext. intros i p _. simpl. f_equal. lia.
  - rewrite Nat.min_r by lia.
    rewrite !drop_ge by lia. by destruct slots2.
Qed.


Lemma paidOut_refl s : paidOut s s [].
Proof.
  split; [|done]. exists []. split; [by rewrite app_nil_r|constructor].
Qed.

Lemma paidOut_trans s1 s2 s3 ws1 ws2 :
  paidOut s1 s2 ws1 → paidOut s2 s3 ws2 → paidOut s1 s3 (ws1 ++ ws2).
Proof.
  intros [(e1 & He1 & Hf1) (Hl1 & Hp1 & Hr1)] [(e2 & He2 & Hf2) (Hl2 & Hp2 & Hr2)].
  split; [|repeat split; congruence].
  exists (e1 ++ e2). split; [by rewrite He2, He1, app_assoc|].
  by apply Forall2_app.
Qed.

Lemma paidOut_credit s s' newBalance ws rc lottery t :
  updateWallet (tk_userId t) (Num (prizeAmount ws))
    (prizeDescription lottery t) s = Ok (newBalance, s') →
  paidOut s s' [winnerOf ws rc t].
Proof.
  intros Hw. apply updateWallet_Ok in Hw
    as (change & user & cur & [= <-] & _ & _ & _ & _ & _ & _ & ->).
  split; [|done]. eexists. split; [reflexivity|].
  constructor; [|constructor]. split; [done|]. apply signedAmount_ledgerEntry.
Qed.

Lemma groupLoop_Ok n lottery ws shuffled st s st' s' :
  groupLoop n lottery ws shuffled st s = Ok (st', s') →
  let new := winnersFrom (replicate n ws) shuffled
               (currentIndex st) (rankCounter st) in
  ds_winners st' = ds_winners st ++ new
  ∧ currentIndex st' = (currentIndex st + length new)%nat
  ∧ rankCounter st' = rankCounter st + Z.of_nat (length new)
  ∧ paidOut s s' new.
Proof.
  revert st s. induction n as [|n IH]; intros st s; simpl.
  - intros [= <- <-]. unfold winnersFrom. simpl.
    rewrite app_nil_r. repeat split; (lia || apply paidOut_refl).
  - destruct (shuffled !! currentIndex st) as [t|] eqn:Ht.
    + unfold bind.
      destruct (updateWallet _ _ _ s) as [[nb s1]|e] eqn:Hw; [|done].
      intros Hrest. apply IH in Hrest as (Hw' & Hci & Hrc & Hpaid).
      simpl in *. rewrite (winnersFrom_cons _ _ _ _ _ _ Ht). simpl.
      rewrite Hw', Hci, Hrc, <- app_assoc. simpl.
      split; [done|]. split; [lia|]. split; [lia|].
      apply (paidOut_trans s s1 s' [_]); [|done].
      by eapply paidOut_credit.
    + intros [= <- <-]. rewrite (winnersFrom_out _ _ _ _ Ht). simpl.
      rewrite app_nil_r. repeat split; (lia || apply paidOut_refl).
Qed.

Lemma bandsLoop_Ok wss lottery shuffled st s st' s' :
  bandsLoop wss lottery shuffled st s = Ok (st', s') →
  let new := winnersFrom (bandSlots wss) shuffled
               (currentIndex st) (rankCounter st) in
  ds_winners st' = ds_winners st ++ new
  ∧ currentIndex st' = (currentIndex st + length new)%nat
  ∧ rankCounter st' = rankCounter st + Z.of_nat (length new)
  ∧ paidOut s s' new.
Proof.
  revert st s. induction wss as [|ws wss IH]; intros st s; simpl.
  - intros [= <- <-]. unfold winnersFrom. simpl.
    rewrite app_nil_r. repeat split; (lia || apply paidOut_refl).
  - unfold bind.
    destruct (groupLoop _ _ _ _ _ s) as [[st1 s1]|e] eqn:Hg; [|done].
    apply groupLoop_Ok in Hg as (Hw1 & Hci1 & Hrc1 & Hp1).
    intros Hrest. apply IH in Hrest as (Hw2 & Hci2 & Hrc2 & Hp2).
    unfold bandSlots in *. simpl. fold (bandSlots wss) in *.
    rewrite winnersFrom_app.
    rewrite <- Hci1, <- Hrc1.
    rewrite Hw2, Hw1, Hci2, Hrc2, Hci1, Hrc1, <- app_assoc, length_app.
    rewrite <- Hci1, <- Hrc1.
    split; [done|]. split; [lia|]. split; [lia|].
    by eapply paidOut_trans.
Qed.

Lemma pickWinners_Ok lottery shuffled s ws s' :
  pickWinners lottery shuffled s = Ok (ws, s') →
  ws = assignedWinners (winnerStructure lottery) shuffled ∧ paidOut s s' ws.
Proof.
  unfold pickWinners, bind, ret.
  destruct (bandsLoop _ _ _ _ s) as [[st1 s1]|e] eqn:Hb; [|done].
  intros [= <- <-]. apply bandsLoop_Ok in Hb as (Hw & _ & _ & Hp).
  simpl in *. unfold winnersFrom in *. rewrite drop_0 in *.
  by rewrite Hw.
Qed.

(** No step of the walk can fail for want of tickets: the only thing that
    throws is a wallet that refuses the prize. *)
Lemma credit_total s uid prize description :
  0 < prize → canReceive s uid →
  ∃ newBalance s',
    updateWallet uid (Num prize) description s = Ok (newBalance, s')
    ∧ ∀ uid', canReceive s uid' → canReceive s' uid'.
Proof.
  intros Hpos (u & b & Hu & Hr & Hb & Hb0).
  rewrite (updateWallet_run uid prize description s u b) by (done || lia).
  rewrite bool_decide_eq_false_2 by lia.
  eexists _, _. split; [reflexivity|].
  intros uid' (u' & b' & Hu' & Hr' & Hb' & Hb0'). unfold canReceive. simpl.
  destruct (decide (uid = uid')) as [<-|Hne].
  - rewrite lookup_insert_eq. eexists _, _. repeat split; [done|lia].
  - rewrite lookup_insert_ne by done. by eexists _, _.
Qed.

Lemma groupLoop_total n lottery ws shuffled st s :
  0 < prizeAmount ws →
  (∀ t, t ∈ shuffled → canReceive s (tk_userId t)) →
  ∃ st' s',
    groupLoop n lottery ws shuffled st s = Ok (st', s')
    ∧ ∀ t, t ∈ shuffled → canReceive s' (tk_userId t).
Proof.
  intros Hpos. revert st s. induction n as [|n IH]; intros st s Hcan; simpl.
  - by eexists _, _.
  - destruct (shuffled !! currentIndex st) as [t|] eqn:Ht; [|by eexists _, _].
    unfold bind.
    destruct (credit_total s (tk_userId t) (prizeAmount ws)
                (prizeDescription lottery t) Hpos) as (nb & s1 & -> & Hkeep).
    { apply Hcan. by eapply list_elem_of_lookup_2. }
    apply IH. intros t' Ht'. by apply Hkeep, Hcan.
Qed.

Lemma bandsLoop_total wss lottery shuffled st s :
  Forall (λ ws, 0 < prizeAmount ws) wss →
  (∀ t, t ∈ shuffled → canReceive s (tk_userId t)) →
  ∃ st' s', bandsLoop wss lottery shuffled st s = Ok (st', s').
Proof.
  intros Hpos. revert st s.
  induction Hpos as [|ws wss Hws _ IH]; intros st s Hcan; simpl.
  - by eexists _, _.
  - unfold bind.
    destruct (groupLoop_total (Z.to_nat (groupSize ws)) lottery ws shuffled
                st s Hws Hcan) as (st1 & s1 & -> & Hcan1).
    by apply IH.
Qed.

Lemma elem_of_applySwaps {A} swaps (l : list A) x :
  x ∈ applySwaps swaps l → x ∈ l.
Proof.
  unfold applySwaps. revert l.
  induction swaps as [|ij swaps IH]; intros l; simpl; [done|].
  intros Hx. apply IH in Hx. unfold swap in Hx.
  destruct (l !! ij.1) as [a|] eqn:Ha; [|done].
  destruct (l !! ij.2) as [b|] eqn:Hb; [|done].
  apply list_elem_of_lookup in Hx as [k Hk].
  destruct (decide (k = ij.2)) as [->|Hk2].
  { rewrite list_lookup_insert_eq in Hk.
    - injection Hk as <-. by eapply list_elem_of_lookup_2.
    - rewrite length_insert. by eapply lookup_lt_Some. }
  rewrite list_lookup_insert_ne in Hk by done.
  destruct (decide (k = ij.1)) as [->|Hk1].
  { rewrite list_lookup_insert_eq in Hk by by eapply lookup_lt_Some.
    injection Hk as <-. by eapply list_elem_of_lookup_2. }
  rewrite list_lookup_insert_ne in Hk by done.
  by eapply list_elem_of_lookup_2.
Qed.

(** What a draw that returned has done. *)
Lemma drawLottery_Ok engine belowHalf now id force s ws s' :
  drawLottery engine belowHalf now id force s = Ok (ws, s') →
  ∃ lottery allTickets s1,
    lotteries s !! id = Some lottery
    ∧ drawAllowed now force lottery
    ∧ collectTickets s (filter (λ p, p_lotteryId p = id) (purchases s))
      = Ok allTickets
    ∧ allTickets ≠ []
    ∧ pickWinners lottery (arraySort engine belowHalf allTickets) s
      = Ok (ws, s1)
    ∧ s' = setLotteries (<[id := setResultAnnounced lottery]> (lotteries s1))
             (setResults (results s1 ++ [mkLotteryResult id ws]) s1).
Proof.
  unfold drawLottery. intros H.
  destruct (lotteries s !! id) as [lottery|] eqn:Hl; [|done].
  destruct (resultAnnounced (flags lottery)) eqn:Hann; [done|].
  destruct (negb force && _) eqn:Htime; [done|].
  destruct (negb _ && _ && negb force) eqn:Hend; [done|].
  destruct (collectTickets _ _) as [allTickets|e] eqn:Hc; [|done].
  case_bool_decide as Hlen; [done|].
  unfold bind, saveResult, saveAnnounced, ret in H.
  destruct (pickWinners _ _ s) as [[ws1 s1]|e] eqn:Hp; [|done].
  injection H as <- <-.
  exists lottery, allTickets, s1. repeat split; try done.
  - destruct force; [by left|right]. simpl in Htime, Hend.
    rewrite andb_true_r in Hend.
    apply negb_false_iff, bool_decide_eq_true in Htime.
    split; [done|].
    apply andb_false_iff in Hend as [Hend|Hend].
    + left. by apply negb_false_iff, bool_decide_eq_true in Hend.
    + right.
      by apply negb_false_iff, andb_true_iff in Hend
        as [? ?%bool_decide_eq_true].
  - intros ->. by apply Hlen.
Qed.

Lemma drawLottery_total engine belowHalf now id force s lottery allTickets :
  lotteries s !! id = Some lottery →
  drawAllowed now force lottery →
  collectTickets s (filter (λ p, p_lotteryId p = id) (purchases s))
    = Ok allTickets →
  allTickets ≠ [] →
  Forall (λ ws, 0 < prizeAmount ws) (winnerStructure lottery) →
  (∀ t, t ∈ allTickets → canReceive s (tk_userId t)) →
  ∃ ws s', drawLottery engine belowHalf now id force s = Ok (ws, s').
Proof.
  intros Hl [Hann Hready] Hc Hne Hpos Hcan. unfold drawLottery.
  rewrite Hl, Hann, Hc.
  assert (negb force && negb (bool_decide (drawDatetime lottery ≤ now)) = false)
    as ->.
  { destruct force; [done|]. destruct Hready as [|[? _]]; [done|].
    by rewrite bool_decide_eq_true_2. }
  assert (negb (bool_decide (endDatetime lottery ≤ now))
          && negb (isEnded (flags lottery)
                   && bool_decide (maxTickets lottery ≤ ticketsSold lottery))
          && negb force = false) as ->.
  { destruct force; [by rewrite andb_false_r|].
    destruct Hready as [|[_ [?|[-> ?]]]]; [done| |].
    - by rewrite bool_decide_eq_true_2.
    - rewrite (bool_decide_eq_true_2 (maxTickets _ ≤ _)) by done.
      by rewrite andb_false_r. }
  rewrite bool_decide_eq_false_2 by by destruct allTickets.
  unfold bind, pickWinners, saveResult, saveAnnounced, ret. cbv beta. unfold bind.
  destruct (bandsLoop_total (winnerStructure lottery) lottery
              (arraySort engine belowHalf allTickets) (mkDrawState [] 0 1) s
              Hpos) as (st' & s' & ->); [|by eexists _, _].
  intros t Ht. apply Hcan. by eapply elem_of_applySwaps.
Qed.



Lemma markUpcoming_announced now l :
  resultAnnounced (flags (markUpcoming now l)) = resultAnnounced (flags l).
Proof. unfold markUpcoming. simpl. by case_match. Qed.

Lemma markActive_announced now l :
  resultAnnounced (flags (markActive now l)) = resultAnnounced (flags l).
Proof. unfold markActive. simpl. by case_match. Qed.

Lemma markEnded_announced now l :
  resultAnnounced (flags (markEnded now l)) = resultAnnounced (flags l).
Proof. unfold markEnded. simpl. by case_match. Qed.

(** Step 4 of the scheduled job never selects a lottery whose result is
    announced. *)
Lemma lotteriesToDraw_skips_announced now d id lottery :
  lotteries d !! id = Some lottery →
  resultAnnounced (flags lottery) = true →
  ∀ e, e ∈ lotteriesToDraw now (sweepFlags now d) → e.1 ≠ id.
Proof.
  intros Hl Hann [id' l'] Hin. simpl. intros ->.
  unfold lotteriesToDraw in Hin. apply list_elem_of_filter in Hin as [Hdue Hin].
  apply elem_of_map_to_list in Hin. simpl in Hin, Hdue.
  unfold sweepFlags, updateMany in Hin. simpl in Hin.
  rewrite !lookup_fmap, Hl in Hin. simpl in Hin. injection Hin as <-.
  unfold dueForDraw in Hdue.
  by rewrite markEnded_announced, markActive_announced,
    markUpcoming_announced, Hann in Hdue.
Qed.

(** C6: once the result of a lottery is announced, a draw of it, run by the
    scheduled job or forced by an administrator, throws "Result already
    announced" and the transaction is dropped: no ledger entry, no result, no
    change at all; and the scheduled job does not select the lottery. *)
Theorem draw_already_announced engine belowHalf now id force d lottery :
  lotteries d !! id = Some lottery →
  resultAnnounced (flags lottery) = true →
  drawLottery engine belowHalf now id force d = Threw ResultAlreadyAnnounced
  ∧ drawLotteryOwnSession engine belowHalf now id d
    = (d, Threw ResultAlreadyAnnounced)
  ∧ adminDraw engine belowHalf now id d = (d, Threw ResultAlreadyAnnounced)
  ∧ (∀ e, e ∈ lotteriesToDraw now (sweepFlags now d) → e.1 ≠ id).
Proof.
  intros Hl Hann.
  assert (∀ f, drawLottery engine belowHalf now id f d
               = Threw ResultAlreadyAnnounced) as Hthrow.
  { intros f. unfold drawLottery. by rewrite Hl, Hann. }
  split; [apply Hthrow|].
  unfold drawLotteryOwnSession, adminDraw, inOwnTransaction.
  rewrite !Hthrow. split; [done|]. split; [done|].
  by eapply lotteriesToDraw_skips_announced.
Qed.

Lemma draw_already_announced_witness :
  adminDraw insertionSort alternating 4000 7 drawnDb
  = (drawnDb, Threw ResultAlreadyAnnounced)
  ∧ drawLotteryOwnSession insertionSort alternating 4000 7 drawnDb
    = (drawnDb, Threw ResultAlreadyAnnounced)
  ∧ length (results drawnDb) = 1%nat.
Proof.
  assert (∃ l, lotteries drawnDb !! 7%nat = Some l
               ∧ resultAnnounced (flags l) = true) as (l & Hl & Hann)
    by (eexists; split; [vm_compute; reflexivity|reflexivity]).
  destruct (draw_already_announced insertionSort alternating 4000 7 true
              drawnDb l Hl Hann) as (_ & Hown & Hadmin & _).
  split; [exact Hadmin|]. split; [exact Hown|]. by vm_compute.
Defined.

(** * The shuffle of the draw *)

Lemma signSequences_length d : length (signSequences d) = (2 ^ d)%nat.
Proof.
  induction d as [|d IH]; [done|].
  simpl. rewrite length_app, !length_fmap, IH. lia.
Qed.

(** The sort reads no more signs than its plan is high. *)
Lemma runPlan_agree p src1 src2 k :
  (∀ i, (k ≤ i < k + planHeight p)%nat → src1 i = src2 i) →
  runPlan p src1 k = runPlan p src2 k.
Proof.
  revert k. induction p as [swaps|a IHa b IHb]; intros k Hagree; [done|].
  simpl in *. rewrite <- (Hagree k) by lia.
  destruct (src1 k); [apply IHa|apply IHb]; intros i Hi; apply Hagree; lia.
Qed.

Lemma arraySort_decided {A} engine d (cs : list bool) src (l : list A) :
  (planHeight (engine (length l)) ≤ d)%nat →
  (∀ i, (i < d)%nat → src i = asSource cs i) →
  arraySort engine src l = arraySort engine (asSource cs) l.
Proof.
  intros Hh Hagree. unfold arraySort. f_equal.
  apply runPlan_agree. intros i Hi. apply Hagree. lia.
Qed.

Lemma fact_multiple_of_3 n : (3 ≤ n)%nat → ∃ k, fact n = (3 * k)%nat.
Proof.
  induction 1 as [|m _ [k Hk]]; [by exists 2%nat|].
  exists (S m * k)%nat. simpl fact. rewrite Hk. lia.
Qed.

Lemma pow2_not_multiple_of_3 d k : (2 ^ d)%nat ≠ (3 * k)%nat.
Proof.
  revert k. induction d as [|d IH]; intros k; [simpl; lia|].
  rewrite Nat.pow_succ_r'. intros Heq.
  apply (IH (k / 2)%nat).
  pose proof (Nat.div_mod_eq k 2) as Hdiv.
  pose proof (Nat.mod_upper_bound k 2) as Hmod.
  generalize dependent (2 ^ d)%nat. intros x _ Heq. lia.
Qed.

(** With two tickets and insertion sort the shuffle is uniform: one
    comparison, one sign, each order for one of the two signs. *)
Lemma two_tickets_uniform t1 t2 :
  t1 ≠ t2 → uniformShuffle insertionSort 1 [t1; t2].
Proof.
  intros Hne target Hperm.
  symmetry in Hperm.
  assert (target = [t1; t2] ∨ target = [t2; t1]) as [->| ->].
  { apply Permutation_length in Hperm as Hlen.
    destruct target as [|a [|b [|c rest]]]; try done.
    apply Permutation_length_2 in Hperm as [[<- <-]|[<- <-]];
      [by left|by right]. }
  - unfold ways. simpl. unfold arraySort. simpl.
    rewrite !filter_cons, filter_nil. simpl.
    rewrite decide_True by done.
    rewrite decide_False by (intros [= ? ?]; done). done.
  - unfold ways. simpl. unfold arraySort. simpl.
    rewrite !filter_cons, filter_nil. simpl.
    rewrite decide_False by (intros [= ? ?]; done).
    rewrite decide_True by done. done.
Qed.

(** C1, on the code: the shuffle is [allTickets.sort(() => Math.random() -
    0.5)].  Whatever the sort of the runtime, once three tickets or more are
    sold no arrangement of them comes out with probability [1 / n!]: of the
    [2 ^ d] equally likely sign sequences the number that leads to it, times
    [n!], is never [2 ^ d].  The permutation is not uniform. *)
Theorem comparator_shuffle_not_uniform (engine : sortEngine) (d : nat)
    (allTickets : list Ticket) :
  (3 ≤ length allTickets)%nat →
  ¬ uniformShuffle engine d allTickets.
Proof.
  intros Hthree Huniform.
  specialize (Huniform allTickets (reflexivity _)).
  destruct (fact_multiple_of_3 _ Hthree) as [k Hk].
  apply (pow2_not_multiple_of_3 d (ways engine d allTickets allTickets * k)).
  rewrite <- Huniform, Hk. lia.
Qed.

(** With insertion sort and three tickets, 2 of the 8 sign sequences leave
    the tickets in the order they were sold and 1 reverses them: the
    probabilities are 1/4 and 1/8, where a uniform shuffle has 1/6. *)
Lemma comparator_shuffle_not_uniform_witness :
  ¬ uniformShuffle insertionSort 3 threeTickets
  ∧ planHeight (insertionSort 3%nat) = 3%nat
  ∧ ways insertionSort 3%nat threeTickets threeTickets = 2%nat
  ∧ ways insertionSort 3%nat threeTickets (reverse threeTickets) = 1%nat.
Proof.
  split; [|by vm_compute].
  apply (comparator_shuffle_not_uniform insertionSort 3%nat threeTickets).
  simpl. lia.
Defined.

(** * The lifecycle sweep *)

Lemma announced_updateMany f id d :
  (∀ l, resultAnnounced (flags (f l)) = resultAnnounced (flags l)) →
  announced id d → announced id (updateMany f d).
Proof.
  intros Hf (l & Hl & Hann). exists (f l). simpl.
  by rewrite lookup_fmap, Hl, Hf.
Qed.

Lemma announced_sweepFlags now id d :
  announced id d → announced id (sweepFlags now d).
Proof.
  intros H. unfold sweepFlags.
  apply announced_updateMany; [apply markEnded_announced|].
  apply announced_updateMany; [apply markActive_announced|].
  by apply announced_updateMany; [apply markUpcoming_announced|].
Qed.

Lemma announced_announce id id' d :
  announced id d → announced id (announce id' d).
Proof.
  intros (l & Hl & Hann). unfold announced, announce. simpl.
  destruct (decide (id' = id)) as [->|Hne].
  - rewrite lookup_alter_eq, Hl. simpl. eauto.
  - rewrite lookup_alter_ne by done. eauto.
Qed.

Lemma announce_announces id d :
  is_Some (lotteries d !! id) → announced id (announce id d).
Proof.
  intros [l Hl]. exists (setResultAnnounced l). simpl.
  by rewrite lookup_alter_eq, Hl.
Qed.

Lemma announced_insert id id' l' d ls :
  ls = <[id' := l']> (lotteries d) →
  (lotteries d !! id' = Some l' ∨ resultAnnounced (flags l') = true
   ∨ ∃ l, lotteries d !! id' = Some l ∧ flags l' = flags l) →
  announced id d → ∃ l, ls !! id = Some l ∧ resultAnnounced (flags l) = true.
Proof.
  intros -> Hl' (l & Hl & Hann).
  destruct (decide (id' = id)) as [->|Hne].
  - rewrite lookup_insert_eq. exists l'. split; [done|].
    destruct Hl' as [Hsame|[?|(l0 & Hl0 & Hflags)]]; [congruence|done|].
    rewrite Hflags. congruence.
  - rewrite lookup_insert_ne by done. eauto.
Qed.

Lemma announced_drawLottery engine belowHalf now id' force s ws s' id :
  drawLottery engine belowHalf now id' force s = Ok (ws, s') →
  announced id s → announced id s'.
Proof.
  intros Hdraw Hann.
  apply drawLottery_Ok in Hdraw
    as (lottery & all & s1 & Hl & _ & _ & _ & Hpick & ->).
  apply pickWinners_Ok in Hpick as [_ (_ & Hlot & _ & _)].
  unfold announced. simpl.
  eapply (announced_insert id id' (setResultAnnounced lottery) s);
    [by rewrite Hlot|by right; left|done].
Qed.

Lemma announced_inOwnTransaction {A} (body : Tx A) id d :
  (∀ a working, body d = Ok (a, working) → announced id working) →
  announced id d → announced id (inOwnTransaction body d).1.
Proof.
  intros Hbody Hann. unfold inOwnTransaction.
  destruct (body d) as [[a working]|e] eqn:Hrun; simpl; eauto.
Qed.

Lemma announced_sweepLottery engine belowHalf drawNow d e id :
  announced id d → announced id (sweepLottery engine belowHalf drawNow d e).
Proof.
  intros Hann. destruct e as [id' lottery]. unfold sweepLottery.
  case_bool_decide; [by apply announced_announce|].
  pose proof (announced_inOwnTransaction
                (drawLottery engine (belowHalf id') (drawNow id') id' false)
                id d) as Hown.
  unfold drawLotteryOwnSession.
  destruct (inOwnTransaction _ d) as [d' [ws|err]]; simpl in Hown.
  - apply announced_announce, Hown; [|done].
    intros a working Hrun. by eapply announced_drawLottery.
  - apply Hown; [|done].
    intros a working Hrun. by eapply announced_drawLottery.
Qed.

Lemma announced_foldl_sweep engine belowHalf drawNow es d id :
  announced id d →
  announced id (foldl (sweepLottery engine belowHalf drawNow) d es).
Proof.
  revert d. induction es as [|e es IH]; intros d Hann; [done|].
  simpl. by apply IH, announced_sweepLottery.
Qed.

Lemma announced_cronTick engine belowHalf now drawNow d id :
  announced id d → announced id (cronTick engine belowHalf now drawNow d).
Proof.
  intros Hann. unfold cronTick.
  by apply announced_foldl_sweep, announced_sweepFlags.
Qed.

Lemma announced_purchase now uid idp quantity chosen d id :
  announced id d → announced id (purchase now uid idp quantity chosen d).1.
Proof.
  intros Hann.
  destruct (purchase now uid idp quantity chosen d) as [d' out] eqn:Hp.
  destruct out as [r|e|tickets]; simpl.
  - unfold purchase in Hp. destruct (planPurchase _ _ _ _ _ _); [|].
    + by injection Hp as <- _.
    + destruct (payAndAllocate _ _ _) as [[? ?]|?]; by injection Hp.
  - unfold purchase in Hp. destruct (planPurchase _ _ _ _ _ _); [done|].
    destruct (payAndAllocate _ _ _) as [[? ?]|?]; [done|].
    by injection Hp as <- _.
  - apply purchase_Purchased in Hp
      as (pl & nb & s1 & Hplan & _ & _ & _ & _ & Hlot & _).
    apply planPurchase_inr in Hplan as (_ & _ & Hl & _).
    unfold announced.
    eapply (announced_insert id (pl_id pl) _ d); [exact Hlot| |done].
    right; right. by exists (pl_lottery pl).
Qed.

Lemma announced_updateWallet uid amount description d id :
  announced id d →
  announced id (updateWalletOwnSession uid amount description d).1.
Proof.
  intros Hann. apply announced_inOwnTransaction; [|done].
  intros nb working Hrun. apply updateWallet_Ok in Hrun
    as (? & ? & ? & _ & _ & _ & _ & _ & _ & _ & ->).
  done.
Qed.

(** What one turn of the loop of step 4 leaves alone. *)
Lemma sweepLottery_keeps engine belowHalf drawNow d e id :
  is_Some (lotteries d !! id) →
  (e.1 = id → ticketsSold e.2 = 0) →
  is_Some (lotteries (sweepLottery engine belowHalf drawNow d e) !! id)
  ∧ resultsOf id (sweepLottery engine belowHalf drawNow d e) = resultsOf id d
  ∧ (e.1 = id → announced id (sweepLottery engine belowHalf drawNow d e)).
Proof.
  intros Hsome Hzero. destruct e as [id' lottery]. simpl in Hzero.
  assert (∀ d0, is_Some (lotteries d0 !! id) →
                is_Some (lotteries (announce id' d0) !! id)) as Hkeep.
  { intros d0 H0. simpl. by apply lookup_alter_is_Some. }
  unfold sweepLottery. case_bool_decide as Hsold.
  - split; [by apply Hkeep|]. split; [done|].
    simpl. intros ->. by apply announce_announces.
  - assert (id' ≠ id) as Hne by (intros ->; by apply Hsold, Hzero).
    unfold drawLotteryOwnSession, inOwnTransaction.
    destruct (drawLottery _ _ _ _ _ d) as [[ws s']|err] eqn:Hdraw; simpl.
    + apply drawLottery_Ok in Hdraw
        as (l0 & all & s1 & Hl & _ & _ & _ & Hpick & ->).
      apply pickWinners_Ok in Hpick as [_ (_ & Hlot & _ & Hres)].
      split; [|split; [|done]].
      * apply lookup_alter_is_Some. simpl.
        rewrite lookup_insert_ne by done. by rewrite Hlot.
      * unfold resultsOf. simpl. rewrite filter_app, Hres.
        rewrite filter_cons, filter_nil. simpl.
        rewrite decide_False by done. by rewrite app_nil_r.
    + done.
Qed.

Lemma foldl_sweep_keeps engine belowHalf drawNow es d id :
  is_Some (lotteries d !! id) →
  (∀ e, e ∈ es → e.1 = id → ticketsSold e.2 = 0) →
  resultsOf id (foldl (sweepLottery engine belowHalf drawNow) d es)
  = resultsOf id d
  ∧ ((∃ e, e ∈ es ∧ e.1 = id) →
     announced id (foldl (sweepLottery engine belowHalf drawNow) d es)).
Proof.
  revert d. induction es as [|e es IH]; intros d Hsome Hzero; simpl.
  - split; [done|]. intros (e & He & _). by apply elem_of_nil in He.
  - destruct (sweepLottery_keeps engine belowHalf drawNow d e id Hsome)
      as (Hsome' & Hres & Hann); [apply Hzero; by left|].
    destruct (IH _ Hsome') as [Hres' Hann'].
    { intros e' He'. apply Hzero. by right. }
    split; [by rewrite Hres'|].
    intros (e' & He' & Hid). apply elem_of_cons in He' as [->|He'].
    + by apply announced_foldl_sweep, Hann.
    + apply Hann'. eauto.
Qed.

(** After steps 1 to 3, a lottery past its end and its draw time, not yet
    announced, is selected by step 4 as it stands in the database. *)
Lemma due_after_sweepFlags now d id lottery :
  lotteries d !! id = Some lottery →
  resultAnnounced (flags lottery) = false →
  endDatetime lottery ≤ now → drawDatetime lottery ≤ now →
  ∃ l3, lotteries (sweepFlags now d) !! id = Some l3
        ∧ ticketsSold l3 = ticketsSold lottery
        ∧ (id, l3) ∈ lotteriesToDraw now (sweepFlags now d).
Proof.
  intros Hl Hann Hend Hdraw.
  exists (markEnded now (markActive now (markUpcoming now lottery))).
  assert (lotteries (sweepFlags now d) !! id
          = Some (markEnded now (markActive now (markUpcoming now lottery))))
    as Hl3.
  { unfold sweepFlags, updateMany. simpl. by rewrite !lookup_fmap, Hl. }
  split; [done|]. split.
  - unfold markEnded, markActive, markUpcoming. simpl.
    repeat (case_match; simpl); done.
  - unfold lotteriesToDraw. apply list_elem_of_filter. split.
    + simpl. unfold dueForDraw.
      rewrite markEnded_announced, markActive_announced,
        markUpcoming_announced, Hann. simpl.
      rewrite andb_true_iff, bool_decide_eq_true. split; [|
        unfold markEnded, markActive, markUpcoming; simpl;
        repeat (case_match; simpl); done].
      unfold markEnded. simpl.
      destruct (isEnded (flags (markActive now (markUpcoming now lottery))))
        eqn:He; simpl; [by rewrite He|].
      by rewrite (bool_decide_eq_true_2 (endDatetime _ ≤ now))
        by (unfold markActive, markUpcoming; simpl;
            repeat (case_match; simpl); done).
    + by apply elem_of_map_to_list.
Qed.

Lemma announced_performAll engine ops d id :
  announced id d → announced id (performAll engine ops d).
Proof.
  unfold performAll. revert d.
  induction ops as [|op ops IH]; intros d Hann; [done|].
  simpl. apply IH. destruct op; simpl.
  - by apply announced_cronTick.
  - apply announced_inOwnTransaction; [|done].
    intros ws working Hdraw. by eapply announced_drawLottery.
  - by apply announced_purchase.
  - by apply announced_updateWallet.
Qed.


(** * Ticket numbers *)

Lemma replicate_string_zeros n s :
  dropLeadingZeros (replicate_string n "0" +:+ s) = dropLeadingZeros s.
Proof. induction n as [|n IH]; [done|]. simpl. exact IH. Qed.

Lemma dropLeadingZeros_id c rest :
  c ≠ "0"%char → dropLeadingZeros (String c rest) = String c rest.
Proof.
  intros Hc. simpl.
  destruct c as [[] [] [] [] [] [] [] []]; try done.
Qed.

Lemma string_app_inv_head (p s1 s2 : string) :
  p +:+ s1 = p +:+ s2 → s1 = s2.
Proof. induction p as [|c p IH]; simpl; [done|]. intros [= H]. by apply IH. Qed.

(** A positive number is printed without a leading zero. *)
Lemma pretty_N_go_nonzero (x : N) s :
  (0 < x)%N → ∃ c rest, pretty_N_go x s = String c rest ∧ c ≠ "0"%char.
Proof.
  revert s. induction (N.lt_wf_0 x) as [x _ IH]. intros s Hx.
  rewrite pretty_N_go_step by done.
  destruct (decide (x < 10)%N) as [Hsmall|Hbig].
  - rewrite N.div_small, pretty_N_go_0 by done.
    rewrite N.mod_small by done.
    eexists _, _. split; [done|].
    assert (x = 1 ∨ x = 2 ∨ x = 3 ∨ x = 4 ∨ x = 5 ∨ x = 6 ∨ x = 7 ∨ x = 8
            ∨ x = 9)%N as Hcases by lia.
    destruct Hcases as [->|[->|[->|[->|[->|[->|[->|[->| ->]]]]]]]]; done.
  - apply IH.
    + apply N.div_lt; lia.
    + apply N.div_str_pos. lia.
Qed.

Lemma pretty_nat_nonzero (i : nat) :
  (0 < i)%nat → ∃ c rest, pretty i = String c rest ∧ c ≠ "0"%char.
Proof.
  intros Hi. unfold pretty, pretty_nat, pretty, pretty_N.
  rewrite decide_False by lia. apply pretty_N_go_nonzero. lia.
Qed.

Lemma dropLeadingZeros_pretty (i : nat) :
  dropLeadingZeros (pretty i) = if decide (i = 0%nat) then EmptyString else pretty i.
Proof.
  case_decide as Hi; [by subst|].
  destruct (pretty_nat_nonzero i) as (c & rest & -> & Hc); [lia|].
  by apply dropLeadingZeros_id.
Qed.

(** Two counters give the same number only when they are equal: the padding
    adds zeros only, and a decimal numeral never starts with one. *)
Lemma ticketNum_injective prefix (i j : nat) :
  ticketNum prefix i = ticketNum prefix j → i = j.
Proof.
  unfold ticketNum, padStart. intros Heq.
  apply string_app_inv_head, string_app_inv_head in Heq.
  apply (f_equal dropLeadingZeros) in Heq.
  rewrite !replicate_string_zeros, !dropLeadingZeros_pretty in Heq.
  repeat case_decide; subst; try done.
  - destruct (pretty_nat_nonzero j) as (c & rest & Hj & _); [lia|]. congruence.
  - destruct (pretty_nat_nonzero i) as (c & rest & Hi & _); [lia|]. congruence.
  - by apply (inj pretty).
Qed.

Lemma ticketSpace_NoDup lottery : NoDup (ticketSpace lottery).
Proof.
  unfold ticketSpace. apply NoDup_fmap_2; [|apply NoDup_seq].
  intros i j. apply ticketNum_injective.
Qed.

(** * The purchase, continued *)

(** What the route has checked when it reaches the wallet. *)
Lemma planPurchase_tickets now uid idp quantity chosen d pl :
  planPurchase now uid idp quantity chosen d = inr pl →
  let available :=
    availableTickets (pl_lottery pl) (soldTicketsOf (pl_id pl) d) in
  pl_existing pl = findPurchase (pl_id pl) uid d
  ∧ pl_ticketPrice pl = ticketPrice (pl_lottery pl)
  ∧ match pl_existing pl with Some (_, p) => p_quantity p | None => 0 end
    + quantity ≤ maxTicketsPerUser (pl_lottery pl)
  ∧ Z.of_nat (length (pl_ticketsToBuy pl)) = quantity
  ∧ (∀ t, t ∈ pl_ticketsToBuy pl → t ∈ available)
  ∧ (chosen = [] → pl_ticketsToBuy pl = take (Z.to_nat quantity) available)
  ∧ (chosen ≠ [] → pl_ticketsToBuy pl = chosen).
Proof.
  unfold planPurchase. intros H.
  case_bool_decide as Hq; [done|].
  destruct idp as [|id]; [done|].
  destruct (lotteries d !! id) as [lottery|] eqn:Hl; [|done].
  destruct (negb _ || _) eqn:Hsell; [done|].
  case_bool_decide as Hcap; [done|].
  destruct chosen as [|c chosen]; simpl in H.
  - case_bool_decide as Henough; [done|]. injection H as <-. simpl.
    repeat split; try done; try lia.
    + rewrite length_take. lia.
    + intros t Ht. apply elem_of_take in Ht as (i & Hi & _).
      by eapply list_elem_of_lookup_2.
  - case_bool_decide as Hinvalid; [done|].
    case_bool_decide as Hlen; [done|]. injection H as <-. simpl.
    assert (filter (λ t, ¬ (String.prefix (lotteryPrefix lottery +:+ "-") t = true
                            ∧ t ∈ availableTickets lottery (soldTicketsOf id d)))
              (c :: chosen) = []) as Hnone.
    { destruct (filter _ _); [done|]. simpl in Hinvalid. lia. }
    split; [done|]. split; [done|]. split; [lia|].
    split; [destruct (decide (Z.of_nat (length (c :: chosen)) = quantity));
            [done|by destruct Hlen]|].
    split; [|done].
    intros t Ht.
    destruct (decide (String.prefix (lotteryPrefix lottery +:+ "-") t = true
                        ∧ t ∈ availableTickets lottery (soldTicketsOf id d)))
        as [[_ ?]|Hbad]; [done|].
    assert (t ∈ filter (λ t, ¬ (String.prefix (lotteryPrefix lottery +:+ "-") t = true
                                  ∧ t ∈ availableTickets lottery (soldTicketsOf id d)))
                         (c :: chosen)) as Hin by by apply list_elem_of_filter.
    rewrite Hnone in Hin. by apply elem_of_nil in Hin.
Qed.

(** Everything a purchase that went through has written. *)
Lemma purchase_writes now uid idp quantity chosen d d' tickets :
  purchase now uid idp quantity chosen d = (d', Purchased tickets) →
  ∃ pl newBalance s1,
    planPurchase now uid idp quantity chosen d = inr pl
    ∧ tickets = pl_ticketsToBuy pl
    ∧ updateWallet uid (Num (- pl_totalCost pl)) (purchaseDescription pl) d
      = Ok (newBalance, s1)
    ∧ users d' = users s1 ∧ transactions d' = transactions s1
    ∧ results d' = results d
    ∧ lotteries d'
      = <[pl_id pl := addTicketsSold (pl_qty pl) (pl_lottery pl)]> (lotteries d)
    ∧ purchases d'
      = match pl_existing pl with
        | Some (i, p) => <[i := extendedPurchase pl p]> (purchases d)
        | None => purchases d ++ [firstPurchase uid pl]
        end.
Proof.
  unfold purchase.
  destruct (planPurchase _ _ _ _ _ _) as [r|pl] eqn:Hplan; [done|].
  unfold payAndAllocate, bind, upsertPurchase, saveTicketsSold, ret. simpl.
  destruct (updateWallet _ _ _ _) as [[nb s1]|e] eqn:Hw; [|done].
  intros [= <- <-]. exists pl, nb, s1. split; [done|]. split; [done|].
  apply updateWallet_Ok in Hw as Hw'.
  destruct Hw' as (? & ? & ? & _ & _ & _ & _ & _ & _ & _ & ->). simpl.
  rewrite Hw. repeat split; try done.
Qed.

Lemma Permutation_insert_middle {A} (a x t b : list A) :
  a ++ (x ++ t) ++ b ≡ₚ (a ++ x ++ b) ++ t.
Proof.
  rewrite <- !(assoc_L (++)).
  apply Permutation_app_head, Permutation_app_head, Permutation_app_comm.
Qed.

Lemma soldTicketsOf_app id d ps :
  mjoin (ticketNumbers <$> filter (λ p, p_lotteryId p = id) (purchases d ++ ps))
  = soldTicketsOf id d
    ++ mjoin (ticketNumbers <$> filter (λ p, p_lotteryId p = id) ps).
Proof.
  unfold soldTicketsOf. by rewrite filter_app, fmap_app, join_app.
Qed.

(** The numbers sold in each lottery after a purchase: those sold before and
    the tickets handed out, in the lottery of the purchase. *)
Lemma soldTicketsOf_purchase now uid idp quantity chosen d d' tickets pl id :
  purchase now uid idp quantity chosen d = (d', Purchased tickets) →
  planPurchase now uid idp quantity chosen d = inr pl →
  soldTicketsOf id d'
  ≡ₚ soldTicketsOf id d ++ (if decide (pl_id pl = id) then tickets else []).
Proof.
  intros Hp Hplan.
  apply purchase_writes in Hp
    as (pl' & nb & s1 & Hplan' & -> & _ & _ & _ & _ & _ & Hps).
  rewrite Hplan in Hplan'. injection Hplan' as <-.
  apply planPurchase_tickets in Hplan as (Hex & _).
  unfold soldTicketsOf at 1. rewrite Hps.
  destruct (pl_existing pl) as [[i p]|] eqn:Hexisting.
  - symmetry in Hex. unfold findPurchase in Hex.
    apply list_find_Some in Hex as (Hi & [Hlot _] & _).
    rewrite insert_take_drop by by eapply lookup_lt_Some.
    unfold soldTicketsOf.
    rewrite <- (take_drop_middle _ _ _ Hi) at 3.
    rewrite !filter_app, !filter_cons. simpl. rewrite Hlot.
    case_decide as Hid.
    + rewrite !fmap_app, !fmap_cons, !join_app. simpl.
      apply Permutation_insert_middle.
    + by rewrite app_nil_r.
  - rewrite soldTicketsOf_app. f_equal.
    rewrite filter_cons, filter_nil. simpl.
    case_decide; simpl; [by rewrite app_nil_r|done].
Qed.

(** ** What only moves flags *)

Lemma sameButFlags_refl l : sameButFlags l l.
Proof. by destruct l. Qed.

Lemma sameButFlags_trans l1 l2 l3 :
  sameButFlags l1 l2 → sameButFlags l2 l3 → sameButFlags l1 l3.
Proof. unfold sameButFlags. intros -> ->. by destruct l1. Qed.

Lemma sameButFlags_fields l l' :
  sameButFlags l l' →
  ticketsSold l' = ticketsSold l ∧ maxTickets l' = maxTickets l
  ∧ maxTicketsPerUser l' = maxTicketsPerUser l
  ∧ lotteryPrefix l' = lotteryPrefix l ∧ ticketPrice l' = ticketPrice l
  ∧ winnerStructure l' = winnerStructure l
  ∧ startDatetime l' = startDatetime l ∧ endDatetime l' = endDatetime l
  ∧ drawDatetime l' = drawDatetime l.
Proof. unfold sameButFlags. by intros ->. Qed.

Lemma sameButFlags_markUpcoming now l : sameButFlags l (markUpcoming now l).
Proof. unfold sameButFlags, markUpcoming. destruct l. simpl. by case_match. Qed.

Lemma sameButFlags_markActive now l : sameButFlags l (markActive now l).
Proof. unfold sameButFlags, markActive. destruct l. simpl. by case_match. Qed.

Lemma sameButFlags_markEnded now l : sameButFlags l (markEnded now l).
Proof. unfold sameButFlags, markEnded. destruct l. simpl. by case_match. Qed.

Lemma sameButFlags_setResultAnnounced l : sameButFlags l (setResultAnnounced l).
Proof. by destruct l. Qed.

Lemma sameSales_refl d : sameSales d d.
Proof.
  split; [done|]. intros id.
  destruct (lotteries d !! id); constructor. apply sameButFlags_refl.
Qed.

Lemma sameSales_trans d1 d2 d3 :
  sameSales d1 d2 → sameSales d2 d3 → sameSales d1 d3.
Proof.
  intros [Hp1 Hl1] [Hp2 Hl2]. split; [congruence|]. intros id.
  specialize (Hl1 id). specialize (Hl2 id).
  destruct Hl1 as [l1 l2 H12|]; inversion Hl2 as [? l3 H23|]; subst;
    constructor.
  by eapply sameButFlags_trans.
Qed.

Lemma sameSales_lotteries d ls :
  (∀ id, option_Forall2 sameButFlags (lotteries d !! id) (ls !! id)) →
  sameSales d (setLotteries ls d).
Proof. by split. Qed.

Lemma sameSales_updateMany f d :
  (∀ l, sameButFlags l (f l)) → sameSales d (updateMany f d).
Proof.
  intros Hf. apply sameSales_lotteries. intros id. rewrite lookup_fmap.
  destruct (lotteries d !! id); constructor. apply Hf.
Qed.

Lemma sameSales_sweepFlags now d : sameSales d (sweepFlags now d).
Proof.
  unfold sweepFlags.
  eapply sameSales_trans;
    [|apply sameSales_updateMany; apply sameButFlags_markEnded].
  eapply sameSales_trans;
    [|apply sameSales_updateMany; apply sameButFlags_markActive].
  apply sameSales_updateMany. apply sameButFlags_markUpcoming.
Qed.

Lemma sameSales_announce id d : sameSales d (announce id d).
Proof.
  apply sameSales_lotteries. intros id'.
  destruct (decide (id = id')) as [->|Hne].
  - rewrite lookup_alter_eq. destruct (lotteries d !! id'); constructor.
    apply sameButFlags_setResultAnnounced.
  - rewrite lookup_alter_ne by done.
    destruct (lotteries d !! id'); constructor. apply sameButFlags_refl.
Qed.

Lemma sameSales_updateWallet uid amount description s newBalance s' :
  updateWallet uid amount description s = Ok (newBalance, s') → sameSales s s'.
Proof.
  intros Hw. apply updateWallet_Ok in Hw
    as (? & ? & ? & _ & _ & _ & _ & _ & _ & _ & ->).
  split; [done|]. intros id. simpl.
  destruct (lotteries s !! id); constructor. apply sameButFlags_refl.
Qed.

Lemma sameSales_drawLottery engine belowHalf now id force s ws s' :
  drawLottery engine belowHalf now id force s = Ok (ws, s') → sameSales s s'.
Proof.
  intros Hdraw. apply drawLottery_Ok in Hdraw
    as (lottery & all & s1 & Hl & _ & _ & _ & Hpick & ->).
  apply pickWinners_Ok in Hpick as [_ (_ & Hlot & Hps & _)].
  split; [done|]. intros id'. simpl. rewrite Hlot.
  destruct (decide (id = id')) as [->|Hne].
  - rewrite lookup_insert_eq, Hl. constructor. apply sameButFlags_setResultAnnounced.
  - rewrite lookup_insert_ne by done.
    destruct (lotteries s !! id'); constructor. apply sameButFlags_refl.
Qed.

Lemma sameSales_inOwnTransaction {A} (body : Tx A) d :
  (∀ a working, body d = Ok (a, working) → sameSales d working) →
  sameSales d (inOwnTransaction body d).1.
Proof.
  intros Hbody. unfold inOwnTransaction.
  destruct (body d) as [[a working]|e] eqn:Hrun; simpl;
    [eauto|apply sameSales_refl].
Qed.

Lemma sameSales_adminDraw engine belowHalf now id d :
  sameSales d (adminDraw engine belowHalf now id d).1.
Proof.
  apply sameSales_inOwnTransaction. intros ws working.
  apply sameSales_drawLottery.
Qed.

Lemma sameSales_sweepLottery engine belowHalf drawNow d e :
  sameSales d (sweepLottery engine belowHalf drawNow d e).
Proof.
  destruct e as [id lottery]. unfold sweepLottery.
  case_bool_decide; [apply sameSales_announce|].
  pose proof (sameSales_inOwnTransaction
                (drawLottery engine (belowHalf id) (drawNow id) id false) d
                (λ ws working, sameSales_drawLottery _ _ _ _ _ _ ws working))
    as Hown.
  unfold drawLotteryOwnSession.
  destruct (inOwnTransaction _ d) as [d' [ws|err]]; simpl in Hown; [|done].
  eapply sameSales_trans; [exact Hown|apply sameSales_announce].
Qed.

Lemma sameSales_foldl_sweep engine belowHalf drawNow es d :
  sameSales d (foldl (sweepLottery engine belowHalf drawNow) d es).
Proof.
  revert d. induction es as [|e es IH]; intros d; [apply sameSales_refl|].
  simpl. eapply sameSales_trans; [apply sameSales_sweepLottery|apply IH].
Qed.

Lemma sameSales_cronTick engine belowHalf now drawNow d :
  sameSales d (cronTick engine belowHalf now drawNow d).
Proof.
  unfold cronTick.
  eapply sameSales_trans; [apply sameSales_sweepFlags|].
  apply sameSales_foldl_sweep.
Qed.

Lemma sameSales_soldTicketsOf d d' id :
  sameSales d d' → soldTicketsOf id d' = soldTicketsOf id d.
Proof. intros [Hp _]. unfold soldTicketsOf. by rewrite Hp. Qed.

Lemma ticketSpace_sameButFlags l l' :
  sameButFlags l l' → ticketSpace l' = ticketSpace l.
Proof.
  intros H. apply sameButFlags_fields in H as (_ & Hmax & _ & Hpre & _).
  unfold ticketSpace. by rewrite Hmax, Hpre.
Qed.

Lemma wellSold_sameSales id d d' :
  sameSales d d' → wellSold id d → wellSold id d'.
Proof.
  intros Hsame (l & Hl & Hnd & Hin & Hcount).
  pose proof (proj2 Hsame id) as Hlot. rewrite Hl in Hlot.
  inversion Hlot as [? l' Hflags|]; subst.
  exists l'. split; [done|].
  rewrite (sameSales_soldTicketsOf d d') by done.
  rewrite (ticketSpace_sameButFlags l l') by done.
  apply sameButFlags_fields in Hflags as (-> & _). done.
Qed.

Lemma withinCaps_sameSales d d' :
  sameSales d d' → withinCaps d → withinCaps d'.
Proof.
  intros [Hp Hlot] [Hnd Hcap]. split; [by rewrite Hp|].
  intros p l' Hin Hl'. rewrite Hp in Hin.
  specialize (Hlot (p_lotteryId p)). rewrite Hl' in Hlot.
  inversion Hlot as [l ? Hflags Hl|]; subst.
  apply sameButFlags_fields in Hflags as (_ & _ & -> & _).
  by eapply Hcap.
Qed.

(** ** What a purchase keeps *)

Lemma elem_of_availableTickets lottery sold t :
  t ∈ availableTickets lottery sold ↔ (t ∉ sold) ∧ t ∈ ticketSpace lottery.
Proof.
  unfold availableTickets, ticketSpace.
  apply (list_elem_of_filter (λ t, t ∉ sold)).
Qed.

Lemma availableTickets_NoDup lottery sold :
  NoDup (availableTickets lottery sold).
Proof. apply NoDup_filter, ticketSpace_NoDup. Qed.

Lemma purchase_unchanged now uid idp quantity chosen d :
  (∀ tickets, (purchase now uid idp quantity chosen d).2 ≠ Purchased tickets) →
  (purchase now uid idp quantity chosen d).1 = d.
Proof.
  unfold purchase.
  destruct (planPurchase _ _ _ _ _ _) as [r|pl]; [done|].
  destruct (payAndAllocate _ _ _) as [[tickets working]|e]; [|done].
  intros H. by destruct (H tickets).
Qed.

Lemma ticketsToBuy_NoDup now uid idp quantity chosen d pl :
  planPurchase now uid idp quantity chosen d = inr pl →
  NoDup chosen → NoDup (pl_ticketsToBuy pl).
Proof.
  intros Hplan Hnd.
  apply planPurchase_tickets in Hplan as (_ & _ & _ & _ & _ & Hauto & Hchosen).
  destruct chosen as [|c chosen].
  - rewrite Hauto by done. eapply sublist_NoDup; [|apply sublist_take].
    apply availableTickets_NoDup.
  - by rewrite Hchosen.
Qed.

Lemma wellSold_purchase now uid idp quantity chosen d id :
  NoDup chosen → wellSold id d →
  wellSold id (purchase now uid idp quantity chosen d).1.
Proof.
  intros Hchosen Hwell.
  destruct (purchase now uid idp quantity chosen d) as [d' out] eqn:Hp.
  destruct out as [r|e|tickets];
    try (pose proof (purchase_unchanged now uid idp quantity chosen d) as Hsame;
         rewrite Hp in Hsame; simpl in *; by rewrite Hsame).
  simpl.
  pose proof Hp as Hwrites.
  apply purchase_writes in Hwrites
    as (pl & nb & s1 & Hplan & Htickets & _ & _ & _ & _ & Hlot & _).
  pose proof (soldTicketsOf_purchase _ _ _ _ _ _ _ _ _ id Hp Hplan) as Hsold.
  pose proof (ticketsToBuy_NoDup _ _ _ _ _ _ _ Hplan Hchosen) as Hnd'.
  pose proof (planPurchase_inr _ _ _ _ _ _ _ Hplan)
    as (_ & _ & Hl & _ & Hqty & _).
  apply planPurchase_tickets in Hplan as (_ & _ & _ & Hlen & Havail & _).
  destruct Hwell as (l & Hlook & Hnd & Hin & Hcount).
  destruct (decide (pl_id pl = id)) as [Hid|Hne].
  - subst id. rewrite Hl in Hlook. injection Hlook as <-.
    exists (addTicketsSold (pl_qty pl) (pl_lottery pl)).
    split; [by rewrite Hlot, lookup_insert_eq|].
    assert (∀ t, t ∈ tickets →
                 (t ∉ soldTicketsOf (pl_id pl) d)
                 ∧ t ∈ ticketSpace (pl_lottery pl))
      as Hfresh.
    { intros t Ht. apply elem_of_availableTickets, Havail. by subst tickets. }
    split; [|split].
    + rewrite Hsold. apply NoDup_app. split; [done|]. split; [|by subst].
      intros t Ht Ht'. by apply Hfresh in Ht' as [? _].
    + intros t. rewrite Hsold, elem_of_app. intros [Ht|Ht]; [by apply Hin|].
      by apply Hfresh in Ht as [_ ?].
    + simpl. rewrite Hsold, length_app, Nat2Z.inj_add, <- Hcount.
      subst tickets. lia.
  - exists l. rewrite Hlot, lookup_insert_ne by done. split; [done|].
    rewrite app_nil_r in Hsold.
    split; [by rewrite Hsold|]. split.
    + intros t. rewrite Hsold. apply Hin.
    + by rewrite Hsold.
Qed.

Lemma withinCaps_purchase now uid idp quantity chosen d :
  withinCaps d → withinCaps (purchase now uid idp quantity chosen d).1.
Proof.
  intros Hcaps.
  destruct (purchase now uid idp quantity chosen d) as [d' out] eqn:Hp.
  destruct out as [r|e|tickets];
    try (pose proof (purchase_unchanged now uid idp quantity chosen d) as Hsame;
         rewrite Hp in Hsame; simpl in *; by rewrite Hsame).
  simpl.
  apply purchase_writes in Hp
    as (pl & nb & s1 & Hplan & Htickets & _ & _ & _ & _ & Hlot & Hps).
  pose proof (planPurchase_inr _ _ _ _ _ _ _ Hplan)
    as (Hpos & _ & Hl & _ & Hqty & _).
  apply planPurchase_tickets in Hplan as (Hex & _ & Hlimit & _).
  destruct Hcaps as [Hnd Hcap].
  assert (∀ lid l', lotteries d' !! lid = Some l' →
            ∃ l, lotteries d !! lid = Some l
                 ∧ maxTicketsPerUser l' = maxTicketsPerUser l) as Hsamecap.
  { intros lid l'. rewrite Hlot.
    destruct (decide (pl_id pl = lid)) as [<-|Hne].
    - rewrite lookup_insert_eq. intros [= <-]. by exists (pl_lottery pl).
    - rewrite lookup_insert_ne by done. intros ?. by exists l'. }
  assert (∀ p l', p ∈ purchases d → lotteries d' !! p_lotteryId p = Some l' →
            p_quantity p ≤ maxTicketsPerUser l') as Hold.
  { intros p l' Hin Hl'. apply Hsamecap in Hl' as (l & Hlk & ->).
    by eapply Hcap. }
  rewrite Hex in Hps, Hlimit.
  destruct (findPurchase (pl_id pl) uid d) as [[i p]|] eqn:Hfind.
  - apply list_find_Some in Hfind as (Hi & [Hlid Huid] & _).
    split.
    + rewrite Hps, list_fmap_insert. simpl.
      rewrite list_insert_id; [done|].
      rewrite list_lookup_fmap, Hi. simpl. by rewrite Hlid, Huid.
    + intros p' l' Hin Hl'. rewrite Hps in Hin.
      apply list_elem_of_lookup_1 in Hin as [j Hj].
      destruct (decide (i = j)) as [<-|Hne].
      * rewrite list_lookup_insert_eq in Hj by by eapply lookup_lt_Some.
        injection Hj as <-. simpl in *.
        apply Hsamecap in Hl' as (l & Hlk & ->).
        rewrite Hlid, Hl in Hlk. injection Hlk as <-. lia.
      * rewrite list_lookup_insert_ne in Hj by done.
        apply Hold; [by eapply list_elem_of_lookup_2|done].
  - apply list_find_None in Hfind.
    split.
    + rewrite Hps, fmap_app. apply NoDup_app. split; [done|].
      split; [|apply NoDup_singleton].
      intros key Hkey Hnew. apply list_elem_of_singleton in Hnew as ->.
      apply list_elem_of_fmap in Hkey as (p & Hkey & Hin).
      rewrite Forall_forall in Hfind. apply (Hfind p Hin).
      simpl in Hkey. by injection Hkey as <- <-.
    + intros p' l' Hin Hl'. rewrite Hps in Hin.
      apply elem_of_app in Hin as [Hin|Hin]; [by apply Hold|].
      apply list_elem_of_singleton in Hin as ->. simpl in *.
      apply Hsamecap in Hl' as (l & Hlk & ->).
      rewrite Hl in Hlk. injection Hlk as <-. lia.
Qed.

Lemma sameSales_perform engine d op :
  (∀ now uid idp quantity chosen,
     op ≠ Purchase now uid idp quantity chosen) →
  sameSales d (perform engine d op).
Proof.
  destruct op as [belowHalf now drawNow|belowHalf now id
                  |now uid idp quantity chosen|uid amount description];
    intros Hop; simpl.
  - apply sameSales_cronTick.
  - apply sameSales_adminDraw.
  - by destruct (Hop now uid idp quantity chosen).
  - apply sameSales_inOwnTransaction. intros newBalance working.
    apply sameSales_updateWallet.
Qed.

Lemma wellSold_perform engine d op id :
  noRepeats op → wellSold id d → wellSold id (perform engine d op).
Proof.
  intros Hop Hwell.
  destruct op as [belowHalf now drawNow|belowHalf now id'
                  |now uid idp quantity chosen|uid amount description];
    try (eapply wellSold_sameSales; [apply sameSales_perform|]; done).
  by apply wellSold_purchase.
Qed.

Lemma withinCaps_perform engine d op :
  withinCaps d → withinCaps (perform engine d op).
Proof.
  intros Hcaps.
  destruct op as [belowHalf now drawNow|belowHalf now id'
                  |now uid idp quantity chosen|uid amount description];
    try (eapply withinCaps_sameSales; [apply sameSales_perform|]; done).
  by apply withinCaps_purchase.
Qed.

Lemma countedTickets_sameSales d d' :
  sameSales d d' → countedTickets d → countedTickets d'.
Proof. intros [Hp _] Hc. unfold countedTickets. by rewrite Hp. Qed.

Lemma countedTickets_purchase now uid idp quantity chosen d :
  countedTickets d → countedTickets (purchase now uid idp quantity chosen d).1.
Proof.
  intros Hc.
  destruct (purchase now uid idp quantity chosen d) as [d' out] eqn:Hp.
  destruct out as [r|e|tickets];
    try (pose proof (purchase_unchanged now uid idp quantity chosen d) as Hsame;
         rewrite Hp in Hsame; simpl in *; by rewrite Hsame).
  simpl.
  apply purchase_writes in Hp
    as (pl & nb & s1 & Hplan & Htickets & _ & _ & _ & _ & _ & Hps).
  pose proof (planPurchase_inr _ _ _ _ _ _ _ Hplan)
    as (_ & _ & _ & _ & Hqty & _).
  apply planPurchase_tickets in Hplan as (Hex & _ & _ & Hlen & _).
  unfold countedTickets in *. rewrite Hps. rewrite Hex.
  destruct (findPurchase (pl_id pl) uid d) as [[i p]|] eqn:Hfind.
  - apply list_find_Some in Hfind as (Hi & _ & _).
    rewrite insert_take_drop by by eapply lookup_lt_Some.
    rewrite <- (take_drop_middle _ _ _ Hi) in Hc.
    rewrite Forall_app, Forall_cons in Hc. destruct Hc as (H1 & Hp & H2).
    rewrite Forall_app, Forall_cons. split; [done|]. split; [|done].
    simpl. rewrite length_app. lia.
  - rewrite Forall_app, Forall_singleton. split; [done|]. simpl. lia.
Qed.

Lemma countedTickets_perform engine d op :
  countedTickets d → countedTickets (perform engine d op).
Proof.
  intros Hc.
  destruct op as [belowHalf now drawNow|belowHalf now id'
                  |now uid idp quantity chosen|uid amount description];
    try (eapply countedTickets_sameSales; [apply sameSales_perform|]; done).
  by apply countedTickets_purchase.
Qed.

(** * The draw, continued *)

Lemma ticketsOf_numbers uid name email (nums : list string) :
  let ts := (λ num, mkTicket num uid name email) <$> nums in
  tk_ticketNumber <$> ts = nums ∧ Forall (λ t, tk_userId t = uid) ts.
Proof.
  simpl. induction nums as [|num nums [IH1 IH2]]; [by split|].
  rewrite !fmap_cons. simpl. split; [by rewrite IH1|by constructor].
Qed.

Lemma ticketsOfPurchase_Ok s p ts :
  ticketsOfPurchase s p = Ok ts →
  tk_ticketNumber <$> ts = ticketNumbers p
  ∧ Forall (λ t, tk_userId t = p_userId p) ts.
Proof.
  unfold ticketsOfPurchase.
  destruct (ticketNumbers p) as [|num nums] eqn:Hnums.
  - by intros [= <-].
  - destruct (users s !! p_userId p) as [u|]; [|done]. intros [= <-].
    apply (ticketsOf_numbers (p_userId p) (orString (u_name u) "Unknown")
             (orString (u_email u) "N/A") (num :: nums)).
Qed.

Lemma collectTickets_Ok s ps ts :
  collectTickets s ps = Ok ts →
  tk_ticketNumber <$> ts = mjoin (ticketNumbers <$> ps)
  ∧ ∀ t, t ∈ ts → ∃ p, p ∈ ps ∧ tk_userId t = p_userId p
                        ∧ tk_ticketNumber t ∈ ticketNumbers p.
Proof.
  revert ts. induction ps as [|p ps IH]; intros ts; simpl.
  - intros [= <-]. split; [done|]. intros t Ht. by apply elem_of_nil in Ht.
  - destruct (ticketsOfPurchase s p) as [ts1|e] eqn:Hp; [|done].
    destruct (collectTickets s ps) as [rest|e]; [|done].
    intros [= <-]. destruct (IH rest eq_refl) as [Hnums Hholder].
    apply ticketsOfPurchase_Ok in Hp as [Hnums1 Huser1].
    split; [by rewrite fmap_app, Hnums1, Hnums|].
    intros t Ht. apply elem_of_app in Ht as [Ht|Ht].
    + exists p. split; [by left|].
      rewrite Forall_forall in Huser1. split; [by apply Huser1|].
      rewrite <- Hnums1. by apply list_elem_of_fmap_2.
    + destruct (Hholder t Ht) as (p' & Hin & Hu & Hn).
      exists p'. split; [by right|done].
Qed.

Lemma fst_zip_take {A B} (l : list A) (k : list B) :
  (zip l k).*1 = take (length k) l.
Proof.
  revert k. induction l as [|x l IH]; intros [|y k]; simpl; try done.
  by rewrite IH.
Qed.

Lemma snd_zip_take {A B} (l : list A) (k : list B) :
  (zip l k).*2 = take (length l) k.
Proof.
  revert k. induction l as [|x l IH]; intros [|y k]; simpl; try done.
  by rewrite IH.
Qed.

Lemma fmap_imap_const {A B C} (f : nat → A → B) (g : B → C) (h : A → C) l :
  (∀ i x, g (f i x) = h x) → g <$> imap f l = h <$> l.
Proof.
  intros Hgf. revert f Hgf. induction l as [|x l IH]; intros f Hgf; [done|].
  rewrite imap_cons, !fmap_cons, Hgf. f_equal. apply IH.
  intros i y. apply Hgf.
Qed.

Lemma assignedWinners_tickets wss shuffled :
  (λ w, (w_ticketNumber w, w_userId w)) <$> assignedWinners wss shuffled
  = (λ t, (tk_ticketNumber t, tk_userId t))
      <$> take (length (bandSlots wss)) shuffled.
Proof.
  unfold assignedWinners. rewrite <- snd_zip_take, <- list_fmap_compose.
  by apply fmap_imap_const.
Qed.

Lemma assignedWinners_prizes wss shuffled :
  w_prizeAmount <$> assignedWinners wss shuffled
  = prizeAmount <$> take (length shuffled) (bandSlots wss).
Proof.
  unfold assignedWinners. rewrite <- fst_zip_take, <- list_fmap_compose.
  by apply fmap_imap_const.
Qed.

Lemma groupLoop_nonzero n lottery ws shuffled st s st' s' :
  groupLoop n lottery ws shuffled st s = Ok (st', s') →
  Forall (λ w, w_prizeAmount w ≠ 0) (ds_winners st) →
  Forall (λ w, w_prizeAmount w ≠ 0) (ds_winners st').
Proof.
  revert st s. induction n as [|n IH]; intros st s; simpl.
  - by intros [= <- <-].
  - destruct (shuffled !! currentIndex st) as [t|]; [|by intros [= <- <-]].
    unfold bind.
    destruct (updateWallet _ _ _ s) as [[nb s1]|e] eqn:Hw; [|done].
    intros Hloop Hall. apply IH in Hloop; [done|]. simpl.
    apply Forall_app. split; [done|]. apply Forall_singleton. simpl.
    apply updateWallet_Ok in Hw as (change & _ & _ & [= <-] & Hne & _). done.
Qed.

Lemma bandsLoop_nonzero wss lottery shuffled st s st' s' :
  bandsLoop wss lottery shuffled st s = Ok (st', s') →
  Forall (λ w, w_prizeAmount w ≠ 0) (ds_winners st) →
  Forall (λ w, w_prizeAmount w ≠ 0) (ds_winners st').
Proof.
  revert st s. induction wss as [|ws wss IH]; intros st s; simpl.
  - by intros [= <- <-].
  - unfold bind.
    destruct (groupLoop _ _ _ _ _ s) as [[st1 s1]|e] eqn:Hg; [|done].
    intros Hloop Hall. eapply IH; [exact Hloop|].
    by eapply groupLoop_nonzero.
Qed.

Lemma pickWinners_nonzero lottery shuffled s ws s' :
  pickWinners lottery shuffled s = Ok (ws, s') →
  Forall (λ w, w_prizeAmount w ≠ 0) ws.
Proof.
  unfold pickWinners, bind, ret.
  destruct (bandsLoop _ _ _ _ s) as [[st1 s1]|e] eqn:Hb; [|done].
  intros [= <- <-]. eapply bandsLoop_nonzero; [exact Hb|]. constructor.
Qed.

Lemma drawLottery_tickets engine belowHalf now id force s ws s' :
  drawLottery engine belowHalf now id force s = Ok (ws, s') →
  ∃ lottery allTickets,
    lotteries s !! id = Some lottery
    ∧ collectTickets s (filter (λ p, p_lotteryId p = id) (purchases s))
      = Ok allTickets
    ∧ tk_ticketNumber <$> allTickets = soldTicketsOf id s
    ∧ ws = assignedWinners (winnerStructure lottery)
             (arraySort engine belowHalf allTickets)
    ∧ Forall (λ w, w_prizeAmount w ≠ 0) ws.
Proof.
  intros Hdraw. apply drawLottery_Ok in Hdraw
    as (lottery & all & s1 & Hl & _ & Hc & _ & Hpick & _).
  exists lottery, all. split; [done|]. split; [done|].
  split; [by apply collectTickets_Ok in Hc as [? _]|].
  split; [by apply pickWinners_Ok in Hpick as [? _]|].
  by eapply pickWinners_nonzero.
Qed.

(** ** Results are written once *)

Lemma resultsGrow_refl d : resultsGrow d d.
Proof. split; [exists []; by rewrite app_nil_r|done]. Qed.

Lemma resultsGrow_trans d1 d2 d3 :
  resultsGrow d1 d2 → resultsGrow d2 d3 → resultsGrow d1 d3.
Proof.
  intros [[e1 H1] S1] [[e2 H2] S2]. split; [|auto].
  exists (e1 ++ e2). by rewrite H2, H1, (assoc_L (++)).
Qed.

Lemma resultsGrow_frame d d' :
  results d' = results d → (∀ id, announced id d → announced id d') →
  resultsGrow d d'.
Proof.
  intros Hres Hann. split; [exists []; by rewrite app_nil_r|].
  intros Hsound id. unfold resultsOf. rewrite Hres.
  destruct (Hsound id) as [Hlen Hsome]. split; [done|]. intros Hne.
  by apply Hann, Hsome.
Qed.

Lemma resultsGrow_drawLottery engine belowHalf now id force s ws s' :
  drawLottery engine belowHalf now id force s = Ok (ws, s') → resultsGrow s s'.
Proof.
  intros Hdraw. pose proof Hdraw as Hinv. apply drawLottery_Ok in Hinv
    as (lottery & all & s1 & Hl & [Hann _] & _ & _ & Hpick & ->).
  apply pickWinners_Ok in Hpick as [_ (_ & Hlot & _ & Hres)].
  split; [exists [mkLotteryResult id ws]; simpl; by rewrite Hres|].
  intros Hsound id0. destruct (Hsound id0) as [Hlen Hsome].
  unfold resultsOf at 1 2. simpl. rewrite Hres, filter_app.
  fold (resultsOf id0 s).
  destruct (decide (id = id0)) as [<-|Hne].
  - assert (resultsOf id s = []) as ->.
    { destruct (resultsOf id s) as [|r rs] eqn:Hrs; [done|].
      destruct Hsome as (l & Hl' & Hann'); [done|]. congruence. }
    split; [rewrite filter_cons_True by done; simpl; lia|].
    intros _. exists (setResultAnnounced lottery). simpl.
    by rewrite lookup_insert_eq.
  - rewrite filter_cons_False, filter_nil, app_nil_r by done.
    split; [done|]. intros Hrs. rewrite <- Hres.
    eapply announced_drawLottery; [exact Hdraw|by apply Hsome].
Qed.

Lemma resultsGrow_inOwnTransaction {A} (body : Tx A) d :
  (∀ a working, body d = Ok (a, working) → resultsGrow d working) →
  resultsGrow d (inOwnTransaction body d).1.
Proof.
  intros Hbody. unfold inOwnTransaction.
  destruct (body d) as [[a working]|e] eqn:Hrun; simpl;
    [eauto|apply resultsGrow_refl].
Qed.

Lemma resultsGrow_announce id d : resultsGrow d (announce id d).
Proof.
  apply resultsGrow_frame; [done|]. intros id0. apply announced_announce.
Qed.

Lemma resultsGrow_sweepLottery engine belowHalf drawNow d e :
  resultsGrow d (sweepLottery engine belowHalf drawNow d e).
Proof.
  destruct e as [id lottery]. unfold sweepLottery.
  case_bool_decide; [apply resultsGrow_announce|].
  pose proof (resultsGrow_inOwnTransaction
                (drawLottery engine (belowHalf id) (drawNow id) id false) d
                (λ ws working,
                   resultsGrow_drawLottery _ _ _ _ _ _ ws working))
    as Hown.
  unfold drawLotteryOwnSession.
  destruct (inOwnTransaction _ d) as [d' [ws|err]]; simpl in Hown; [|done].
  eapply resultsGrow_trans; [exact Hown|apply resultsGrow_announce].
Qed.

Lemma resultsGrow_foldl_sweep engine belowHalf drawNow es d :
  resultsGrow d (foldl (sweepLottery engine belowHalf drawNow) d es).
Proof.
  revert d. induction es as [|e es IH]; intros d; [apply resultsGrow_refl|].
  simpl. eapply resultsGrow_trans; [apply resultsGrow_sweepLottery|apply IH].
Qed.

Lemma resultsGrow_perform engine d op : resultsGrow d (perform engine d op).
Proof.
  destruct op as [belowHalf now drawNow|belowHalf now id
                  |now uid idp quantity chosen|uid amount description]; simpl.
  - unfold cronTick. eapply resultsGrow_trans; [|apply resultsGrow_foldl_sweep].
    apply resultsGrow_frame; [done|]. intros id. apply announced_sweepFlags.
  - apply resultsGrow_inOwnTransaction. intros ws working.
    apply resultsGrow_drawLottery.
  - apply resultsGrow_frame; [|intros id; apply announced_purchase].
    destruct (purchase now uid idp quantity chosen d) as [d' out] eqn:Hp.
    destruct out as [r|e|tickets];
      try (pose proof (purchase_unchanged now uid idp quantity chosen d)
             as Hsame;
           rewrite Hp in Hsame; simpl in *; by rewrite Hsame).
    simpl. by apply purchase_writes in Hp
      as (pl & nb & s1 & _ & _ & _ & _ & _ & Hres & _).
  - apply resultsGrow_frame; [|intros id; apply announced_updateWallet].
    unfold updateWalletOwnSession, inOwnTransaction.
    destruct (updateWallet uid amount description d) as [[nb s1]|e] eqn:Hw;
      [|done].
    simpl. by apply updateWallet_Ok in Hw
      as (? & ? & ? & _ & _ & _ & _ & _ & _ & _ & ->).
Qed.

Lemma resultsGrow_performAll engine ops d :
  resultsGrow d (performAll engine ops d).
Proof.
  unfold performAll. revert d.
  induction ops as [|op ops IH]; intros d; [apply resultsGrow_refl|].
  simpl. eapply resultsGrow_trans; [apply resultsGrow_perform|apply IH].
Qed.

(** ** The flags and the clock *)

Lemma sweepFlags_lookup now d id :
  lotteries (sweepFlags now d) !! id = flagsStep now <$> lotteries d !! id.
Proof.
  unfold sweepFlags, updateMany, flagsStep. simpl. rewrite !lookup_fmap.
  by destruct (lotteries d !! id).
Qed.

Lemma sweepFlags_eq now d :
  sweepFlags now d = setLotteries (flagsStep now <$> lotteries d) d.
Proof.
  unfold sweepFlags, updateMany, setLotteries. simpl. f_equal.
  by rewrite <- !map_fmap_compose.
Qed.

Lemma flagsStep_flagsAfter now l :
  flagsStep now l
  = withFlags
      (flagsAfter (bool_decide (now < startDatetime l))
         (bool_decide (startDatetime l ≤ now)
          && bool_decide (now < endDatetime l))
         (bool_decide (endDatetime l ≤ now)
          || bool_decide (maxTickets l ≤ ticketsSold l))
         (flags l)) l.
Proof.
  destruct l as [t price mx per wss st en dr sold [up act ended ann] pre].
  unfold flagsStep, flagsAfter, withFlags. simpl.
  unfold markUpcoming. simpl.
  destruct (bool_decide (now < st)), up, act, ended; simpl;
    unfold markActive; simpl;
    destruct (bool_decide (st ≤ now)), (bool_decide (now < en)); simpl;
    unfold markEnded; simpl;
    destruct (bool_decide (en ≤ now)), (bool_decide (mx ≤ sold)); reflexivity.
Qed.

Lemma flagsAfter_idempotent a b c f :
  flagsAfter a b c (flagsAfter a b c f) = flagsAfter a b c f.
Proof. by destruct f as [[] [] [] ?], a, b, c. Qed.

Lemma flagsAfter_spec a b c f :
  resultAnnounced (flagsAfter a b c f) = resultAnnounced f
  ∧ isEnded (flagsAfter a b c f) = isEnded f || c
  ∧ (isEnded f = false → c = false → b = true →
     isActive (flagsAfter a b c f) = true)
  ∧ (isEnded f = true → flagsAfter a b c f = f).
Proof. by destruct f as [[] [] [] ?], a, b, c. Qed.

Lemma flagsStep_idempotent now l :
  flagsStep now (flagsStep now l) = flagsStep now l.
Proof.
  rewrite (flagsStep_flagsAfter now l).
  rewrite (flagsStep_flagsAfter now (withFlags _ l)).
  destruct l as [t price mx per wss st en dr sold f pre].
  unfold withFlags. simpl. by rewrite flagsAfter_idempotent.
Qed.

Lemma sameButFlags_flagsStep now l : sameButFlags l (flagsStep now l).
Proof.
  unfold flagsStep.
  eapply sameButFlags_trans; [|apply sameButFlags_markEnded].
  eapply sameButFlags_trans; [|apply sameButFlags_markActive].
  apply sameButFlags_markUpcoming.
Qed.

Lemma computedPhase_ENDED now lottery :
  computedPhase now lottery = ENDED ↔
  endDatetime lottery ≤ now ∨ maxTickets lottery ≤ ticketsSold lottery.
Proof.
  unfold computedPhase, computeLotteryFlags. simpl. rewrite orZero_id.
  destruct (decide (endDatetime lottery ≤ now)) as [Hend|Hend];
    [rewrite (bool_decide_eq_true_2 _ Hend)
    |rewrite (bool_decide_eq_false_2 _ Hend)];
    (destruct (decide (maxTickets lottery ≤ ticketsSold lottery)) as [Hmax|Hmax];
     [rewrite (bool_decide_eq_true_2 _ Hmax)
     |rewrite (bool_decide_eq_false_2 _ Hmax)]); simpl.
  - split; [by left|done].
  - split; [by left|done].
  - split; [by right|done].
  - rewrite orb_false_r. split; [by case_bool_decide|tauto].
Qed.

Lemma sweepLottery_other engine belowHalf drawNow d e id :
  e.1 ≠ id →
  lotteries (sweepLottery engine belowHalf drawNow d e) !! id
  = lotteries d !! id.
Proof.
  destruct e as [id' lottery]. simpl. intros Hne. unfold sweepLottery.
  assert (∀ d0, lotteries (announce id' d0) !! id = lotteries d0 !! id)
    as Hannounce.
  { intros d0. simpl. by rewrite lookup_alter_ne. }
  case_bool_decide; [apply Hannounce|].
  unfold drawLotteryOwnSession, inOwnTransaction.
  destruct (drawLottery _ _ _ _ _ d) as [[ws working]|err] eqn:Hdraw; [|done].
  rewrite Hannounce.
  apply drawLottery_Ok in Hdraw as (l0 & all & s1 & _ & _ & _ & _ & Hpick & ->).
  apply pickWinners_Ok in Hpick as [_ (_ & Hlot & _)].
  simpl. by rewrite lookup_insert_ne, Hlot.
Qed.

Lemma foldl_sweep_other engine belowHalf drawNow es d id :
  (∀ e, e ∈ es → e.1 ≠ id) →
  lotteries (foldl (sweepLottery engine belowHalf drawNow) d es) !! id
  = lotteries d !! id
  ∧ resultsOf id (foldl (sweepLottery engine belowHalf drawNow) d es)
    = resultsOf id d.
Proof.
  revert d. induction es as [|e es IH]; intros d Hes; [done|]. simpl.
  destruct (IH (sweepLottery engine belowHalf drawNow d e)) as [Hl Hr].
  { intros e' He'. apply Hes. by right. }
  rewrite Hl, Hr. split; [apply sweepLottery_other, Hes; by left|].
  assert (e.1 ≠ id) as Hne by (apply Hes; by left).
  destruct e as [id' lottery]. simpl in Hne. unfold sweepLottery.
  case_bool_decide; [done|].
  unfold drawLotteryOwnSession, inOwnTransaction.
  destruct (drawLottery _ _ _ _ _ d) as [[ws working]|err] eqn:Hdraw; [|done].
  simpl.
  apply drawLottery_Ok in Hdraw as (l0 & all & s1 & _ & _ & _ & _ & Hpick & ->).
  apply pickWinners_Ok in Hpick as [_ (_ & _ & _ & Hres)].
  unfold resultsOf. simpl. rewrite Hres, filter_app.
  by rewrite filter_cons_False, filter_nil, app_nil_r.
Qed.

Lemma collectTickets_none s ps :
  mjoin (ticketNumbers <$> ps) = [] → collectTickets s ps = Ok [].
Proof.
  induction ps as [|p ps IH]; [done|]. simpl. intros Hnone.
  apply app_eq_nil in Hnone as [Hp Hps]. unfold ticketsOfPurchase.
  rewrite Hp. by rewrite IH.
Qed.

(** * Tickets and purchases: further properties *)

(** X1: two different counters never give the same ticket number, whatever the
    prefix, also past 9999 where the number outgrows its four digits. *)
Theorem ticket_numbers_distinct prefix (i j : nat) :
  i ≠ j → ticketNum prefix i ≠ ticketNum prefix j.
Proof. intros Hne Heq. by apply Hne, (ticketNum_injective prefix). Qed.

Lemma ticket_numbers_distinct_witness :
  ticketNum "PL" 1 ≠ ticketNum "PL" 11.
Proof. apply (ticket_numbers_distinct "PL" 1 11). lia. Defined.

(** X2: the list of available tickets holds no number twice, and holds exactly
    the numbers [prefix-i] for [i] from 1 to [maxTickets] that are not among
    the sold ones. *)
Theorem availableTickets_exact lottery sold :
  NoDup (availableTickets lottery sold)
  ∧ ∀ t, t ∈ availableTickets lottery sold
         ↔ (t ∉ sold)
           ∧ ∃ i : nat, (1 ≤ i ≤ Z.to_nat (maxTickets lottery))%nat
                        ∧ t = ticketNum (lotteryPrefix lottery) i.
Proof.
  split; [apply availableTickets_NoDup|]. intros t.
  rewrite elem_of_availableTickets. unfold ticketSpace.
  rewrite list_elem_of_fmap. setoid_rewrite elem_of_seq.
  split; intros [Hsold (i & H1 & H2)]; (split; [done|]); exists i.
  - split; [lia|done].
  - split; [done|lia].
Qed.

(** X6: a lottery whose ticket price is 0 cannot be bought: a request that
    passes every check of the route fails in the wallet with "Invalid amount",
    and in every case the database is left as it was. *)
Theorem free_lottery_never_sells now uid id quantity chosen d lottery :
  lotteries d !! id = Some lottery → ticketPrice lottery = 0 →
  purchase now uid (Uuid id) quantity chosen d = (d, Failed InvalidAmount)
  ∨ ∃ r, purchase now uid (Uuid id) quantity chosen d = (d, Rejected r).
Proof.
  intros Hl Hprice. unfold purchase.
  destruct (planPurchase now uid (Uuid id) quantity chosen d) as [r|pl] eqn:Hplan;
    [right; by exists r|left].
  apply planPurchase_inr in Hplan as (_ & [= ->] & Hl' & _ & _ & Hcost).
  rewrite Hl in Hl'. injection Hl' as ->.
  rewrite Hprice in Hcost. simpl in Hcost.
  unfold payAndAllocate, bind.
  unfold updateWallet. rewrite Hcost. simpl. done.
Qed.

Lemma free_lottery_never_sells_witness :
  purchase 1500 1 (Uuid 8) 1 [] freeDb = (freeDb, Failed InvalidAmount)
  ∨ ∃ r, purchase 1500 1 (Uuid 8) 1 [] freeDb = (freeDb, Rejected r).
Proof.
  apply (free_lottery_never_sells 1500 1 8 1 [] freeDb freeLottery);
    reflexivity.
Defined.

(** * The draw: further properties *)

(** X8: every winner of a draw holds the winning ticket: the ticket number
    belongs to an allocation of that lottery made out to the winner.  When no
    number of the lottery was sold twice, no ticket wins twice. *)
Theorem winners_hold_sold_tickets engine belowHalf now id force s ws s' :
  drawLottery engine belowHalf now id force s = Ok (ws, s') →
  (∀ w, w ∈ ws →
        ∃ p, p ∈ purchases s ∧ p_lotteryId p = id
             ∧ p_userId p = w_userId w
             ∧ w_ticketNumber w ∈ ticketNumbers p)
  ∧ (NoDup (soldTicketsOf id s) → NoDup (w_ticketNumber <$> ws)).
Proof.
  intros Hdraw.
  apply drawLottery_tickets in Hdraw
    as (lottery & all & _ & Hc & Hsold & -> & _).
  pose proof (assignedWinners_tickets (winnerStructure lottery)
                (arraySort engine belowHalf all)) as Hws.
  split.
  - intros w Hw.
    apply (list_elem_of_fmap_2 (λ w, (w_ticketNumber w, w_userId w))) in Hw.
    rewrite Hws in Hw. apply list_elem_of_fmap in Hw as (t & Heq & Ht).
    injection Heq as Hnum Huser.
    apply elem_of_take in Ht as (i & Hi & _).
    apply list_elem_of_lookup_2 in Hi.
    rewrite arraySort_Permutation in Hi.
    apply collectTickets_Ok in Hc as [_ Hholder].
    destruct (Hholder t Hi) as (p & Hin & Hu & Hn).
    apply list_elem_of_filter in Hin as [Hid Hin].
    exists p. rewrite Hnum, Huser. done.
  - intros Hnd.
    replace (w_ticketNumber <$> assignedWinners (winnerStructure lottery)
                                  (arraySort engine belowHalf all))
      with (((λ w, (w_ticketNumber w, w_userId w))
               <$> assignedWinners (winnerStructure lottery)
                     (arraySort engine belowHalf all)).*1)
      by by rewrite <- list_fmap_compose.
    rewrite Hws, <- list_fmap_compose. simpl.
    change (NoDup (tk_ticketNumber
                     <$> take (length (bandSlots (winnerStructure lottery)))
                           (arraySort engine belowHalf all))).
    rewrite fmap_take. eapply sublist_NoDup; [|apply sublist_take].
    by rewrite arraySort_Permutation, Hsold.
Qed.

Lemma winners_hold_sold_tickets_witness :
  (∀ w, w ∈ demoWinners →
        ∃ p, p ∈ purchases soldDb ∧ p_lotteryId p = 7%nat
             ∧ p_userId p = w_userId w
             ∧ w_ticketNumber w ∈ ticketNumbers p)
  ∧ (NoDup (soldTicketsOf 7 soldDb) → NoDup (w_ticketNumber <$> demoWinners)).
Proof.
  apply (winners_hold_sold_tickets insertionSort alternating 3000 7 true
           soldDb demoWinners demoDrawn).
  vm_compute. reflexivity.
Defined.

(** X9: a draw never awards a prize of 0: when one of the prize slots that
    the sold tickets reach has amount 0, the wallet refuses the credit, the
    forced draw of the administrator fails and nothing is written: no winner
    is paid, no result is stored, the lottery is not announced. *)
Theorem zero_prize_aborts_draw engine belowHalf now id s lottery band :
  lotteries s !! id = Some lottery →
  band ∈ take (length (soldTicketsOf id s)) (bandSlots (winnerStructure lottery)) →
  prizeAmount band = 0 →
  ∃ e, adminDraw engine belowHalf now id s = (s, Threw e).
Proof.
  intros Hl Hband Hzero. unfold adminDraw, inOwnTransaction.
  destruct (drawLottery engine belowHalf now id true s) as [[ws s']|e] eqn:Hdraw;
    [|by exists e].
  apply drawLottery_tickets in Hdraw
    as (lottery' & all & Hl' & _ & Hsold & -> & Hnonzero).
  rewrite Hl in Hl'. injection Hl' as <-.
  apply (Forall_fmap w_prizeAmount (λ prize, prize ≠ 0)) in Hnonzero.
  rewrite assignedWinners_prizes, arraySort_length in Hnonzero.
  rewrite <- Hsold, length_fmap in Hband.
  rewrite Forall_forall in Hnonzero.
  destruct (Hnonzero (prizeAmount band)); [|done].
  by apply list_elem_of_fmap_2.
Qed.

Lemma zero_prize_aborts_draw_witness :
  ∃ e, adminDraw insertionSort alternating 3000 7 zeroPrizeDb
       = (zeroPrizeDb, Threw e).
Proof.
  apply (zero_prize_aborts_draw insertionSort alternating 3000 7 zeroPrizeDb
           (mkLottery "Premium Lottery" 100 5 2
              [mkWinnerStructure 1 1 10000; mkWinnerStructure 2 3 0]
              1000 2000 2060 5 (mkFlags false false true false) "PL")
           (mkWinnerStructure 2 3 0)).
  - reflexivity.
  - vm_compute. apply list_elem_of_In. simpl. tauto.
  - reflexivity.
Defined.

(** X10: the refusals of the draw, in the order the service checks them.  An
    unknown lottery is "not found".  For a lottery that is not announced: an
    unforced draw before the draw time fails with "draw time not reached";
    an unforced draw at or after the draw time of a lottery that is neither
    past its end nor flagged as ended and sold out fails with "not ended";
    and a draw that passes these checks, as every forced draw does, fails
    with "no tickets sold" when the lottery has sold no ticket. *)
Theorem draw_refusals engine belowHalf now id s lottery :
  lotteries s !! id = Some lottery →
  resultAnnounced (flags lottery) = false →
  (∀ id', lotteries s !! id' = None → ∀ force,
     drawLottery engine belowHalf now id' force s = Threw LotteryNotFound)
  ∧ (now < drawDatetime lottery →
     drawLottery engine belowHalf now id false s = Threw DrawTimeNotReached)
  ∧ (drawDatetime lottery ≤ now → now < endDatetime lottery →
     isEnded (flags lottery) = false
     ∨ ticketsSold lottery < maxTickets lottery →
     drawLottery engine belowHalf now id false s = Threw LotteryNotEnded)
  ∧ (soldTicketsOf id s = [] →
     drawLottery engine belowHalf now id true s = Threw NoTicketsSold
     ∧ (drawDatetime lottery ≤ now → endDatetime lottery ≤ now →
        drawLottery engine belowHalf now id false s = Threw NoTicketsSold)).
Proof.
  intros Hl Hann. split; [|split; [|split]].
  - intros id' Hnone force. unfold drawLottery. by rewrite Hnone.
  - intros Hearly. unfold drawLottery. rewrite Hl, Hann. simpl.
    by rewrite bool_decide_eq_false_2 by lia.
  - intros Hdraw Hend Hopen. unfold drawLottery. rewrite Hl, Hann. simpl.
    rewrite (bool_decide_eq_true_2 (drawDatetime lottery ≤ now)) by done.
    rewrite (bool_decide_eq_false_2 (endDatetime lottery ≤ now)) by lia.
    simpl. destruct Hopen as [-> | Hsold]; [done|].
    rewrite (bool_decide_eq_false_2 (maxTickets lottery ≤ ticketsSold lottery))
      by lia.
    by rewrite andb_false_r.
  - intros Hnone. unfold soldTicketsOf in Hnone.
    apply (collectTickets_none s) in Hnone.
    split.
    + unfold drawLottery. rewrite Hl, Hann. simpl. rewrite andb_false_r.
      by rewrite Hnone.
    + intros Hdraw Hend. unfold drawLottery. rewrite Hl, Hann. simpl.
      rewrite (bool_decide_eq_true_2 (drawDatetime lottery ≤ now)) by done.
      rewrite (bool_decide_eq_true_2 (endDatetime lottery ≤ now)) by done.
      simpl. by rewrite Hnone.
Qed.

Lemma draw_refusals_witness :
  drawLottery insertionSort alternating 1500 7 false demoDb
  = Threw DrawTimeNotReached
  ∧ drawLottery insertionSort alternating 1500 7 true demoDb
    = Threw NoTicketsSold.
Proof.
  destruct (draw_refusals insertionSort alternating 1500 7 demoDb demoLottery)
    as (_ & Hearly & _ & Hnone); [reflexivity|reflexivity|].
  split; [apply Hearly; reflexivity|].
  apply Hnone. reflexivity.
Defined.

(** X11: results are written once.  Along every history of sweeps, forced
    draws, purchases and wallet updates a lottery has at most one result, it
    has one only when it is announced, and a result that is stored is never
    replaced, changed or removed. *)
Theorem result_written_once engine ops d :
  resultsSound d →
  let d' := performAll engine ops d in
  ∀ id,
    (length (resultsOf id d') ≤ 1)%nat
    ∧ (resultsOf id d' ≠ [] → announced id d')
    ∧ (∀ r, r ∈ resultsOf id d → resultsOf id d' = [r]).
Proof.
  intros Hsound. cbv zeta. intros id.
  destruct (resultsGrow_performAll engine ops d) as [[extra Hextra] Hkeep].
  destruct (Hkeep Hsound id) as [Hlen Hann].
  split; [done|]. split; [done|]. intros r Hr.
  unfold resultsOf in *. rewrite Hextra, filter_app in *.
  destruct (filter _ (results d)) as [|r0 rs]; [by apply elem_of_nil in Hr|].
  simpl in Hlen. destruct rs; simpl in Hlen; [|lia].
  destruct (filter _ extra); simpl in Hlen; [|lia].
  apply list_elem_of_singleton in Hr as ->. done.
Qed.

Lemma result_written_once_witness :
  let d' := performAll insertionSort demoOps demoDb in
  (length (resultsOf 7 d') ≤ 1)%nat
  ∧ (resultsOf 7 d' ≠ [] → announced 7 d')
  ∧ (∀ r, r ∈ resultsOf 7 demoDb → resultsOf 7 d' = [r]).
Proof.
  refine (result_written_once insertionSort demoOps demoDb _ 7).
  intros id. split; [simpl; lia|]. intros Hne. by destruct Hne.
Defined.

(** * The scheduled job: further properties *)

(** X12: the three flag updates of the scheduled job, run a second time at
    the same instant, change nothing more. *)
Theorem sweepFlags_idempotent now d :
  sweepFlags now (sweepFlags now d) = sweepFlags now d.
Proof.
  rewrite !sweepFlags_eq. unfold setLotteries. simpl. f_equal.
  rewrite <- map_fmap_compose. apply map_fmap_ext. intros id l _.
  apply flagsStep_idempotent.
Qed.

(** X13: after the flag updates of the scheduled job, the stored flags follow
    the clock and the sales: a lottery is flagged as ended exactly when it was
    so before or has, by the rule of the purchase route, ended (end time
    reached or sold out); a lottery not ended before that the purchase route
    treats as active is flagged active and not ended; a lottery that was
    flagged as ended is left as it is; and nothing but flags is touched. *)
Theorem sweepFlags_follow_clock now d id lottery :
  lotteries d !! id = Some lottery →
  ∃ lottery',
    lotteries (sweepFlags now d) !! id = Some lottery'
    ∧ sameButFlags lottery lottery'
    ∧ resultAnnounced (flags lottery') = resultAnnounced (flags lottery)
    ∧ (isEnded (flags lottery') = true
       ↔ isEnded (flags lottery) = true ∨ computedPhase now lottery = ENDED)
    ∧ (isEnded (flags lottery) = false → computedPhase now lottery = ACTIVE →
       isActive (flags lottery') = true ∧ isEnded (flags lottery') = false)
    ∧ (isEnded (flags lottery) = true → lottery' = lottery).
Proof.
  intros Hl. exists (flagsStep now lottery).
  split; [by rewrite sweepFlags_lookup, Hl|].
  split; [apply sameButFlags_flagsStep|].
  rewrite computedPhase_ENDED, computedPhase_ACTIVE, flagsStep_flagsAfter.
  set (a := bool_decide (now < startDatetime lottery)).
  set (b := bool_decide (startDatetime lottery ≤ now)
            && bool_decide (now < endDatetime lottery)).
  set (c := bool_decide (endDatetime lottery ≤ now)
            || bool_decide (maxTickets lottery ≤ ticketsSold lottery)).
  destruct (flagsAfter_spec a b c (flags lottery))
    as (Hann & Hended & Hactive & Hsticky).
  assert (c = true
          ↔ endDatetime lottery ≤ now
            ∨ maxTickets lottery ≤ ticketsSold lottery) as Hc.
  { unfold c. rewrite orb_true_iff, !bool_decide_eq_true. done. }
  assert (flags (withFlags (flagsAfter a b c (flags lottery)) lottery)
          = flagsAfter a b c (flags lottery)) as -> by done.
  split; [done|]. split; [|split].
  - rewrite Hended, orb_true_iff, Hc. done.
  - intros Hopen [Htime Hsold].
    assert (c = false) as Hc'.
    { destruct c; [|done]. destruct (proj1 Hc eq_refl); lia. }
    split; [|by rewrite Hended, Hopen, Hc'].
    apply Hactive; [done|done|]. unfold b.
    by rewrite !bool_decide_eq_true_2 by lia.
  - intros Hwas. rewrite (Hsticky Hwas). by destruct lottery.
Qed.

Lemma sweepFlags_follow_clock_witness :
  ∃ lottery',
    lotteries (sweepFlags 1500 demoDb) !! 7%nat = Some lottery'
    ∧ sameButFlags demoLottery lottery'
    ∧ resultAnnounced (flags lottery') = resultAnnounced (flags demoLottery)
    ∧ (isEnded (flags lottery') = true
       ↔ isEnded (flags demoLottery) = true
         ∨ computedPhase 1500 demoLottery = ENDED)
    ∧ (isEnded (flags demoLottery) = false →
       computedPhase 1500 demoLottery = ACTIVE →
       isActive (flags lottery') = true ∧ isEnded (flags lottery') = false)
    ∧ (isEnded (flags demoLottery) = true → lottery' = demoLottery).
Proof.
  apply (sweepFlags_follow_clock 1500 demoDb 7 demoLottery). reflexivity.
Defined.

(** X14: the scheduled job never draws early: a lottery whose draw time lies
    ahead gets no result and is not announced by a run of the job, whatever
    else the run draws. *)
Theorem cron_never_draws_early engine belowHalf now drawNow d id lottery :
  lotteries d !! id = Some lottery →
  now < drawDatetime lottery →
  resultsOf id (cronTick engine belowHalf now drawNow d) = resultsOf id d
  ∧ ∃ lottery',
      lotteries (cronTick engine belowHalf now drawNow d) !! id = Some lottery'
      ∧ sameButFlags lottery lottery'
      ∧ resultAnnounced (flags lottery') = resultAnnounced (flags lottery).
Proof.
  intros Hl Hearly. unfold cronTick.
  destruct (foldl_sweep_other engine belowHalf drawNow
              (lotteriesToDraw now (sweepFlags now d)) (sweepFlags now d) id)
    as [Hlot Hres].
  { intros [id' l'] Hin. simpl. intros ->.
    unfold lotteriesToDraw in Hin.
    apply list_elem_of_filter in Hin as [Hdue Hin].
    apply elem_of_map_to_list in Hin. simpl in Hdue.
    rewrite sweepFlags_lookup, Hl in Hin. simpl in Hin. injection Hin as <-.
    unfold dueForDraw in Hdue.
    apply andb_true_iff in Hdue as [_ Hdue].
    apply bool_decide_eq_true in Hdue.
    pose proof (sameButFlags_flagsStep now lottery) as Hsame.
    apply sameButFlags_fields in Hsame as (_ & _ & _ & _ & _ & _ & _ & _ & Hd).
    lia. }
  split; [by rewrite Hres|].
  exists (flagsStep now lottery).
  split; [by rewrite Hlot, sweepFlags_lookup, Hl|].
  split; [apply sameButFlags_flagsStep|].
  unfold flagsStep.
  by rewrite markEnded_announced, markActive_announced,
    markUpcoming_announced.
Qed.

Lemma cron_never_draws_early_witness :
  resultsOf 7 (cronTick insertionSort (λ _, alternating) 2030 (λ _, 2030) soldDb)
  = resultsOf 7 soldDb
  ∧ ∃ lottery',
      lotteries (cronTick insertionSort (λ _, alternating) 2030 (λ _, 2030)
                   soldDb) !! 7%nat = Some lottery'
      ∧ sameButFlags soldLottery lottery'
      ∧ resultAnnounced (flags lottery') = resultAnnounced (flags soldLottery).
Proof.
  apply (cron_never_draws_early insertionSort (λ _, alternating) 2030
           (λ _, 2030) soldDb 7 soldLottery).
  - reflexivity.
  - reflexivity.
Defined.

(** X15: neither the scheduled job nor a forced draw touches the sales: the
    allocations stay as they are, and of a lottery nothing but its flags
    changes, so its price, its limits, its schedule, its prize bands and its
    sold counter are the same after as before. *)
Theorem job_and_draw_keep_sales engine belowHalf rnd now drawNow id d :
  sameSales d (cronTick engine belowHalf now drawNow d)
  ∧ sameSales d (adminDraw engine rnd now id d).1.
Proof. split; [apply sameSales_cronTick|apply sameSales_adminDraw]. Qed.

(** * The wallet routes *)

Lemma sumZ_app l k : sumZ (l ++ k) = sumZ l + sumZ k.
Proof. induction l as [|x l IH]; simpl; lia. Qed.

Lemma recordsNet_app uid rs r :
  recordsNet uid (rs ++ [r]) = recordsNet uid rs + recordEffect uid r.
Proof. unfold recordsNet. rewrite fmap_app, sumZ_app. simpl. lia. Qed.

Lemma recordsNet_insert uid rs i r r' :
  rs !! i = Some r →
  recordsNet uid (<[i := r']> rs)
  = recordsNet uid rs - recordEffect uid r + recordEffect uid r'.
Proof.
  intros Hi. unfold recordsNet.
  rewrite insert_take_drop by by eapply lookup_lt_Some.
  rewrite <- (take_drop_middle _ _ _ Hi) at 3.
  rewrite !fmap_app, !fmap_cons, !sumZ_app. simpl. lia.
Qed.

Lemma held_saveBalance uid user b st uid' :
  held uid' (saveBalance uid user b st)
  = if decide (uid = uid') then b else held uid' st.
Proof.
  unfold held, saveBalance. simpl. case_decide as Heq.
  - subst. by rewrite lookup_insert_eq.
  - by rewrite lookup_insert_ne.
Qed.

Lemma held_lookup uid user st :
  users (st_db st) !! uid = Some user →
  held uid st = decimalToFloat (walletBalance user).
Proof. unfold held. by intros ->. Qed.

Lemma positiveAmount_Some amount z :
  positiveAmount amount = Some z ↔ amount = Num z ∧ 0 < z.
Proof.
  unfold positiveAmount, parseFloat. destruct amount as [a|]; simpl.
  - repeat case_bool_decide; simpl; split;
      try (intros [= <-]); try (intros [[= <-] ?]); try done; try lia.
    split; [done|lia].
  - split; [done|]. by intros [? _].
Qed.

Lemma held_records d rs rs' uid :
  held uid (mkStore d rs) = held uid (mkStore d rs').
Proof. done. Qed.

Lemma held_createRecord doc st uid :
  held uid (createRecord doc st).1 = held uid st.
Proof. done. Qed.

Lemma held_review rid record status reason reviewer st uid :
  held uid (review rid record status reason reviewer st) = held uid st.
Proof. done. Qed.

Lemma recordEffect_pending_topup uid r :
  wr_type r = Topup → wr_status r = RecPending →
  recordEffect uid r = 0.
Proof. unfold recordEffect. intros -> ->. by case_bool_decide. Qed.

(** The step of a top-up that takes effect: the balance of the owner grows by
    the amount and the record becomes, or is created as, approved. *)
Lemma conserve_credit uid owner user amount st rs' :
  users (st_db st) !! owner = Some user →
  recordsNet uid rs'
  = recordsNet uid (records st)
    + (if bool_decide (owner = uid) then amount else 0) →
  held uid (saveBalance owner user
              (decimalToFloat (walletBalance user) + amount) st)
  - recordsNet uid rs'
  = held uid st - recordsNet uid (records st).
Proof.
  intros Hu ->. rewrite held_saveBalance.
  case_decide as Heq; [subst; rewrite bool_decide_eq_true_2 by done
                      |rewrite bool_decide_eq_false_2 by done].
  - rewrite (held_lookup _ _ _ Hu). lia.
  - lia.
Qed.

Lemma walletAdd_conserves auto u amount description referenceNumber st uid :
  let st' := (walletAdd auto u amount description referenceNumber st).1 in
  held uid st' - recordsNet uid (records st')
  = held uid st - recordsNet uid (records st)
  ∧ transactions (st_db st') = transactions (st_db st)
  ∧ lotteries (st_db st') = lotteries (st_db st)
  ∧ purchases (st_db st') = purchases (st_db st)
  ∧ results (st_db st') = results (st_db st).
Proof.
  cbv zeta. unfold walletAdd.
  destruct (positiveAmount amount) as [z|]; [|done].
  destruct (missingOrBlank referenceNumber); [done|].
  destruct (users (st_db st) !! u) as [user|] eqn:Hu; [|done].
  destruct auto.
  - unfold createRecord. cbn [fst snd records st_db saveBalance].
    split; [|done].
    rewrite (held_records _ _ (records st)).
    apply (conserve_credit uid u user z st); [done|].
    rewrite recordsNet_app. unfold recordEffect. simpl. done.
  - unfold createRecord. cbn [fst snd records st_db]. split; [|done].
    rewrite (held_records _ _ (records st)), recordsNet_app.
    unfold recordEffect. simpl.
    assert (mkStore (st_db st) (records st) = st) as -> by by destruct st.
    case_bool_decide; lia.
Qed.

Lemma store_eta st : mkStore (st_db st) (records st) = st.
Proof. by destruct st. Qed.

Lemma walletWithdraw_conserves auto u amount description st uid :
  let st' := (walletWithdraw auto u amount description st).1 in
  held uid st' - recordsNet uid (records st')
  = held uid st - recordsNet uid (records st)
  ∧ transactions (st_db st') = transactions (st_db st)
  ∧ lotteries (st_db st') = lotteries (st_db st)
  ∧ purchases (st_db st') = purchases (st_db st)
  ∧ results (st_db st') = results (st_db st).
Proof.
  cbv zeta. unfold walletWithdraw.
  destruct (positiveAmount amount) as [z|]; [|done].
  destruct (users (st_db st) !! u) as [user|] eqn:Hu; [|done].
  destruct auto; case_bool_decide; try done;
    unfold createRecord; cbn [fst snd records st_db saveBalance];
    (split; [|done]);
    rewrite (held_records _ _ (records st));
    replace (decimalToFloat (walletBalance user) - z)
      with (decimalToFloat (walletBalance user) + - z) by lia;
    (apply (conserve_credit uid u user (- z) st); [done|]);
    rewrite recordsNet_app; unfold recordEffect; simpl;
    case_bool_decide; lia.
Qed.

Lemma approveTopup_conserves reviewer rid st uid :
  let st' := (approveTopup reviewer rid st).1 in
  held uid st' - recordsNet uid (records st')
  = held uid st - recordsNet uid (records st)
  ∧ transactions (st_db st') = transactions (st_db st)
  ∧ lotteries (st_db st') = lotteries (st_db st)
  ∧ purchases (st_db st') = purchases (st_db st)
  ∧ results (st_db st') = results (st_db st).
Proof.
  cbv zeta. unfold approveTopup.
  destruct (records st !! rid) as [record|] eqn:Hr; [|done].
  case_bool_decide as Htype; [done|]. case_bool_decide as Hstatus; [done|].
  destruct (users (st_db st) !! wr_user record) as [user|] eqn:Hu; [|done].
  unfold review. cbn [fst snd records st_db saveBalance]. split; [|done].
  rewrite (held_records _ _ (records st)).
  apply (conserve_credit uid (wr_user record) user (wr_amount record) st);
    [done|].
  rewrite (recordsNet_insert uid _ _ _ _ Hr).
  rewrite (recordEffect_pending_topup uid record) by done.
  unfold recordEffect. simpl. rewrite Htype. lia.
Qed.

Lemma rejectTopup_conserves reviewer rid reason st uid :
  let st' := (rejectTopup reviewer rid reason st).1 in
  held uid st' - recordsNet uid (records st')
  = held uid st - recordsNet uid (records st)
  ∧ transactions (st_db st') = transactions (st_db st)
  ∧ lotteries (st_db st') = lotteries (st_db st)
  ∧ purchases (st_db st') = purchases (st_db st)
  ∧ results (st_db st') = results (st_db st).
Proof.
  cbv zeta. unfold rejectTopup.
  destruct (records st !! rid) as [record|] eqn:Hr; [|done].
  case_bool_decide as Htype; [done|]. case_bool_decide as Hstatus; [done|].
  unfold review. cbn [fst snd records st_db]. split; [|done].
  rewrite (held_records _ _ (records st)), store_eta.
  rewrite (recordsNet_insert uid _ _ _ _ Hr).
  rewrite (recordEffect_pending_topup uid record) by done.
  unfold recordEffect. simpl. rewrite Htype. case_bool_decide; lia.
Qed.

Lemma approveWithdraw_conserves reviewer rid st uid :
  let st' := (approveWithdraw reviewer rid st).1 in
  held uid st' - recordsNet uid (records st')
  = held uid st - recordsNet uid (records st)
  ∧ transactions (st_db st') = transactions (st_db st)
  ∧ lotteries (st_db st') = lotteries (st_db st)
  ∧ purchases (st_db st') = purchases (st_db st)
  ∧ results (st_db st') = results (st_db st).
Proof.
  cbv zeta. unfold approveWithdraw.
  destruct (records st !! rid) as [record|] eqn:Hr; [|done].
  case_bool_decide as Htype; [done|]. case_bool_decide as Hstatus; [done|].
  unfold review. cbn [fst snd records st_db]. split; [|done].
  rewrite (held_records _ _ (records st)), store_eta.
  rewrite (recordsNet_insert uid _ _ _ _ Hr).
  unfold recordEffect. simpl. rewrite Htype, Hstatus. case_bool_decide; lia.
Qed.

Lemma rejectWithdraw_conserves reviewer rid reason st uid :
  let st' := (rejectWithdraw reviewer rid reason st).1 in
  held uid st' - recordsNet uid (records st')
  = held uid st - recordsNet uid (records st)
  ∧ transactions (st_db st') = transactions (st_db st)
  ∧ lotteries (st_db st') = lotteries (st_db st)
  ∧ purchases (st_db st') = purchases (st_db st)
  ∧ results (st_db st') = results (st_db st).
Proof.
  cbv zeta. unfold rejectWithdraw.
  destruct (missingOrBlank reason); [done|].
  destruct (records st !! rid) as [record|] eqn:Hr; [|done].
  case_bool_decide as Htype; [done|]. case_bool_decide as Hstatus; [done|].
  destruct (users (st_db st) !! wr_user record) as [user|] eqn:Hu; [|done].
  unfold review. cbn [fst snd records st_db saveBalance]. split; [|done].
  rewrite (held_records _ _ (records st)).
  apply (conserve_credit uid (wr_user record) user (wr_amount record) st);
    [done|].
  rewrite (recordsNet_insert uid _ _ _ _ Hr).
  unfold recordEffect. simpl. rewrite Htype, Hstatus.
  case_bool_decide; lia.
Qed.

Lemma serve_conserves req st uid :
  let st' := (serve req st).1 in
  held uid st' - recordsNet uid (records st')
  = held uid st - recordsNet uid (records st)
  ∧ transactions (st_db st') = transactions (st_db st)
  ∧ lotteries (st_db st') = lotteries (st_db st)
  ∧ purchases (st_db st') = purchases (st_db st)
  ∧ results (st_db st') = results (st_db st).
Proof.
  destruct req; simpl.
  - apply walletAdd_conserves.
  - apply walletWithdraw_conserves.
  - apply approveTopup_conserves.
  - apply rejectTopup_conserves.
  - apply approveWithdraw_conserves.
  - apply rejectWithdraw_conserves.
Qed.

Lemma solvent_saveBalance owner user b st rs' :
  0 ≤ b → (∀ uid, 0 ≤ held uid st) → Forall (λ r, 0 < wr_amount r) rs' →
  solvent (mkStore (st_db (saveBalance owner user b st)) rs').
Proof.
  intros Hb Hheld Hrs. split; [|done]. intros uid.
  rewrite (held_records _ _ (records st)).
  change (mkStore (st_db (saveBalance owner user b st)) (records st))
    with (saveBalance owner user b st).
  rewrite held_saveBalance. case_decide; [done|apply Hheld].
Qed.

Lemma solvent_records st rs' :
  (∀ uid, 0 ≤ held uid st) → Forall (λ r, 0 < wr_amount r) rs' →
  solvent (mkStore (st_db st) rs').
Proof. intros Hheld Hrs. split; [|done]. intros uid. apply Hheld. Qed.

Lemma solvent_serve req st : solvent st → solvent (serve req st).1.
Proof.
  intros [Hheld Hrs].
  destruct req as [auto u amount description referenceNumber
                  |auto u amount description
                  |reviewer rid|reviewer rid reason
                  |reviewer rid|reviewer rid reason]; simpl.
  - unfold walletAdd.
    destruct (positiveAmount amount) as [z|] eqn:Hz; [|done].
    apply positiveAmount_Some in Hz as [_ Hz].
    destruct (missingOrBlank referenceNumber); [done|].
    destruct (users (st_db st) !! u) as [user|] eqn:Hu; [|done].
    pose proof (Hheld u) as Hb. rewrite (held_lookup _ _ _ Hu) in Hb.
    destruct auto; unfold createRecord; cbn [fst snd records].
    + apply solvent_saveBalance; [lia|done|].
      apply Forall_app. split; [done|]. by apply Forall_singleton.
    + apply solvent_records; [done|].
      apply Forall_app. split; [done|]. by apply Forall_singleton.
  - unfold walletWithdraw.
    destruct (positiveAmount amount) as [z|] eqn:Hz; [|done].
    apply positiveAmount_Some in Hz as [_ Hz].
    destruct (users (st_db st) !! u) as [user|] eqn:Hu; [|done].
    destruct auto; case_bool_decide; try done;
      unfold createRecord; cbn [fst snd records];
      (apply solvent_saveBalance; [lia|done|]);
      (apply Forall_app; split; [done|]); by apply Forall_singleton.
  - unfold approveTopup.
    destruct (records st !! rid) as [record|] eqn:Hr; [|done].
    case_bool_decide as Htype; [done|]. case_bool_decide as Hstatus; [done|].
    destruct (users (st_db st) !! wr_user record) as [user|] eqn:Hu; [|done].
    pose proof (Hheld (wr_user record)) as Hb.
    rewrite (held_lookup _ _ _ Hu) in Hb.
    assert (0 < wr_amount record) as Hpos.
    { rewrite Forall_forall in Hrs. apply Hrs.
      by eapply list_elem_of_lookup_2. }
    unfold review. cbn [fst snd records].
    apply solvent_saveBalance; [lia|done|]. by apply Forall_insert.
  - unfold rejectTopup.
    destruct (records st !! rid) as [record|] eqn:Hr; [|done].
    case_bool_decide as Htype; [done|]. case_bool_decide as Hstatus; [done|].
    assert (0 < wr_amount record) as Hpos.
    { rewrite Forall_forall in Hrs. apply Hrs.
      by eapply list_elem_of_lookup_2. }
    unfold review. cbn [fst snd records].
    apply solvent_records; [done|]. by apply Forall_insert.
  - unfold approveWithdraw.
    destruct (records st !! rid) as [record|] eqn:Hr; [|done].
    case_bool_decide as Htype; [done|]. case_bool_decide as Hstatus; [done|].
    assert (0 < wr_amount record) as Hpos.
    { rewrite Forall_forall in Hrs. apply Hrs.
      by eapply list_elem_of_lookup_2. }
    unfold review. cbn [fst snd records].
    apply solvent_records; [done|]. by apply Forall_insert.
  - unfold rejectWithdraw.
    destruct (missingOrBlank reason); [done|].
    destruct (records st !! rid) as [record|] eqn:Hr; [|done].
    case_bool_decide as Htype; [done|]. case_bool_decide as Hstatus; [done|].
    destruct (users (st_db st) !! wr_user record) as [user|] eqn:Hu; [|done].
    pose proof (Hheld (wr_user record)) as Hb.
    rewrite (held_lookup _ _ _ Hu) in Hb.
    assert (0 < wr_amount record) as Hpos.
    { rewrite Forall_forall in Hrs. apply Hrs.
      by eapply list_elem_of_lookup_2. }
    unfold review. cbn [fst snd records].
    apply solvent_saveBalance; [lia|done|]. by apply Forall_insert.
Qed.

(** A record that has been decided stays decided. *)
Lemma decided_serve req st rid :
  decided rid st → decided rid (serve req st).1.
Proof.
  intros (r & Hr & Hstatus).
  assert (∀ d rs', decided rid (mkStore d (records st ++ rs'))) as Happ.
  { intros d rs'. exists r. split; [|done]. simpl.
    by apply lookup_app_l_Some. }
  assert (∀ d rid' record status reason reviewer,
            records st !! rid' = Some record →
            wr_status record = RecPending →
            decided rid
              (review rid' record status reason reviewer
                 (mkStore d (records st)))) as Hreview.
  { intros d rid' record status reason reviewer Hrecord Hpending.
    exists r. split; [|done]. unfold review. simpl.
    rewrite list_lookup_insert_ne; [done|]. intros <-. congruence. }
  destruct req as [auto u amount description referenceNumber
                  |auto u amount description
                  |reviewer rid'|reviewer rid' reason
                  |reviewer rid'|reviewer rid' reason]; simpl.
  - unfold walletAdd.
    destruct (positiveAmount amount) as [z|]; [|by exists r].
    destruct (missingOrBlank referenceNumber); [by exists r|].
    destruct (users (st_db st) !! u) as [user|]; [|by exists r].
    destruct auto; apply Happ.
  - unfold walletWithdraw.
    destruct (positiveAmount amount) as [z|]; [|by exists r].
    destruct (users (st_db st) !! u) as [user|]; [|by exists r].
    destruct auto; case_bool_decide; try (by exists r); apply Happ.
  - unfold approveTopup.
    destruct (records st !! rid') as [record|] eqn:Hrecord; [|by exists r].
    case_bool_decide; [by exists r|]. case_bool_decide; [by exists r|].
    destruct (users (st_db st) !! wr_user record) as [user|]; [|by exists r].
    by apply Hreview.
  - unfold rejectTopup.
    destruct (records st !! rid') as [record|] eqn:Hrecord; [|by exists r].
    case_bool_decide; [by exists r|]. case_bool_decide; [by exists r|].
    rewrite <- (store_eta st) at 1. by apply Hreview.
  - unfold approveWithdraw.
    destruct (records st !! rid') as [record|] eqn:Hrecord; [|by exists r].
    case_bool_decide; [by exists r|]. case_bool_decide; [by exists r|].
    rewrite <- (store_eta st) at 1. by apply Hreview.
  - unfold rejectWithdraw.
    destruct (missingOrBlank reason); [by exists r|].
    destruct (records st !! rid') as [record|] eqn:Hrecord; [|by exists r].
    case_bool_decide; [by exists r|]. case_bool_decide; [by exists r|].
    destruct (users (st_db st) !! wr_user record) as [user|]; [|by exists r].
    by apply Hreview.
Qed.

Lemma decided_serveAll reqs st rid :
  decided rid st → decided rid (serveAll reqs st).
Proof.
  unfold serveAll. revert st.
  induction reqs as [|req reqs IH]; intros st Hd; [done|].
  simpl. by apply IH, decided_serve.
Qed.

(** A moderation request on a decided record is refused and changes
    nothing. *)
Lemma decided_refused req st rid :
  decided rid st → moderated req = Some rid →
  ∃ message, serve req st = (st, Refused 400 message).
Proof.
  intros (r & Hr & Hstatus) Hreq.
  destruct req as [auto u amount description referenceNumber
                  |auto u amount description
                  |reviewer rid'|reviewer rid' reason
                  |reviewer rid'|reviewer rid' reason];
    simpl in Hreq; try done; injection Hreq as ->; simpl.
  - unfold approveTopup. rewrite Hr.
    case_bool_decide; [by eexists|].
    rewrite bool_decide_eq_true_2 by done. by eexists.
  - unfold rejectTopup. rewrite Hr.
    case_bool_decide; [by eexists|].
    rewrite bool_decide_eq_true_2 by done. by eexists.
  - unfold approveWithdraw. rewrite Hr.
    case_bool_decide; [by eexists|].
    rewrite bool_decide_eq_true_2 by done. by eexists.
  - unfold rejectWithdraw. destruct (missingOrBlank reason); [by eexists|].
    rewrite Hr. case_bool_decide; [by eexists|].
    rewrite bool_decide_eq_true_2 by done. by eexists.
Qed.

(** A moderation request that is answered with 200 decides its record. *)
Lemma moderation_decides req st st' message newBalance transactionId rid :
  serve req st = (st', Replied message newBalance transactionId) →
  moderated req = Some rid → decided rid st'.
Proof.
  intros Hserve Hreq.
  assert (∀ d record status reason reviewer,
            records st !! rid = Some record → status ≠ RecPending →
            decided rid
              (review rid record status reason reviewer
                 (mkStore d (records st)))) as Hreview.
  { intros d record status reason reviewer Hrecord Hstatus.
    eexists. split.
    - unfold review. simpl.
      by rewrite list_lookup_insert_eq by by eapply lookup_lt_Some.
    - done. }
  destruct req as [auto u amount description referenceNumber
                  |auto u amount description
                  |reviewer rid'|reviewer rid' reason
                  |reviewer rid'|reviewer rid' reason];
    simpl in Hreq; try done; injection Hreq as ->; simpl in Hserve.
  - unfold approveTopup in Hserve.
    destruct (records st !! rid) as [record|] eqn:Hrecord; [|done].
    case_bool_decide; [done|]. case_bool_decide; [done|].
    destruct (users (st_db st) !! wr_user record) as [user|]; [|done].
    injection Hserve as <- _ _ _. by apply Hreview.
  - unfold rejectTopup in Hserve.
    destruct (records st !! rid) as [record|] eqn:Hrecord; [|done].
    case_bool_decide; [done|]. case_bool_decide; [done|].
    injection Hserve as <- _ _ _.
    rewrite <- (store_eta st) at 1. by apply Hreview.
  - unfold approveWithdraw in Hserve.
    destruct (records st !! rid) as [record|] eqn:Hrecord; [|done].
    case_bool_decide; [done|]. case_bool_decide; [done|].
    injection Hserve as <- _ _ _.
    rewrite <- (store_eta st) at 1. by apply Hreview.
  - unfold rejectWithdraw in Hserve.
    destruct (missingOrBlank reason); [done|].
    destruct (records st !! rid) as [record|] eqn:Hrecord; [|done].
    case_bool_decide; [done|]. case_bool_decide; [done|].
    destruct (users (st_db st) !! wr_user record) as [user|]; [|done].
    injection Hserve as <- _ _ _. by apply Hreview.
Qed.

(** X19: a decision is final.  Once a moderation request on a record has been
    answered with 200, every later moderation request on that record, to
    approve or to reject, as a top-up or as a withdrawal, after whatever other
    requests, is refused with status 400 and changes nothing: no amount is
    credited or restored a second time. *)
Theorem decision_is_final
    req st st' message newBalance transactionId rid reqs req' :
  serve req st = (st', Replied message newBalance transactionId) →
  moderated req = Some rid →
  moderated req' = Some rid →
  ∃ refusal,
    serve req' (serveAll reqs st') = (serveAll reqs st', Refused 400 refusal).
Proof.
  intros Hserve Hreq Hreq'.
  eapply decided_refused; [|exact Hreq'].
  apply decided_serveAll. by eapply moderation_decides.
Qed.

Lemma decision_is_final_witness :
  let st1 := (serve (AddFunds false 1 (Num 5000) None (Some "REF-1"))
                demoStore).1 in
  let st2 := (serve (ApproveTopup 9 0) st1).1 in
  ∃ refusal,
    serve (ApproveTopup 9 0)
      (serveAll [WithdrawFunds true 1 (Num 100) None] st2)
    = (serveAll [WithdrawFunds true 1 (Num 100) None] st2,
       Refused 400 refusal).
Proof.
  cbv zeta.
  eapply (decision_is_final (ApproveTopup 9 0)
            (serve (AddFunds false 1 (Num 5000) None (Some "REF-1"))
               demoStore).1
            _ "Top-up approved and wallet updated" (Some 1005000) None 0
            [WithdrawFunds true 1 (Num 100) None] (ApproveTopup 9 0)).
  - vm_compute. reflexivity.
  - reflexivity.
  - reflexivity.
Defined.

(** * Pages *)













Lemma elem_of_slice {A} start stop (l : list A) x :
  x ∈ slice start stop l → x ∈ l.
Proof.
  unfold slice. intros Hx. by apply subseteq_take, subseteq_drop in Hx.
Qed.





(** X22: the ticket numbers of a purchase are shown to its owner only.
    Whatever the page and the limit, also negative or not numbers, a reply
    with ticket numbers is about a purchase of the caller and lists numbers
    of that purchase only; for the purchase of another user the answer is
    the same 404 as for a purchase that does not exist. *)
Theorem ticket_numbers_owner_only uid ticketId page limit d :
  (∀ body,
     ticketNumbersRoute uid ticketId page limit d = inr body →
     ∃ p, purchases d !! ticketId = Some p ∧ p_userId p = uid
          ∧ ∀ t, t ∈ tn_ticketNumbers body → t ∈ ticketNumbers p)
  ∧ (∀ p, purchases d !! ticketId = Some p → p_userId p ≠ uid →
          ticketNumbersRoute uid ticketId page limit d
          = inl (404, "Ticket not found"))
  ∧ (purchases d !! ticketId = None →
     ticketNumbersRoute uid ticketId page limit d
     = inl (404, "Ticket not found")).
Proof.
  unfold ticketNumbersRoute. split; [|split].
  - intros body. destruct (purchases d !! ticketId) as [p|]; [|done].
    case_bool_decide as Howner; [done|]. intros [= <-]. simpl.
    exists p. split; [done|].
    split; [destruct (decide (p_userId p = uid)); [done|by destruct Howner]|].
    intros t. apply elem_of_slice.
  - intros p -> Hother. by rewrite bool_decide_eq_true_2.
  - by intros ->.
Qed.

Lemma ticket_numbers_owner_only_witness :
  ticketNumbersRoute 2 0 (Num 1) (Num 20) soldDb
  = inl (404, "Ticket not found").
Proof.
  destruct (ticket_numbers_owner_only 2 0 (Num 1) (Num 20) soldDb)
    as (_ & Hother & _).
  apply (Hother (mkTicketPurchase 7 1 ["PL-0001"; "PL-0002"] 2 100 200)).
  - reflexivity.
  - vm_compute. discriminate.
Defined.



(** * The advertised prizes *)

Lemma foldl_sum {A} (g : A → Z) (l : list A) a :
  foldl (λ total w, total + g w) a l = a + sumZ (g <$> l).
Proof.
  revert a. induction l as [|x l IH]; intros a; [simpl; lia|].
  cbn [foldl]. rewrite IH, fmap_cons.
  change (sumZ (g x :: (g <$> l))) with (g x + sumZ (g <$> l)). lia.
Qed.

Lemma bandSlots_cons band wss :
  bandSlots (band :: wss)
  = replicate (Z.to_nat (groupSize band)) band ++ bandSlots wss.
Proof. done. Qed.

Lemma sumZ_replicate (n : nat) band :
  sumZ (prizeAmount <$> replicate n band) = Z.of_nat n * prizeAmount band.
Proof.
  induction n as [|n IH]; [done|].
  change (sumZ (prizeAmount <$> replicate (S n) band))
    with (prizeAmount band + sumZ (prizeAmount <$> replicate n band)).
  rewrite IH. lia.
Qed.

Lemma bandSlots_totals wss :
  Forall (λ band, 0 ≤ groupSize band) wss →
  Z.of_nat (length (bandSlots wss)) = sumZ (groupSize <$> wss)
  ∧ sumZ (prizeAmount <$> bandSlots wss)
    = sumZ ((λ band, groupSize band * prizeAmount band) <$> wss).
Proof.
  induction 1 as [|band wss Hband _ [IH1 IH2]]; [done|].
  rewrite bandSlots_cons, length_app, length_replicate, fmap_app, sumZ_app.
  rewrite Nat2Z.inj_add, IH1, IH2, sumZ_replicate, !fmap_cons.
  change (sumZ (?x :: ?l)) with (x + sumZ l).
  by rewrite Z2Nat.id by done.
Qed.

Lemma sumZ_take_le (l : list Z) n :
  Forall (λ x, 0 ≤ x) l → 0 ≤ sumZ (take n l) ≤ sumZ l.
Proof.
  intros Hl. revert n. induction Hl as [|x l Hx _ IH]; intros [|n]; simpl;
    try lia.
  - specialize (IH 0%nat). rewrite take_0 in IH. simpl in IH. lia.
  - specialize (IH n). lia.
Qed.


(** * The ledger across the core *)

Lemma ledgerInvariant_same d d' :
  users d' = users d → transactions d' = transactions d →
  ledgerInvariant d → ledgerInvariant d'.
Proof. unfold ledgerInvariant. by intros -> ->. Qed.

Lemma ledgerInvariant_updateWallet uid amount description s newBalance s' :
  updateWallet uid amount description s = Ok (newBalance, s') →
  ledgerInvariant s → ledgerInvariant s'.
Proof.
  intros Hw Hinv.
  pose proof (ledgerInvariant_update uid amount description s Hinv) as Hown.
  unfold updateWalletOwnSession, inOwnTransaction in Hown.
  by rewrite Hw in Hown.
Qed.

Lemma ledgerInvariant_groupLoop n lottery ws shuffled st s st' s' :
  groupLoop n lottery ws shuffled st s = Ok (st', s') →
  ledgerInvariant s → ledgerInvariant s'.
Proof.
  revert st s. induction n as [|n IH]; intros st s; simpl.
  - by intros [= <- <-].
  - destruct (shuffled !! currentIndex st) as [t|]; [|by intros [= <- <-]].
    unfold bind.
    destruct (updateWallet _ _ _ s) as [[nb s1]|e] eqn:Hw; [|done].
    intros Hloop Hinv. eapply IH; [exact Hloop|].
    by eapply ledgerInvariant_updateWallet.
Qed.

Lemma ledgerInvariant_bandsLoop wss lottery shuffled st s st' s' :
  bandsLoop wss lottery shuffled st s = Ok (st', s') →
  ledgerInvariant s → ledgerInvariant s'.
Proof.
  revert st s. induction wss as [|ws wss IH]; intros st s; simpl.
  - by intros [= <- <-].
  - unfold bind.
    destruct (groupLoop _ _ _ _ _ s) as [[st1 s1]|e] eqn:Hg; [|done].
    intros Hloop Hinv. eapply IH; [exact Hloop|].
    by eapply ledgerInvariant_groupLoop.
Qed.

Lemma ledgerInvariant_drawLottery engine belowHalf now id force s ws s' :
  drawLottery engine belowHalf now id force s = Ok (ws, s') →
  ledgerInvariant s → ledgerInvariant s'.
Proof.
  intros Hdraw Hinv. apply drawLottery_Ok in Hdraw
    as (lottery & all & s1 & _ & _ & _ & _ & Hpick & ->).
  apply (ledgerInvariant_same s1); [done|done|].
  unfold pickWinners, bind, ret in Hpick.
  destruct (bandsLoop _ _ _ _ s) as [[st1 s2]|e] eqn:Hb; [|done].
  injection Hpick as _ <-. by eapply ledgerInvariant_bandsLoop.
Qed.

Lemma ledgerInvariant_inOwnTransaction {A} (body : Tx A) d :
  (∀ a working, body d = Ok (a, working) → ledgerInvariant working) →
  ledgerInvariant d → ledgerInvariant (inOwnTransaction body d).1.
Proof.
  intros Hbody Hinv. unfold inOwnTransaction.
  destruct (body d) as [[a working]|e] eqn:Hrun; simpl; eauto.
Qed.

Lemma ledgerInvariant_sweepLottery engine belowHalf drawNow d e :
  ledgerInvariant d →
  ledgerInvariant (sweepLottery engine belowHalf drawNow d e).
Proof.
  intros Hinv. destruct e as [id lottery]. unfold sweepLottery.
  case_bool_decide; [by apply (ledgerInvariant_same d)|].
  pose proof (ledgerInvariant_inOwnTransaction
                (drawLottery engine (belowHalf id) (drawNow id) id false) d)
    as Hown.
  unfold drawLotteryOwnSession.
  destruct (inOwnTransaction _ d) as [d' [ws|err]] eqn:Hrun; simpl in Hown.
  - apply (ledgerInvariant_same d'); [done|done|]. apply Hown; [|done].
    intros a working Hdraw. by eapply ledgerInvariant_drawLottery.
  - apply Hown; [|done].
    intros a working Hdraw. by eapply ledgerInvariant_drawLottery.
Qed.

Lemma ledgerInvariant_foldl_sweep engine belowHalf drawNow es d :
  ledgerInvariant d →
  ledgerInvariant (foldl (sweepLottery engine belowHalf drawNow) d es).
Proof.
  revert d. induction es as [|e es IH]; intros d Hinv; [done|].
  simpl. by apply IH, ledgerInvariant_sweepLottery.
Qed.

Lemma ledgerInvariant_perform engine d op :
  ledgerInvariant d → ledgerInvariant (perform engine d op).
Proof.
  intros Hinv.
  destruct op as [belowHalf now drawNow|belowHalf now id
                  |now uid idp quantity chosen|uid amount description]; simpl.
  - unfold cronTick. apply ledgerInvariant_foldl_sweep.
    by apply (ledgerInvariant_same d).
  - apply ledgerInvariant_inOwnTransaction; [|done].
    intros ws working Hdraw. by eapply ledgerInvariant_drawLottery.
  - destruct (purchase now uid idp quantity chosen d) as [d' out] eqn:Hp.
    destruct out as [r|e|tickets];
      try (pose proof (purchase_unchanged now uid idp quantity chosen d)
             as Hsame;
           rewrite Hp in Hsame; simpl in *; by rewrite Hsame).
    simpl. apply purchase_writes in Hp
      as (pl & nb & s1 & _ & _ & Hw & Hu & Ht & _).
    apply (ledgerInvariant_same s1); [done|done|].
    by eapply ledgerInvariant_updateWallet.
  - by apply ledgerInvariant_update.
Qed.


(** * The purchase and the stored flags *)

Lemma updateWallet_setLotteries uid amount description ls d :
  updateWallet uid amount description (setLotteries ls d)
  = match updateWallet uid amount description d with
    | Ok (newBalance, s) => Ok (newBalance, setLotteries ls s)
    | Threw e => Threw e
    end.
Proof.
  unfold updateWallet. destruct (checkedAmount amount); [|done]. simpl.
  destruct (users d !! uid) as [user|]; [|done].
  case_bool_decide; [done|]. destruct (walletBalance user); [|done].
  by case_bool_decide.
Qed.

Lemma planPurchase_withFlags now uid id quantity chosen d lottery f :
  lotteries d !! id = Some lottery →
  planPurchase now uid (Uuid id) quantity chosen
    (setLotteries (<[id := withFlags f lottery]> (lotteries d)) d)
  = match planPurchase now uid (Uuid id) quantity chosen d with
    | inl r => inl r
    | inr pl =>
      inr (mkPurchasePlan (pl_id pl) (withFlags f (pl_lottery pl))
             (pl_existing pl) (pl_ticketsToBuy pl) (pl_ticketPrice pl)
             (pl_qty pl) (pl_totalCost pl))
    end.
Proof.
  intros Hl. unfold planPurchase.
  case_bool_decide; [done|].
  cbn [lotteries setLotteries]. rewrite lookup_insert_eq, Hl.
  change (computeLotteryFlags now (withFlags f lottery))
    with (computeLotteryFlags now lottery).
  destruct (negb _ || _); [done|].
  change (soldTicketsOf id (setLotteries ?ls d)) with (soldTicketsOf id d).
  change (findPurchase id uid (setLotteries ?ls d))
    with (findPurchase id uid d).
  change (availableTickets (withFlags f lottery))
    with (availableTickets lottery).
  change (maxTicketsPerUser (withFlags f lottery))
    with (maxTicketsPerUser lottery).
  change (lotteryPrefix (withFlags f lottery)) with (lotteryPrefix lottery).
  change (ticketPrice (withFlags f lottery)) with (ticketPrice lottery).
  case_bool_decide; [done|].
  match goal with
  | |- match ?c with _ => _ end = _ => destruct c as [r|ticketsToBuy]
  end; [done|].
  simpl. done.
Qed.

(** X26: the purchase route never consults the stored flags of a lottery: it
    goes by the clock and by the sold counter alone.  Whatever flags the
    document carries, upcoming, ended or result announced, the answer to a
    purchase is the same; so a lottery whose result an administrator has
    drawn ahead of its end time still sells its remaining tickets until the
    clock ends it. *)
Theorem purchase_ignores_stored_flags now uid id quantity chosen d lottery f :
  lotteries d !! id = Some lottery →
  (purchase now uid (Uuid id) quantity chosen
     (setLotteries (<[id := withFlags f lottery]> (lotteries d)) d)).2
  = (purchase now uid (Uuid id) quantity chosen d).2.
Proof.
  intros Hl. unfold purchase.
  rewrite (planPurchase_withFlags now uid id quantity chosen d lottery f Hl).
  destruct (planPurchase now uid (Uuid id) quantity chosen d) as [r|pl];
    [done|].
  unfold payAndAllocate, bind, upsertPurchase, saveTicketsSold, ret.
  cbn [pl_totalCost pl_ticketsToBuy].
  change (purchaseDescription (mkPurchasePlan ?a (withFlags f ?l) ?b ?c ?e ?g ?h))
    with (purchaseDescription (mkPurchasePlan a l b c e g h)).
  assert (mkPurchasePlan (pl_id pl) (pl_lottery pl) (pl_existing pl)
            (pl_ticketsToBuy pl) (pl_ticketPrice pl) (pl_qty pl)
            (pl_totalCost pl) = pl) as -> by by destruct pl.
  rewrite updateWallet_setLotteries.
  by destruct (updateWallet uid _ (purchaseDescription pl) d) as [[nb s1]|e].
Qed.

Lemma purchase_ignores_stored_flags_witness :
  (purchase 1500 2 (Uuid 7) 1 []
     (setLotteries
        (<[7%nat := withFlags (mkFlags false false true true) demoLottery]>
           (lotteries demoDb)) demoDb)).2
  = Purchased ["PL-0001"].
Proof.
  etrans.
  - apply (purchase_ignores_stored_flags 1500 2 7 1 [] demoDb demoLottery
             (mkFlags false false true true)).
    reflexivity.
  - vm_compute. reflexivity.
Defined.

(** * The scheduled draw *)

(** X27: the scheduled job draws a lottery that is due.  For a lottery with
    tickets sold whose draw time and end have passed, whose prizes are
    positive and whose ticket holders have a wallet, the loop body of the job
    runs the draw to the end: afterwards the lottery is announced and has
    exactly one more result, with the winners that the permuted tickets give,
    and the allocations are untouched. *)
Theorem sweep_draws_due_lottery
    engine belowHalf drawNow d id lottery allTickets :
  lotteries d !! id = Some lottery →
  ticketsSold lottery ≠ 0 →
  drawAllowed (drawNow id) false lottery →
  collectTickets d (filter (λ p, p_lotteryId p = id) (purchases d))
    = Ok allTickets →
  allTickets ≠ [] →
  Forall (λ ws, 0 < prizeAmount ws) (winnerStructure lottery) →
  (∀ t, t ∈ allTickets → canReceive d (tk_userId t)) →
  let d' := sweepLottery engine belowHalf drawNow d (id, lottery) in
  announced id d'
  ∧ resultsOf id d'
    = resultsOf id d
      ++ [mkLotteryResult id
            (assignedWinners (winnerStructure lottery)
               (arraySort engine (belowHalf id) allTickets))]
  ∧ purchases d' = purchases d.
Proof.
  intros Hl Hsold Hallowed Hc Hne Hprizes Hcan. cbv zeta.
  unfold sweepLottery. rewrite bool_decide_eq_false_2 by done.
  unfold drawLotteryOwnSession, inOwnTransaction.
  destruct (drawLottery_total engine (belowHalf id) (drawNow id) id false d
              lottery allTickets Hl Hallowed Hc Hne Hprizes Hcan)
    as (ws & s' & Hdraw).
  rewrite Hdraw.
  apply drawLottery_Ok in Hdraw
    as (lottery' & all & s1 & Hl' & _ & Hc' & _ & Hpick & ->).
  rewrite Hl in Hl'. injection Hl' as <-.
  rewrite Hc in Hc'. injection Hc' as <-.
  apply pickWinners_Ok in Hpick as [-> (_ & _ & Hps & Hres)].
  split; [|split].
  - apply announce_announces. simpl. by rewrite lookup_insert_eq.
  - unfold resultsOf. simpl. rewrite Hres, filter_app.
    by rewrite filter_cons_True by done.
  - done.
Qed.

Lemma sweep_draws_due_lottery_witness :
  let d' := sweepLottery insertionSort (λ _, alternating) (λ _, 3000) soldDb
              (7%nat, soldLottery) in
  announced 7 d'
  ∧ resultsOf 7 d'
    = resultsOf 7 soldDb
      ++ [mkLotteryResult 7
            (assignedWinners (winnerStructure soldLottery)
               (arraySort insertionSort alternating
                  [mkTicket "PL-0001" 1 "Ada" "ada@example.org";
                   mkTicket "PL-0002" 1 "Ada" "ada@example.org";
                   mkTicket "PL-0003" 2 "Bob" "bob@example.org";
                   mkTicket "PL-0004" 2 "Bob" "bob@example.org";
                   mkTicket "PL-0005" 3 "Cy" "cy@example.org"]))]
  ∧ purchases d' = purchases soldDb.
Proof.
  apply (sweep_draws_due_lottery insertionSort (λ _, alternating) (λ _, 3000)
           soldDb 7 soldLottery).
  - reflexivity.
  - vm_compute. discriminate.
  - split; [reflexivity|]. right. split; [vm_compute; discriminate|].
    left. vm_compute. discriminate.
  - vm_compute. reflexivity.
  - discriminate.
  - repeat constructor.
  - intros t Ht. unfold canReceive.
    repeat (apply elem_of_cons in Ht as [->|Ht];
            [eexists _, _; simpl; repeat split; try reflexivity;
             vm_compute; discriminate|]).
    by apply elem_of_nil in Ht.
Defined.

(** * Ended is for good *)

Lemma soldAtLeast_sameSales id lottery d d' :
  sameSales d d' → soldAtLeast id lottery d → soldAtLeast id lottery d'.
Proof.
  intros [_ Hlot] (l & Hl & Hstart & Hend & Hmax & Hsold).
  specialize (Hlot id). rewrite Hl in Hlot.
  inversion Hlot as [? l' Hflags|]; subst.
  apply sameButFlags_fields in Hflags
    as (Hs & Hm & _ & _ & _ & _ & Hst & He & _).
  exists l'. split; [done|]. rewrite Hst, He, Hm, Hs. done.
Qed.

Lemma soldAtLeast_perform engine id lottery d op :
  soldAtLeast id lottery d → soldAtLeast id lottery (perform engine d op).
Proof.
  intros Hinv.
  destruct op as [belowHalf now drawNow|belowHalf now id'
                  |now uid idp quantity chosen|uid amount description];
    try (eapply soldAtLeast_sameSales; [apply sameSales_perform|]; done).
  simpl.
  destruct (purchase now uid idp quantity chosen d) as [d' out] eqn:Hp.
  destruct out as [r|e|tickets];
    try (pose proof (purchase_unchanged now uid idp quantity chosen d) as Hsame;
         rewrite Hp in Hsame; simpl in *; by rewrite Hsame).
  simpl. apply purchase_writes in Hp
    as (pl & nb & s1 & Hplan & _ & _ & _ & _ & _ & Hlot & _).
  apply planPurchase_inr in Hplan as (Hpos & _ & Hl & _ & Hqty & _).
  destruct Hinv as (l & Hlook & Hstart & Hend & Hmax & Hsold).
  unfold soldAtLeast. rewrite Hlot.
  destruct (decide (pl_id pl = id)) as [<-|Hne].
  - rewrite lookup_insert_eq. rewrite Hl in Hlook. injection Hlook as <-.
    eexists. split; [done|]. simpl. repeat split; try done. lia.
  - rewrite lookup_insert_ne by done. by exists l.
Qed.

(** X28: ended is for good.  Once the clock and the sales end a lottery, by
    its end time or by selling out, no sequence of sweeps, draws, purchases
    and wallet updates brings it back: at every later instant the purchase
    route still finds it ended, so it sells no further ticket. *)
Theorem ended_is_for_good engine ops d id lottery now now' :
  lotteries d !! id = Some lottery →
  computedPhase now lottery = ENDED →
  now ≤ now' →
  ∃ lottery',
    lotteries (performAll engine ops d) !! id = Some lottery'
    ∧ computedPhase now' lottery' = ENDED
    ∧ ∀ uid quantity chosen,
        ∃ r, purchase now' uid (Uuid id) quantity chosen
               (performAll engine ops d)
             = (performAll engine ops d, Rejected r).
Proof.
  intros Hl Hended Hlater.
  assert (soldAtLeast id lottery (performAll engine ops d))
    as (l' & Hl' & Hstart & Hend & Hmax & Hsold).
  { assert (soldAtLeast id lottery d) as Hstart
      by (exists lottery; repeat split; (done || lia)).
    clear Hl. unfold performAll. revert d Hstart.
    induction ops as [|op ops IH]; intros d Hinv; [done|].
    simpl. by apply IH, soldAtLeast_perform. }
  assert (computedPhase now' l' = ENDED) as Hended'.
  { apply computedPhase_ENDED. apply computedPhase_ENDED in Hended. lia. }
  exists l'. split; [done|]. split; [done|].
  intros uid quantity chosen. unfold purchase.
  destruct (planPurchase now' uid (Uuid id) quantity chosen
              (performAll engine ops d)) as [r|pl] eqn:Hplan; [by exists r|].
  apply planPurchase_inr in Hplan as (_ & [= ->] & Hpl & Hactive & _).
  rewrite Hl' in Hpl. injection Hpl as Heq. rewrite <- Heq in Hactive.
  congruence.
Qed.

Lemma ended_is_for_good_witness :
  ∃ lottery',
    lotteries (performAll insertionSort demoOps soldDb) !! 7%nat = Some lottery'
    ∧ computedPhase 1600 lottery' = ENDED
    ∧ ∀ uid quantity chosen,
        ∃ r, purchase 1600 uid (Uuid 7) quantity chosen
               (performAll insertionSort demoOps soldDb)
             = (performAll insertionSort demoOps soldDb, Rejected r).
Proof.
  apply (ended_is_for_good insertionSort demoOps soldDb 7 soldLottery 1500 1600).
  - reflexivity.
  - reflexivity.
  - lia.
Defined.

(** * An announced lottery that the clock still holds open *)

(** C8: the announced flag, once set, is never unset; but it is not the end
    of the lottery.  While the clock is between start and end and tickets
    are left, a lottery whose result is announced (an administrator drew it
    ahead of its end) is in the phase in which the purchase route sells: the
    route never answers "Lottery is not active", although the status shown
    for the lottery is "closed"; and the scheduled job moves the stored
    flags of the announced lottery on to active. *)
Theorem announced_lottery_still_sells now d id lottery :
  lotteries d !! id = Some lottery →
  resultAnnounced (flags lottery) = true →
  startDatetime lottery ≤ now < endDatetime lottery →
  ticketsSold lottery < maxTickets lottery →
  currentStatus now lottery = Closed
  ∧ computedPhase now lottery = ACTIVE
  ∧ (∀ uid quantity chosen,
       planPurchase now uid (Uuid id) quantity chosen d
       ≠ inl LotteryIsNotActive)
  ∧ (isEnded (flags lottery) = false →
     ∃ lottery',
       lotteries (sweepFlags now d) !! id = Some lottery'
       ∧ resultAnnounced (flags lottery') = true
       ∧ isActive (flags lottery') = true
       ∧ isEnded (flags lottery') = false).
Proof.
  intros Hl Hann Hclock Hsold.
  assert (computedPhase now lottery = ACTIVE) as Hphase
    by (apply computedPhase_ACTIVE; done).
  split; [unfold currentStatus; by rewrite Hann|].
  split; [exact Hphase|]. split.
  - intros uid quantity chosen. unfold planPurchase.
    case_bool_decide; [done|]. rewrite Hl.
    apply sells_iff_ACTIVE in Hphase. rewrite Hphase.
    case_bool_decide; [done|].
    match goal with
    | |- match ?c with _ => _ end ≠ _ => destruct c as [r|ticketsToBuy] eqn:Hc
    end.
    + intros [= ->]. repeat case_bool_decide; done.
    + simpl. done.
  - intros Hended. rewrite sweepFlags_lookup, Hl. simpl.
    eexists. split; [reflexivity|].
    rewrite flagsStep_flagsAfter. cbn [flags withFlags].
    rewrite !(bool_decide_eq_false_2 (now < startDatetime lottery)) by lia.
    rewrite !(bool_decide_eq_true_2 (startDatetime lottery ≤ now)) by lia.
    rewrite !(bool_decide_eq_true_2 (now < endDatetime lottery)) by lia.
    rewrite !(bool_decide_eq_false_2 (endDatetime lottery ≤ now)) by lia.
    rewrite !(bool_decide_eq_false_2 (maxTickets lottery ≤ ticketsSold lottery))
      by lia.
    destruct (flags lottery) as [up act ended ann]. simpl in *. subst.
    by destruct up, act.
Qed.

(** The run that shows it: a ticket is bought at 1500, an administrator
    draws at 1550, the result is announced and the prize paid; at 1600 the
    route sells ticket PL-0002 of the drawn lottery, and the job of 1700
    marks it active. *)
Lemma announced_lottery_still_sells_witness :
  let drawn :=
    performAll insertionSort
      [Purchase 1500 1 (Uuid 7) 1 []; ForcedDraw alternating 1550 7] demoDb in
  announced 7 drawn
  ∧ length (resultsOf 7 drawn) = 1%nat
  ∧ balanceOf 1 drawn = Some 1009900
  ∧ (purchase 1600 2 (Uuid 7) 1 [] drawn).2 = Purchased ["PL-0002"]
  ∧ announced 7 (purchase 1600 2 (Uuid 7) 1 [] drawn).1
  ∧ (flags <$> lotteries drawn !! 7%nat)
    = Some (mkFlags true false false true)
  ∧ (flags <$> lotteries (sweepFlags 1700 drawn) !! 7%nat)
    = Some (mkFlags false true false true)
  ∧ ∃ lottery',
      lotteries (sweepFlags 1700 drawn) !! 7%nat = Some lottery'
      ∧ resultAnnounced (flags lottery') = true
      ∧ isActive (flags lottery') = true
      ∧ isEnded (flags lottery') = false.
Proof.
  intros drawn.
  assert (lotteries drawn !! 7%nat
          = Some (mkLottery "Premium Lottery" 100 3 2
                    [mkWinnerStructure 1 1 10000; mkWinnerStructure 2 3 5000]
                    1000 2000 2060 1 (mkFlags true false false true) "PL"))
    as Hl by (vm_compute; reflexivity).
  split; [eexists; split; [exact Hl|reflexivity]|].
  split; [by vm_compute|]. split; [by vm_compute|]. split; [by vm_compute|].
  split; [eexists; split; by vm_compute|].
  split; [by rewrite Hl|]. split; [by vm_compute|].
  refine (proj2 (proj2 (proj2
    (announced_lottery_still_sells 1700 drawn 7 _ Hl _ _ _))) _).
  - reflexivity.
  - simpl. lia.
  - simpl. lia.
  - reflexivity.
Defined.

(** * The arithmetic of doubles on amounts of money *)

Lemma grain_gt : 2 ^ 60 < Js.grain.
Proof. unfold Js.grain. apply Z.pow_lt_mono_r; lia. Qed.

Lemma nearestEven_error (a D : Z) :
  0 ≤ a → 0 < D →
  0 ≤ Js.nearestEven a D ∧ 2 * Z.abs (Js.nearestEven a D * D - a) ≤ D.
Proof.
  intros Ha HD. unfold Js.nearestEven.
  pose proof (Z.div_mod a D ltac:(lia)) as E.
  pose proof (Z.mod_pos_bound a D HD) as B.
  pose proof (Z.div_pos a D Ha HD) as Q.
  revert E B Q. generalize (a / D), (a mod D). intros q r E B Q.
  assert ((q + 1) * D = D * q + D) as E1 by ring.
  assert (q * D = D * q) as E2 by ring.
  repeat case_match; rewrite ?E1, ?E2; split; lia.
Qed.

(** A whole number below 2^53 is a double. *)
Lemma round_small (num : Z) :
  Z.abs num < 2 ^ 53 → Js.round num 1 = Js.Fin num.
Proof.
  intros H. unfold Js.round. rewrite Z.div_1_r.
  assert ((if Z.abs num =? 0 then 0 else Z.log2 (Z.abs num) + 1) ≤ 53) as Hb.
  { case_match; [lia|]. apply Z.eqb_neq in H0.
    assert (Z.log2 (Z.abs num) < 53); [|lia].
    apply Z.log2_lt_pow2; lia. }
  rewrite Z.max_l by lia. simpl (2 ^ 0). rewrite !Z.mul_1_r.
  assert (Js.nearestEven (Z.abs num) 1 = Z.abs num) as ->.
  { unfold Js.nearestEven. rewrite Z.mod_1_r, Z.div_1_r. reflexivity. }
  assert (Z.abs num < Js.ceiling) as Hc.
  { unfold Js.ceiling. etrans; [exact H|]. apply Z.pow_lt_mono_r; lia. }
  apply Z.leb_gt in Hc. rewrite Hc. f_equal. lia.
Qed.

(** Rounding moves a number by at most 2^-53 of its size, and keeps its
    sign. *)
Lemma round_near (num den : Z) :
  0 < den → den * 2 ^ 53 ≤ Z.abs num → Z.abs num < den * 2 ^ 2000 →
  ∃ n, Js.round num den = Js.Fin n
       ∧ 2 ^ 53 * Z.abs (n * den - num) ≤ Z.abs num
       ∧ (0 ≤ num → 0 ≤ n) ∧ (num ≤ 0 → n ≤ 0).
Proof.
  intros Hden Hlo Hhi. unfold Js.round.
  set (a := Z.abs num) in *.
  assert (2 ^ 53 ≤ a / den) as Hw.
  { apply Z.div_le_lower_bound; lia. }
  assert ((a / den =? 0) = false) as -> by (apply Z.eqb_neq; lia).
  assert (53 ≤ Z.log2 (a / den)) as Hl.
  { change 53 with (Z.log2 (2 ^ 53)). apply Z.log2_le_mono. exact Hw. }
  set (shift := Z.log2 (a / den) + 1 - 53).
  rewrite Z.max_r by lia.
  assert (2 ^ 52 * (den * 2 ^ shift) ≤ a) as HD.
  { pose proof (Z.log2_spec (a / den) ltac:(lia)) as [L _].
    replace (Z.log2 (a / den)) with (52 + shift) in L by (unfold shift; lia).
    rewrite Z.pow_add_r in L by lia.
    pose proof (Z.mul_div_le a den Hden).
    assert (den * (2 ^ 52 * 2 ^ shift) ≤ den * (a / den)) by (apply Z.mul_le_mono_nonneg_l; lia).
    lia. }
  assert (0 < 2 ^ shift) as Hs by (apply Z.pow_pos_nonneg; lia).
  assert (0 < den * 2 ^ shift) as HDpos by lia.
  destruct (nearestEven_error a (den * 2 ^ shift) ltac:(lia) HDpos) as [Hm He].
  revert Hm He. generalize (Js.nearestEven a (den * 2 ^ shift)). intros m Hm He.
  assert (m * (den * 2 ^ shift) = m * 2 ^ shift * den) as Em by ring.
  rewrite Em in He.
  assert (0 ≤ m * 2 ^ shift) as Hn by lia.
  revert Hn He. generalize (m * 2 ^ shift). intros n0 Hn He.
  assert (n0 < Js.ceiling) as Hc.
  { assert (n0 * den < 2 ^ 2001 * den) as Hlt.
    { change (2 ^ 2001) with (2 * 2 ^ 2000). lia. }
    apply Z.mul_lt_mono_pos_r in Hlt; [|lia].
    etrans; [exact Hlt|]. unfold Js.ceiling. apply Z.pow_lt_mono_r; lia. }
  apply Z.leb_gt in Hc. rewrite Hc.
  exists (Z.sgn num * n0). split; [reflexivity|].
  assert (2 ^ 53 * Z.abs (n0 * den - a) ≤ a) as Hrel.
  { change (2 ^ 53) with (2 * 2 ^ 52). lia. }
  destruct (Z.sgn_spec num) as [[? ->]|[[? ->]|[? ->]]]; subst a.
  - rewrite Z.mul_1_l. rewrite Z.abs_eq in * by lia. repeat split; lia.
  - lia.
  - repeat split; lia.
Qed.

Lemma round_opp (num den : Z) (n : Z) :
  Js.round num den = Js.Fin n → Js.round (- num) den = Js.Fin (- n).
Proof.
  unfold Js.round. rewrite Z.abs_opp. case_match; [discriminate|].
  intros [= <-]. f_equal. rewrite Z.sgn_opp. lia.
Qed.

Lemma grain_room : Js.grain * 2 ^ 900 < 2 ^ 2000.
Proof.
  unfold Js.grain. rewrite <- Z.pow_add_r by lia. apply Z.pow_lt_mono_r; lia.
Qed.

(** [toFixed(2)] of a double that lies within half a minor unit of [k]
    minor units. *)
Lemma toFixed2_near (n k : Z) :
  2 * Z.abs (100 * n - k * Js.grain) < Js.grain → Z.abs k ≤ 10 ^ 22 →
  Js.toFixed2 (Js.Fin n) = Some k.
Proof.
  intros H Hk. pose proof grain_gt as HU. unfold Js.toFixed2.
  change (2 ^ 60) with 1152921504606846976 in HU.
  change (10 ^ 22) with 10000000000000000000000 in Hk.
  change (10 ^ 21) with 1000000000000000000000.
  assert (Z.abs k * Js.grain ≤ 10000000000000000000000 * Js.grain) as Hk'
    by (apply Z.mul_le_mono_nonneg_r; lia).
  assert (Z.abs (k * Js.grain) = Z.abs k * Js.grain) as Ek
    by (rewrite Z.abs_mul; f_equal; lia).
  assert ((1000000000000000000000 * Js.grain <=? Z.abs n) = false) as ->.
  { apply Z.leb_gt. lia. }
  f_equal.
  destruct (Z.sgn_spec n) as [[Hn ->]|[[Hn ->]|[Hn ->]]].
  - rewrite Z.mul_1_l. symmetry.
    apply Z.div_unique with (r := 200 * Z.abs n + Js.grain - 2 * Js.grain * k); lia.
  - subst n. rewrite Z.mul_0_l. destruct (decide (k = 0)) as [->|]; [reflexivity|].
    assert (Js.grain ≤ Z.abs k * Js.grain) by nia. lia.
  - assert ((200 * Z.abs n + Js.grain) / (2 * Js.grain) = - k) as ->; [|lia].
    symmetry.
    apply Z.div_unique with (r := 200 * Z.abs n + Js.grain - 2 * Js.grain * (- k)); lia.
Qed.

(** A stored amount read back: the double of [c] minor units lies within
    2^-53 of its size from them, and has their sign. *)
Lemma ofCents_near (c : Z) :
  Z.abs c ≤ 10 ^ 22 →
  ∃ n, Js.ofCents c = Js.Fin n
       ∧ 2 ^ 53 * Z.abs (100 * n - c * Js.grain) ≤ Z.abs c * Js.grain
       ∧ (0 ≤ c → 0 ≤ n) ∧ (c ≤ 0 → n ≤ 0).
Proof.
  intros Hc. destruct (decide (c = 0)) as [->|Hc0].
  { exists 0. split; [reflexivity|]. lia. }
  pose proof grain_gt as HU. pose proof grain_room as HR.
  change (2 ^ 60) with 1152921504606846976 in HU.
  assert (Z.abs (c * Js.grain) = Z.abs c * Js.grain) as Ec
    by (rewrite Z.abs_mul; f_equal; lia).
  destruct (round_near (c * Js.grain) 100) as (n & E & Hn & Hp & Hm).
  - lia.
  - rewrite Ec. change (2 ^ 53) with 9007199254740992. nia.
  - rewrite Ec.
    assert (Z.abs c * Js.grain ≤ 10 ^ 22 * Js.grain)
      by (apply Z.mul_le_mono_nonneg_r; lia).
    assert (10 ^ 22 * Js.grain < Js.grain * 2 ^ 900); [|lia].
    rewrite (Z.mul_comm (10 ^ 22)). apply Z.mul_lt_mono_pos_l; [lia|].
    apply Z.lt_trans with (2 ^ 80); [reflexivity|].
    apply Z.pow_lt_mono_r; lia.
  - exists n. split; [exact E|]. rewrite Ec in Hn.
    replace (100 * n) with (n * 100) by lia.
    split; [exact Hn|]. split; intros; [apply Hp|apply Hm]; nia.
Qed.

Lemma ofCents_opp (c n : Z) :
  Js.ofCents c = Js.Fin n → Js.ofCents (- c) = Js.Fin (- n).
Proof.
  unfold Js.ofCents, Js.ofDecimal. rewrite Z.mul_opp_l. apply round_opp.
Qed.

(** The sum of a double near [b] minor units and one near [k] lies within
    half a minor unit of [b + k]. *)
Lemma add_near (nb x b k : Z) :
  2 ^ 51 * Z.abs (100 * nb - b * Js.grain) ≤ Z.abs b * Js.grain →
  Z.abs b ≤ Js.cap →
  2 ^ 51 * Z.abs (100 * x - k * Js.grain) ≤ Z.abs k * Js.grain →
  Z.abs k ≤ Js.cap →
  ∃ s, Js.add (Js.Fin nb) (Js.Fin x) = Js.Fin s
       ∧ 2 * Z.abs (100 * s - (b + k) * Js.grain) < Js.grain.
Proof.
  intros Hb Cb Hx Ck. pose proof grain_gt as HU. pose proof grain_room as HR.
  unfold Js.cap in *.
  change (2 ^ 60) with 1152921504606846976 in HU.
  change (10 ^ 14) with 100000000000000 in *.
  change (2 ^ 51) with 2251799813685248 in *.
  assert (Z.abs b * Js.grain ≤ 100000000000000 * Js.grain) as Cb'
    by (apply Z.mul_le_mono_nonneg_r; lia).
  assert (Z.abs k * Js.grain ≤ 100000000000000 * Js.grain) as Ck'
    by (apply Z.mul_le_mono_nonneg_r; lia).
  assert (Z.abs ((b + k) * Js.grain) ≤ 200000000000000 * Js.grain) as Cs.
  { rewrite Z.abs_mul, (Z.abs_eq Js.grain) by lia.
    replace (200000000000000 * Js.grain)
      with ((100000000000000 + 100000000000000) * Js.grain) by ring.
    apply Z.mul_le_mono_nonneg_r; lia. }
  simpl Js.add.
  destruct (decide (Z.abs (nb + x) < 2 ^ 53)) as [Hs|Hs].
  { rewrite round_small by exact Hs. eexists; split; [reflexivity|].
    replace (100 * (nb + x) - (b + k) * Js.grain)
      with ((100 * nb - b * Js.grain) + (100 * x - k * Js.grain)) by ring.
    lia. }
  destruct (round_near (nb + x) 1) as (s & E & Hn & _).
  - lia.
  - lia.
  - assert (100 * Z.abs (nb + x) ≤ 300000000000000 * Js.grain) as Ht.
    { replace (100 * Z.abs (nb + x)) with (Z.abs (100 * nb + 100 * x)) by lia.
      replace (100 * nb + 100 * x)
        with ((100 * nb - b * Js.grain) + (100 * x - k * Js.grain)
              + (b + k) * Js.grain) by ring.
      lia. }
    assert (300000000000000 * Js.grain < Js.grain * 2 ^ 900); [|lia].
    rewrite (Z.mul_comm 300000000000000). apply Z.mul_lt_mono_pos_l; [lia|].
    apply Z.lt_trans with (2 ^ 80); [reflexivity|].
    apply Z.pow_lt_mono_r; lia.
  - exists s. split; [exact E|].
    change (2 ^ 53) with 9007199254740992 in Hn. rewrite Z.mul_1_r in Hn.
    assert (100 * Z.abs (nb + x) ≤ 300000000000000 * Js.grain) as Ht.
    { replace (100 * Z.abs (nb + x)) with (Z.abs (100 * nb + 100 * x)) by lia.
      replace (100 * nb + 100 * x)
        with ((100 * nb - b * Js.grain) + (100 * x - k * Js.grain)
              + (b + k) * Js.grain) by ring.
      lia. }
    replace (100 * s - (b + k) * Js.grain)
      with (100 * (s - (nb + x)) + (100 * nb - b * Js.grain)
            + (100 * x - k * Js.grain)) by ring.
    lia.
Qed.

(** What [updateWallet] computes from a balance of [b] minor units and a
    change near [k] minor units. *)
Lemma wallet_arith (b k x : Z) :
  0 ≤ b ≤ Js.cap → Z.abs k ≤ Js.cap → k ≠ 0 → Js.approx k (Js.Fin x) →
  ∃ s, Js.add (Js.ofCents b) (Js.Fin x) = Js.Fin s
       ∧ Js.toFixed2 (Js.Fin s) = Some (b + k)
       ∧ Js.toFixed2 (Js.Fin (Z.abs x)) = Some (Z.abs k)
       ∧ x ≠ 0 ∧ (0 ≤ x ↔ 0 ≤ k)
       ∧ (b + k < 0 → s < 0) ∧ (0 < b + k → 0 < s).
Proof.
  intros Hb Hk Hk0 Hx. simpl in Hx.
  assert (Js.cap = 100000000000000) as Ecap by reflexivity.
  destruct (ofCents_near b) as (nb & Eb & Hnb & _).
  { rewrite Ecap in Hb. change (10 ^ 22) with 10000000000000000000000. lia. }
  pose proof grain_gt as HU.
  change (2 ^ 60) with 1152921504606846976 in HU.
  change (2 ^ 53) with 9007199254740992 in Hnb.
  destruct (add_near nb x b k) as (s & Es & Hs).
  { change (2 ^ 51) with 2251799813685248. lia. }
  { lia. }
  { exact Hx. }
  { exact Hk. }
  change (2 ^ 51) with 2251799813685248 in Hx.
  assert (Z.abs k * Js.grain ≤ 100000000000000 * Js.grain) as Ck'
    by (apply Z.mul_le_mono_nonneg_r; lia).
  assert (Js.grain ≤ Z.abs k * Js.grain) as Ck'' by nia.
  assert (Z.abs (k * Js.grain) = Z.abs k * Js.grain) as Ek
    by (rewrite Z.abs_mul; f_equal; lia).
  assert (Z.abs ((b + k) * Js.grain) = Z.abs (b + k) * Js.grain) as Ebk
    by (rewrite Z.abs_mul; f_equal; lia).
  exists s. rewrite Eb. split; [exact Es|].
  split. { apply toFixed2_near; [exact Hs|]. change (10 ^ 22) with 10000000000000000000000. lia. }
  assert (x ≠ 0 ∧ (0 ≤ x ↔ 0 ≤ k)) as [Hx0 Hsign].
  { destruct (Z.abs_spec k) as [[? Ea]|[? Ea]]; rewrite Ea in *; lia. }
  split.
  { apply toFixed2_near; [|change (10 ^ 22) with 10000000000000000000000; lia].
    destruct (Z.abs_spec k) as [[? Ea]|[? Ea]]; rewrite Ea in *.
    - rewrite (Z.abs_eq x) by lia. lia.
    - rewrite (Z.abs_neq x) by lia.
      replace (100 * - x - - k * Js.grain) with (- (100 * x - k * Js.grain)) by ring.
      rewrite Z.abs_opp. lia. }
  split; [exact Hx0|]. split; [exact Hsign|].
  split; intros Hlt.
  - assert ((b + k) * Js.grain ≤ - Js.grain) by nia. lia.
  - assert (Js.grain ≤ (b + k) * Js.grain) by nia. lia.
Qed.

(** The double of a stored amount is near it in the sense of [approx]. *)
Lemma approx_ofCents (k : Z) :
  Z.abs k ≤ Js.cap → Js.approx k (Js.ofCents k).
Proof.
  intros Hk. destruct (ofCents_near k) as (n & -> & Hn & _).
  { unfold Js.cap in Hk. change (10 ^ 14) with 100000000000000 in Hk.
    change (10 ^ 22) with 10000000000000000000000. lia. }
  simpl. change (2 ^ 53) with (4 * 2 ^ 51) in Hn.
  assert (0 ≤ 2 ^ 51 * Z.abs (100 * n - k * Js.grain)) by lia. lia.
Qed.

Lemma approx_opp (k : Z) (x : Js.double) :
  Js.approx k x → Js.approx (- k) (Js.neg x).
Proof.
  destruct x as [n| |]; simpl; [|tauto..]. intros H.
  replace (100 * - n - - k * Js.grain) with (- (100 * n - k * Js.grain)) by ring.
  rewrite !Z.abs_opp. exact H.
Qed.

(** A debit of exactly the balance leaves exactly zero. *)
Lemma add_ofCents_opp (b : Z) :
  Z.abs b ≤ Js.cap → Js.add (Js.ofCents b) (Js.ofCents (- b)) = Js.zero.
Proof.
  intros Hb. destruct (ofCents_near b) as (n & E & _).
  { unfold Js.cap in Hb. change (10 ^ 14) with 100000000000000 in Hb.
    change (10 ^ 22) with 10000000000000000000000. lia. }
  rewrite (ofCents_opp _ _ E), E. simpl. rewrite Z.add_opp_diag_r. reflexivity.
Qed.

(** * The wallet, in the arithmetic of the source *)

(** [updateWallet] on a Number near [k] minor units, for an account within
    the cap. *)
Lemma Js_updateWallet_run uid x k description s user b :
  users s !! uid = Some user → u_role user = RoleUser →
  walletBalance user = Some b →
  0 ≤ b ≤ Js.cap → Z.abs k ≤ Js.cap → k ≠ 0 → Js.approx k (Js.Fin x) →
  ∃ y, Js.add (Js.ofCents b) (Js.Fin x) = Js.Fin y
       ∧ (b + k < 0 → y < 0) ∧ (0 < b + k → 0 < y)
       ∧ Js.toFixed2 (Js.Fin y) = Some (b + k)
       ∧ Js.updateWallet uid (Js.Number (Js.Fin x)) description s
         = if y <? 0 then Js.Thrown InsufficientFunds
           else Js.Returned (Js.Fin y, walletWritten uid user b k description s).
Proof.
  intros Hu Hr Hb Hbb Hk Hk0 Hx.
  destruct (wallet_arith b k x Hbb Hk Hk0 Hx)
    as (y & Ey & Fy & Fx & Hx0 & Hsign & Hneg & Hpos).
  exists y. split; [exact Ey|]. split; [exact Hneg|]. split; [exact Hpos|].
  split; [exact Fy|].
  unfold Js.updateWallet. cbn [Js.truthy Js.toNumber Js.parseFloat Js.not Js.isNaN].
  assert ((x =? 0) = false) as -> by (apply Z.eqb_neq; exact Hx0).
  cbn [negb orb]. rewrite Hu, Hr, Hb.
  rewrite (bool_decide_eq_false_2 (RoleUser ≠ RoleUser)) by (intros Hn; by apply Hn).
  rewrite Ey. cbn [Js.lt Js.zero Js.abs].
  destruct (y <? 0); [reflexivity|].
  rewrite Fy, Fx. unfold walletWritten, ledgerEntry.
  cbn [Js.ge Js.le Js.lt Js.zero].
  destruct (x <? 0) eqn:Hxs.
  - apply Z.ltb_lt in Hxs. rewrite bool_decide_eq_false_2 by lia. reflexivity.
  - apply Z.ltb_ge in Hxs. rewrite bool_decide_eq_true_2 by lia. reflexivity.
Qed.

(** On an amount of whole minor units [updateWallet] does what the exact
    layer does. *)
Lemma Js_updateWallet_cents uid k description s :
  Z.abs k ≤ Js.cap →
  (∀ user b, users s !! uid = Some user → walletBalance user = Some b →
             0 ≤ b ≤ Js.cap) →
  match updateWallet uid (Num k) description s with
  | Ok (nb, s') =>
    ∃ y, Js.updateWallet uid (Js.Number (Js.ofCents k)) description s
           = Js.Returned (y, s')
         ∧ Js.toFixed2 y = Some nb
  | Threw e =>
    Js.updateWallet uid (Js.Number (Js.ofCents k)) description s = Js.Thrown e
  end.
Proof.
  intros Hk Hbal.
  destruct (decide (k = 0)) as [->|Hk0]; [reflexivity|].
  pose proof (approx_ofCents k Hk) as Hx.
  destruct (Js.ofCents k) as [x| |] eqn:Ex; [|done..].
  destruct (users s !! uid) as [user|] eqn:Hu.
  2: { unfold updateWallet, Js.updateWallet.
       assert (checkedAmount (Num k) = Some k) as -> by by apply checkedAmount_Some.
       rewrite Hu. cbn [Js.truthy Js.toNumber Js.not Js.isNaN].
       destruct (x =? 0) eqn:E0; [|reflexivity].
       apply Z.eqb_eq in E0. subst x. simpl in Hx.
       pose proof grain_gt. assert (Js.grain ≤ Z.abs k * Js.grain) by nia.
       rewrite Z.mul_0_r, Z.sub_0_l, Z.abs_opp, Z.abs_mul in Hx.
       rewrite (Z.abs_eq Js.grain) in Hx by lia.
       change (2 ^ 51) with 2251799813685248 in Hx. lia. }
  destruct (decide (u_role user = RoleUser)) as [Hr|Hr].
  2: { unfold updateWallet, Js.updateWallet.
       assert (checkedAmount (Num k) = Some k) as -> by by apply checkedAmount_Some.
       rewrite Hu, !bool_decide_eq_true_2 by done.
       cbn [Js.truthy Js.toNumber Js.not Js.isNaN].
       destruct (x =? 0) eqn:E0; [|reflexivity].
       apply Z.eqb_eq in E0. subst x. simpl in Hx.
       pose proof grain_gt. assert (Js.grain ≤ Z.abs k * Js.grain) by nia.
       rewrite Z.mul_0_r, Z.sub_0_l, Z.abs_opp, Z.abs_mul in Hx.
       rewrite (Z.abs_eq Js.grain) in Hx by lia.
       change (2 ^ 51) with 2251799813685248 in Hx. lia. }
  destruct (walletBalance user) as [b|] eqn:Hb.
  2: { unfold updateWallet, Js.updateWallet.
       assert (checkedAmount (Num k) = Some k) as -> by by apply checkedAmount_Some.
       rewrite Hu, Hr, Hb.
       rewrite !(bool_decide_eq_false_2 (RoleUser ≠ RoleUser)) by (intros Hn; by apply Hn).
       cbn [Js.truthy Js.toNumber Js.not Js.isNaN].
       destruct (x =? 0) eqn:E0; [|reflexivity].
       apply Z.eqb_eq in E0. subst x. simpl in Hx.
       pose proof grain_gt. assert (Js.grain ≤ Z.abs k * Js.grain) by nia.
       rewrite Z.mul_0_r, Z.sub_0_l, Z.abs_opp, Z.abs_mul in Hx.
       rewrite (Z.abs_eq Js.grain) in Hx by lia.
       change (2 ^ 51) with 2251799813685248 in Hx. lia. }
  pose proof (Hbal user b eq_refl Hb) as Hbb.
  rewrite (updateWallet_run uid k description s user b Hk0 Hu Hr Hb).
  destruct (Js_updateWallet_run uid x k description s user b Hu Hr Hb Hbb Hk Hk0 Hx)
    as (y & Ey & Hneg & Hpos & Fy & ->).
  case_bool_decide as Hlt.
  - assert ((y <? 0) = true) as -> by (apply Z.ltb_lt; auto). reflexivity.
  - assert ((y <? 0) = false) as ->.
    { apply Z.ltb_ge. destruct (decide (b + k = 0)) as [E0|E0]; [|lia].
      assert (k = - b) as -> by lia.
      rewrite <- Ex, add_ofCents_opp in Ey by lia. injection Ey as <-. lia. }
    exists (Js.Fin y). split; [reflexivity|exact Fy].
Qed.



Lemma add_zero b :
  0 ≤ b ≤ Js.cap →
  ∃ y, Js.add (Js.ofCents b) Js.zero = Js.Fin y ∧ 0 ≤ y
       ∧ Js.toFixed2 (Js.Fin y) = Some b.
Proof.
  intros Hb. assert (Js.cap = 100000000000000) as Ecap by reflexivity.
  destruct (decide (b = 0)) as [->|Hb0].
  { exists 0. split; [reflexivity|]. split; [lia|reflexivity]. }
  destruct (ofCents_near b) as (nb & Eb & Hnb & _).
  { change (10 ^ 22) with 10000000000000000000000. lia. }
  change (2 ^ 53) with 9007199254740992 in Hnb.
  destruct (add_near nb 0 b 0) as (y & Ey & Hy).
  { change (2 ^ 51) with 2251799813685248. lia. }
  { lia. }
  { simpl. lia. }
  { rewrite Ecap. lia. }
  rewrite Z.add_0_r in Hy.
  exists y. rewrite Eb. split; [exact Ey|].
  pose proof grain_gt. assert (Js.grain ≤ b * Js.grain) by nia.
  split; [lia|].
  apply toFixed2_near; [exact Hy|].
  change (10 ^ 22) with 10000000000000000000000. lia.
Qed.






Lemma Js_neg_ofCents c :
  Z.abs c ≤ Js.cap → Js.neg (Js.ofCents c) = Js.ofCents (- c).
Proof.
  intros Hc. destruct (ofCents_near c) as (n & E & _).
  { unfold Js.cap in Hc. change (10 ^ 14) with 100000000000000 in Hc.
    change (10 ^ 22) with 10000000000000000000000. lia. }
  by rewrite (ofCents_opp _ _ E), E.
Qed.




(** C4 (as amended): for an account with a wallet and a balance of at most
    10^14 minor units, a debit of a whole number of minor units, at most
    10^14, fails with "Insufficient funds" exactly when
    [balance - amount < 0]; the failure leaves the database as it was (same
    balance, no entry); a success lowers the balance by the amount and
    appends exactly one entry.  Whatever the amount is, a debit that fails
    leaves the database as it was. *)
Theorem walletDebit_whole_amount d uid user balance amount description :
  users d !! uid = Some user →
  u_role user = RoleUser →
  walletBalance user = Some balance →
  0 ≤ balance ≤ Js.cap →
  Z.abs amount ≤ Js.cap →
  (Js.walletDebit uid (Js.ofCents amount) description d
     = Some (d, Threw InsufficientFunds)
   ↔ balance - amount < 0)
  ∧ ((∃ d', Js.walletDebit uid (Js.ofCents amount) description d
              = Some (d', Threw InsufficientFunds))
     → balance - amount < 0)
  ∧ (amount ≠ 0 → 0 ≤ balance - amount →
     ∃ d' y, Js.walletDebit uid (Js.ofCents amount) description d
               = Some (d', Ok y)
             ∧ Js.toFixed2 y = Some (balance - amount)
             ∧ balanceOf uid d' = Some (balance - amount)
             ∧ transactions d'
               = transactions d
                 ++ [ledgerEntry uid (- amount) description (balance - amount)])
  ∧ (∀ x d' e, Js.walletDebit uid x description d = Some (d', Threw e) →
               d' = d).
Proof.
  intros Hu Hr Hb Hbb Ha.
  assert (∀ x d' e, Js.walletDebit uid x description d = Some (d', Threw e) →
                    d' = d) as Hfail.
  { intros x d' e.
    unfold Js.walletDebit, Js.updateWalletOwnSession, Js.inOwnTransaction.
    destruct (Js.updateWallet uid _ description d) as [[y' s']|e'|]; congruence. }
  unfold Js.walletDebit, Js.updateWalletOwnSession, Js.inOwnTransaction in *.
  rewrite Js_neg_ofCents by exact Ha.
  pose proof (Js_updateWallet_cents uid (- amount) description d) as Hsim.
  destruct (decide (amount = 0)) as [->|Hne].
  { simpl in Hsim. rewrite Hsim.
    - split; [|split; [|split]]; [split; [done|lia]|intros [? [=]]|done|exact Hfail].
    - lia.
    - intros user' b' Hu' Hb'. rewrite Hu in Hu'. injection Hu' as <-.
      rewrite Hb in Hb'. injection Hb' as <-. exact Hbb. }
  rewrite (updateWallet_run uid (- amount) description d user balance) in Hsim
    by (done || lia).
  replace (balance + - amount) with (balance - amount) in Hsim by lia.
  case_bool_decide as Hneg.
  - rewrite Hsim.
    + split; [|split; [|split]]; [done|done|lia|exact Hfail].
    + lia.
    + intros user' b' Hu' Hb'. rewrite Hu in Hu'. injection Hu' as <-.
      rewrite Hb in Hb'. injection Hb' as <-. exact Hbb.
  - destruct Hsim as (y & -> & Hy).
    + lia.
    + intros user' b' Hu' Hb'. rewrite Hu in Hu'. injection Hu' as <-.
      rewrite Hb in Hb'. injection Hb' as <-. exact Hbb.
    + split; [|split; [|split]];
        [split; [done|lia]|intros [? [=]]| |exact Hfail].
      intros _ _. eexists _, y. split; [reflexivity|]. split; [exact Hy|].
      split; [|done]. unfold balanceOf. simpl. by rewrite lookup_insert_eq.
Qed.

(** The scenario of C4: balance 50.00, debit of 100.00. *)
Lemma walletDebit_whole_amount_witness :
  Js.walletDebit 1 (Js.ofCents 10000) "Purchase" lowBalanceDb
  = Some (lowBalanceDb, Threw InsufficientFunds)
  ∧ balanceOf 1 lowBalanceDb = Some 5000
  ∧ transactions lowBalanceDb = [].
Proof.
  split; [|split; reflexivity].
  refine (proj2 (proj1 (walletDebit_whole_amount lowBalanceDb 1
            (mkUser "Ada" "ada@example.org" RoleUser (Some 5000)) 5000 10000
            "Purchase" _ _ _ _ _)) _).
  - reflexivity.
  - reflexivity.
  - reflexivity.
  - vm_compute. split; discriminate.
  - vm_compute. discriminate.
  - lia.
Defined.

(** C4 as the specification states it fails below the minor unit: a debit of
    0.005 from 10000.00 succeeds, the ledger shows a debit of 0.01, and the
    balance is still 10000.00. *)
Lemma debit_below_a_minor_unit :
  ∃ y d',
    Js.walletDebit 1 (Js.ofDecimal 5 3) "Fee" demoDb = Some (d', Ok y)
    ∧ balanceOf 1 demoDb = Some 1000000
    ∧ balanceOf 1 d' = Some 1000000
    ∧ transactions d' = [mkTransaction 1 1 Debit "Fee" 1000000].
Proof.
  eexists _, _. split; [vm_compute; reflexivity|].
  split; [by vm_compute|]. split; by vm_compute.
Qed.

(** C10: the guard [!amount || isNaN(amount)] refuses the Numbers 0 and NaN
    with "Invalid amount" before the account is read, and debit and credit
    are the one [updateWallet]; but the guard lets the string '0' through,
    which is truthy and no NaN: for an account with a wallet the call
    returns, the balance is written back as it was, and the ledger gains a
    credit of 0.00. *)
Theorem updateWallet_zero_string_passes uid description d user balance :
  users d !! uid = Some user →
  u_role user = RoleUser →
  walletBalance user = Some balance →
  0 ≤ balance ≤ Js.cap →
  Js.updateWallet uid (Js.Number Js.zero) description d = Js.Thrown InvalidAmount
  ∧ Js.updateWallet uid (Js.Number Js.NotANumber) description d
    = Js.Thrown InvalidAmount
  ∧ (∀ a, Js.walletDebit uid a description d
          = Js.walletCredit uid (Js.neg a) description d)
  ∧ ∃ y, Js.updateWallet uid (Js.Other true Js.zero Js.zero) description d
         = Js.Returned
             (y, setTransactions
                   (transactions d
                    ++ [mkTransaction uid 0 Credit description balance])
                   (setUsers (<[uid := withBalance user balance]> (users d)) d))
         ∧ Js.toFixed2 y = Some balance.
Proof.
  intros Hu Hr Hb Hbb. split; [reflexivity|]. split; [reflexivity|].
  split; [reflexivity|].
  destruct (add_zero balance Hbb) as (y & Ey & Hy & Fy).
  exists (Js.Fin y). split; [|exact Fy].
  unfold Js.updateWallet. cbn [Js.truthy Js.toNumber Js.parseFloat Js.isNaN Js.zero negb orb].
  rewrite Hu, Hr, Hb.
  rewrite (bool_decide_eq_false_2 (RoleUser ≠ RoleUser)) by (intros Hn; by apply Hn).
  change (Js.Fin 0) with Js.zero. rewrite Ey. cbn [Js.lt Js.zero].
  assert ((y <? 0) = false) as -> by (apply Z.ltb_ge; exact Hy).
  rewrite Fy. reflexivity.
Qed.

Lemma updateWallet_zero_string_passes_witness :
  ∃ y d',
    Js.updateWallet 1 (Js.Other true Js.zero Js.zero) "Adjustment" lowBalanceDb
    = Js.Returned (y, d')
    ∧ balanceOf 1 d' = Some 5000
    ∧ transactions d' = [mkTransaction 1 0 Credit "Adjustment" 5000].
Proof.
  destruct (updateWallet_zero_string_passes 1 "Adjustment" lowBalanceDb
              (mkUser "Ada" "ada@example.org" RoleUser (Some 5000)) 5000)
    as (_ & _ & _ & y & Hrun & _).
  - reflexivity.
  - reflexivity.
  - reflexivity.
  - vm_compute. split; discriminate.
  - exists y. eexists. split; [exact Hrun|]. split; reflexivity.
Defined.

(** * The draw, in the arithmetic of the source *)




















